(** * isorpg: a shallow embedding of the inventory, decorator, movement and
    memento code, with the properties the specification states about them.

    Conventions of the embedding.
    - A TypeScript [number] is an exact integer ([Z]): gold, quantities,
      coordinates, elevations, item values and millisecond timestamps are
      integers wherever the sources produce them.  Where the sources
      multiply by a decimal constant and round down (the enchantment
      multipliers 1.5, 1.3, ..., the masterwork factor 1.5) the constant is
      taken in tenths; on the enchantment levels 1..10 this is also what
      double-precision arithmetic gives.  Where a computation leaves the
      integers -- a product with a value that is no number, the quotient
      the durable decorator takes before it multiplies -- its result is a
      [number]: an integer, NaN or an infinity, the quotient and the
      product being those of IEEE 754 binary64.
    - A JavaScript [Map] whose iteration order is observed is an
      insertion-ordered association list ([JsMap]); one whose order is never
      observed is a [gmap].
    - A method that mutates [this] is a function from the old object to the
      result paired with the new object; where errors are thrown and caught
      and the host's clock is read, a small state-and-exception monad does
      the threading.  [Date.now()], [Math.random()] and the JSON builtins
      belong to the host: the first two are an oracle carried in the state,
      the JSON functions are parameters.  The sprite manager is a
      singleton that the calls on a player read and do not change: its
      state is an argument.  Where a call can throw the TypeError of a
      missing method, it yields a [Completion] together with the object as
      the call leaves it. *)

From Stdlib Require Import ZArith Lia List Bool Ascii String Sorted SpecFloat.
From stdpp Require Import base option list gmap strings pretty.

#[global] Set Warnings "-register-all".

Local Open Scope string_scope.
Local Open Scope Z_scope.

(* ===================================================================== *)
(** ** Items (domain/valueObject/Item.ts) *)
(* ===================================================================== *)

Module Item.

Inductive ItemType := weapon | armor | consumable | material | quest.
Inductive ItemRarity := common | uncommon | rare | epic | legendary.

Definition rarity_name (r : ItemRarity) : string :=
  match r with
  | common => "common" | uncommon => "uncommon" | rare => "rare"
  | epic => "epic" | legendary => "legendary"
  end.

(** [ItemProperties]; the fractional [weight] and the two sprite keys are
    never read by the code modelled below and are left out. *)
Record Item := mkItem {
  id : string;
  name : string;
  description : string;
  type : ItemType;
  rarity : ItemRarity;
  value : Z;
  stackable : bool;
  maxStack : Z
}.

(** [ItemInstance]: an item, a quantity and the instance's own id. *)
Record ItemInstance := mkInstance {
  item : Item;
  quantity : Z;
  uniqueId : string
}.

(** [Item.getDisplayName]: the name followed by the rarity in brackets. *)
Definition getDisplayName (i : Item) : string :=
  name i ++ " (" ++ rarity_name (rarity i) ++ ")".

(** [Item.createInstance]; [stamp] is the text
    [`${Date.now()}_${Math.random()...}`] the host supplies. *)
Definition createInstance (i : Item) (quantity : Z) (stamp : string) : ItemInstance :=
  {| item := i; quantity := Z.min quantity (maxStack i);
     uniqueId := id i ++ "_" ++ stamp |}.

(** The predefined items of [ItemFactory], in the order its static block
    registers them. *)
Definition sword_iron : Item :=
  {| id := "sword_iron"; name := "Iron Sword";
     description := "A sturdy iron sword"; type := weapon; rarity := common;
     value := 50; stackable := false; maxStack := 1 |}.

Definition sword_steel : Item :=
  {| id := "sword_steel"; name := "Steel Sword";
     description := "A well-crafted steel sword"; type := weapon;
     rarity := uncommon; value := 150; stackable := false; maxStack := 1 |}.

Definition armor_leather : Item :=
  {| id := "armor_leather"; name := "Leather Armor";
     description := "Light leather armor"; type := armor; rarity := common;
     value := 30; stackable := false; maxStack := 1 |}.

Definition helmet_iron : Item :=
  {| id := "helmet_iron"; name := "Iron Helmet";
     description := "Protective iron helmet"; type := armor; rarity := common;
     value := 40; stackable := false; maxStack := 1 |}.

Definition potion_health : Item :=
  {| id := "potion_health"; name := "Health Potion";
     description := "Restores 50 health points"; type := consumable;
     rarity := common; value := 25; stackable := true; maxStack := 99 |}.

Definition potion_mana : Item :=
  {| id := "potion_mana"; name := "Mana Potion";
     description := "Restores 50 mana points"; type := consumable;
     rarity := common; value := 30; stackable := true; maxStack := 99 |}.

Definition herb_red : Item :=
  {| id := "herb_red"; name := "Red Herb";
     description := "A red herb used in alchemy"; type := material;
     rarity := common; value := 5; stackable := true; maxStack := 999 |}.

Definition ore_iron : Item :=
  {| id := "ore_iron"; name := "Iron Ore";
     description := "Raw iron ore for smithing"; type := material;
     rarity := common; value := 10; stackable := true; maxStack := 999 |}.

Definition key_ancient : Item :=
  {| id := "key_ancient"; name := "Ancient Key";
     description := "An ancient key with mysterious markings"; type := quest;
     rarity := rare; value := 0; stackable := false; maxStack := 1 |}.

Definition ItemFactory_items : list Item :=
  [sword_iron; sword_steel; armor_leather; helmet_iron; potion_health;
   potion_mana; herb_red; ore_iron; key_ancient].

(** [ItemFactory.getItem]. *)
Definition ItemFactory_getItem (itemId : string) : option Item :=
  List.find (fun i => String.eqb (id i) itemId) ItemFactory_items.

(** [ItemFactory.createItemInstance]. *)
Definition ItemFactory_createItemInstance (itemId : string) (quantity : Z) (stamp : string)
  : option ItemInstance :=
  match ItemFactory_getItem itemId with
  | Some i => Some (createInstance i quantity stamp)
  | None => None
  end.

End Item.

(* ===================================================================== *)
(** ** Item decorators (patterns/structural/Decorator/ItemDecorator.ts) *)
(* ===================================================================== *)

Module Decorator.
Import Item.

(** What arithmetic gives where it need not give an integer: an integer,
    NaN, or an infinity.  (The sign of a zero is not kept.) *)
Inductive number :=
| Int (z : Z)
| NaN
| Infinity (negative : bool).

(** What [createEnhancedItem] can return: the bare item it starts from, or
    one of the four concrete decorators, each holding the [Item] handed to
    its constructor together with its own private fields. *)
Inductive IItemDecorator :=
| BareItem (item : Item)
| EnchantedItemDecorator (item : Item) (enchantmentType : string)
                         (enchantmentLevel : Z) (enchantmentBonus : number)
| DurableItemDecorator (item : Item) (currentDurability maxDurability : Z)
| MasterworkItemDecorator (item : Item) (craftsmanshipBonus : Z)
| LegendaryItemDecorator (item : Item) (legendaryEffect : string) (legendaryBonus : Z).

(** The two tables of the enchanted decorator are object literals, and a
    lookup in an object literal also finds what the object inherits from
    [Object.prototype].  Under each of these names it finds a function
    (under [__proto__] the prototype object itself): a truthy value that
    is neither a number nor a string. *)
Definition Object_prototype_names : list string :=
  [ "constructor"; "hasOwnProperty"; "isPrototypeOf"; "propertyIsEnumerable";
    "toLocaleString"; "toString"; "valueOf"; "__proto__";
    "__defineGetter__"; "__defineSetter__"; "__lookupGetter__"; "__lookupSetter__" ].

Definition inherited (name : string) : bool :=
  existsb (String.eqb name) Object_prototype_names.

(** [getEnchantmentTypeMultiplier], in tenths: [multipliers[type] || 1.0].
    One of the nine keys gives its number; an inherited name gives the
    inherited member, which is no number ([None]); any other type gives
    1.0. *)
Definition getEnchantmentTypeMultiplier10 (enchantmentType : string) : option Z :=
  if String.eqb enchantmentType "fire" then Some 15
  else if String.eqb enchantmentType "ice" then Some 13
  else if String.eqb enchantmentType "lightning" then Some 14
  else if String.eqb enchantmentType "poison" then Some 12
  else if String.eqb enchantmentType "holy" then Some 16
  else if String.eqb enchantmentType "dark" then Some 15
  else if String.eqb enchantmentType "strength" then Some 10
  else if String.eqb enchantmentType "agility" then Some 10
  else if String.eqb enchantmentType "intelligence" then Some 10
  else if inherited enchantmentType then None
  else Some 10.

(** [getEnchantmentPrefix]: [prefixes[type] || 'Enchanted'].  For an
    inherited name the result is the inherited member, and the template
    string of [getDisplayName] then holds the text the host gives that
    member when it converts it to a string (for a function, its source
    text), which is [inherited_text] here. *)
Definition getEnchantmentPrefix (inherited_text : string -> string)
    (enchantmentType : string) : string :=
  if String.eqb enchantmentType "fire" then "Flaming"
  else if String.eqb enchantmentType "ice" then "Frozen"
  else if String.eqb enchantmentType "lightning" then "Thunder"
  else if String.eqb enchantmentType "poison" then "Venomous"
  else if String.eqb enchantmentType "holy" then "Blessed"
  else if String.eqb enchantmentType "dark" then "Cursed"
  else if String.eqb enchantmentType "strength" then "Mighty"
  else if String.eqb enchantmentType "agility" then "Swift"
  else if String.eqb enchantmentType "intelligence" then "Wise"
  else if inherited enchantmentType then inherited_text enchantmentType
  else "Enchanted".

(** [calculateEnchantmentBonus]:
    [Math.floor((this.enchantmentLevel * 2) * typeMultiplier)].  A number
    times an inherited member is NaN, and so is its floor. *)
Definition calculateEnchantmentBonus (enchantmentType : string) (enchantmentLevel : Z)
  : number :=
  let baseBonus := enchantmentLevel * 2 in
  match getEnchantmentTypeMultiplier10 enchantmentType with
  | Some typeMultiplier10 => Int ((baseBonus * typeMultiplier10) / 10)
  | None => NaN
  end.

(** The four constructors. *)
Definition new_EnchantedItemDecorator (item : Item) (enchantmentType : string)
    (enchantmentLevel : Z) : IItemDecorator :=
  let level := Z.max 1 (Z.min 10 enchantmentLevel) in
  EnchantedItemDecorator item enchantmentType level
    (calculateEnchantmentBonus enchantmentType level).

Definition new_DurableItemDecorator (item : Item) (maxDurability : Z) : IItemDecorator :=
  DurableItemDecorator item maxDurability maxDurability.

Definition new_MasterworkItemDecorator (item : Item) : IItemDecorator :=
  MasterworkItemDecorator item 25.

Definition new_LegendaryItemDecorator (item : Item) (legendaryEffect : string) : IItemDecorator :=
  LegendaryItemDecorator item legendaryEffect 50.

(** The durable decorator divides before it compares or multiplies: the
    ratio [currentDurability / maxDurability] is rounded to a double, and
    so is its product with the item's value, of which [getValue] takes the
    floor.  The operations are those of IEEE 754 binary64. *)
Definition double (z : Z) : spec_float := binary_normalize 53 1024 z 0 false.

Definition divide (x y : Z) : spec_float := SFdiv 53 1024 (double x) (double y).

Definition Math_floor (x : spec_float) : number :=
  match x with
  | S754_zero _ => Int 0
  | S754_infinity negative => Infinity negative
  | S754_nan => NaN
  | S754_finite negative m e => Int (Z.shiftl (if negative then Z.neg m else Z.pos m) e)
  end.

(** [getDurabilitySuffix]: the ratio against the literals 0.8, 0.6, 0.4
    and 0.2, each the double nearest to its fraction. *)
Definition getDurabilitySuffix (currentDurability maxDurability : Z) : string :=
  let ratio := divide currentDurability maxDurability in
  if SFleb (divide 8 10) ratio then "(Excellent)"
  else if SFleb (divide 6 10) ratio then "(Good)"
  else if SFleb (divide 4 10) ratio then "(Fair)"
  else if SFleb (divide 2 10) ratio then "(Poor)"
  else if SFltb (double 0) ratio then "(Damaged)"
  else "(Broken)".

Definition durable_value (value currentDurability maxDurability : Z) : number :=
  let durabilityRatio := divide currentDurability maxDurability in
  Math_floor (SFmul 53 1024 (double value) durabilityRatio).

(** [getValue].  [Item] has no such method: on the bare item the call
    raises a TypeError, which is [None] here. *)
Definition getValue (d : IItemDecorator) : option number :=
  match d with
  | BareItem _ => None
  | EnchantedItemDecorator item _ _ enchantmentBonus =>
      Some (match enchantmentBonus with
            | Int bonus => Int (value item + bonus * 50)
            | NaN => NaN
            | Infinity negative => Infinity negative
            end)
  | DurableItemDecorator item currentDurability maxDurability =>
      Some (durable_value (value item) currentDurability maxDurability)
  | MasterworkItemDecorator item _ => Some (Int (value item * 15 / 10))
  | LegendaryItemDecorator item _ _ => Some (Int (value item * 5))
  end.

Definition getDisplayName (inherited_text : string -> string) (d : IItemDecorator)
  : string :=
  match d with
  | BareItem item => Item.getDisplayName item
  | EnchantedItemDecorator item enchantmentType _ _ =>
      getEnchantmentPrefix inherited_text enchantmentType ++ " " ++ name item
  | DurableItemDecorator item currentDurability maxDurability =>
      name item ++ " " ++ getDurabilitySuffix currentDurability maxDurability
  | MasterworkItemDecorator item _ => "Masterwork " ++ name item
  | LegendaryItemDecorator item _ _ => "Legendary " ++ name item
  end.

(** [getDurability]: the base class answers 100, the durable decorator its
    own field; the bare item has no such method. *)
Definition getDurability (d : IItemDecorator) : option Z :=
  match d with
  | BareItem _ => None
  | DurableItemDecorator _ currentDurability _ => Some currentDurability
  | _ => Some 100
  end.

Definition isEnchanted (d : IItemDecorator) : option bool :=
  match d with
  | BareItem _ => None
  | EnchantedItemDecorator _ _ _ _ => Some true
  | _ => Some false
  end.

(** The [enhancements] argument of [createEnhancedItem]; an absent
    property is [None]. *)
Record Enhancements := mkEnh {
  enchantment : option (string * Z);
  durability : option Z;
  masterwork : option bool;
  legendary : option string
}.

(** [ItemDecoratorFactory.createEnhancedItem].  Each [if] tests the
    truthiness of one property (a non-empty string, [true], a non-zero
    number, a present object) and, when it holds, assigns a decorator built
    around [item] -- the parameter, not the value of [enhancedItem]. *)
Definition createEnhancedItem (item : Item) (enhancements : Enhancements) : IItemDecorator :=
  let enhancedItem := BareItem item in
  let enhancedItem :=
    match legendary enhancements with
    | Some effect =>
        if String.eqb effect "" then enhancedItem
        else new_LegendaryItemDecorator item effect
    | None => enhancedItem
    end in
  let enhancedItem :=
    match masterwork enhancements with
    | Some true => new_MasterworkItemDecorator item
    | _ => enhancedItem
    end in
  let enhancedItem :=
    match durability enhancements with
    | Some d => if d =? 0 then enhancedItem else new_DurableItemDecorator item d
    | None => enhancedItem
    end in
  let enhancedItem :=
    match enchantment enhancements with
    | Some (ty, level) => new_EnchantedItemDecorator item ty level
    | None => enhancedItem
    end in
  enhancedItem.

(** What the specification claims for [EnchantedItemDecorator.getValue]:
    the base value plus [floor(level * multiplier * 2)], the level clamped
    to 1..10, the multiplier that of the type's key or 1.0. *)
Definition claimed_enchanted_value (item : Item) (enchantmentType : string) (level : Z) : Z :=
  value item
  + (Z.max 1 (Z.min 10 level)
     * default 10 (getEnchantmentTypeMultiplier10 enchantmentType) * 2) / 10.

End Decorator.

(* ===================================================================== *)
(** ** Insertion-ordered maps (the JavaScript [Map]) *)
(* ===================================================================== *)

Module JsMap.
Section Ops.
Context {K : Type} `{EqDecision K} {V : Type}.

(** Entries in insertion order; the keys of a map built by [set] and
    [delete] from [empty] are pairwise distinct. *)
Definition empty : list (K * V) := [].

Fixpoint get (k : K) (m : list (K * V)) : option V :=
  match m with
  | [] => None
  | (k', v) :: rest => if decide (k = k') then Some v else get k rest
  end.

Definition has (k : K) (m : list (K * V)) : bool :=
  match get k m with Some _ => true | None => false end.

(** [set] on a present key replaces the value where it stands; on an absent
    key it appends. *)
Fixpoint set (k : K) (v : V) (m : list (K * V)) : list (K * V) :=
  match m with
  | [] => [(k, v)]
  | (k', v') :: rest =>
      if decide (k = k') then (k', v) :: rest else (k', v') :: set k v rest
  end.

Fixpoint delete (k : K) (m : list (K * V)) : list (K * V) :=
  match m with
  | [] => []
  | (k', v') :: rest =>
      if decide (k = k') then delete k rest else (k', v') :: delete k rest
  end.

Definition size (m : list (K * V)) : Z := Z.of_nat (length m).

Definition keys (m : list (K * V)) : list K := map fst m.
Definition values (m : list (K * V)) : list V := map snd m.

End Ops.
End JsMap.

(* ===================================================================== *)
(** ** Inventory component (domain/entity/components/InventoryComponent.ts) *)
(* ===================================================================== *)

Module Inventory.

(** The legacy [InventoryItem]. *)
Record InventoryItem := mkInventoryItem {
  id : string;
  name : string;
  type : string;
  quantity : Z;
  maxStack : Z
}.

Inductive EventType :=
  item_added | item_removed | item_used | gold_changed | capacity_changed.

(** [InventoryEvent]; an optional property that was not supplied is [None]. *)
Record InventoryEvent := mkEvent {
  ev_entityId : string;
  eventType : EventType;
  ev_item : option Item.ItemInstance;
  ev_quantity : option Z;
  ev_gold : option Z;
  ev_capacity : option Z;
  message : string
}.

(** The component.  [emitted] is what it has sent to the event bus under
    ['inventory:event'], oldest first. *)
Record InventoryComponent := mkInventory {
  entityId : string;
  _items : gmap string InventoryItem;
  _newItems : list (string * Item.ItemInstance);
  _maxCapacity : Z;
  _gold : Z;
  emitted : list InventoryEvent
}.

(** The constructor: nothing stored, no gold. *)
Definition new_InventoryComponent (maxCapacity : Z) : InventoryComponent :=
  {| entityId := ""; _items := ∅; _newItems := JsMap.empty;
     _maxCapacity := maxCapacity; _gold := 0; emitted := [] |}.

Definition with_items (inv : InventoryComponent) (m : gmap string InventoryItem) :=
  {| entityId := entityId inv; _items := m; _newItems := _newItems inv;
     _maxCapacity := _maxCapacity inv; _gold := _gold inv; emitted := emitted inv |}.

Definition with_newItems (inv : InventoryComponent) (m : list (string * Item.ItemInstance)) :=
  {| entityId := entityId inv; _items := _items inv; _newItems := m;
     _maxCapacity := _maxCapacity inv; _gold := _gold inv; emitted := emitted inv |}.

Definition with_gold (inv : InventoryComponent) (g : Z) :=
  {| entityId := entityId inv; _items := _items inv; _newItems := _newItems inv;
     _maxCapacity := _maxCapacity inv; _gold := g; emitted := emitted inv |}.

Definition currentCapacity (inv : InventoryComponent) : Z :=
  Z.of_nat (size (_items inv)) + JsMap.size (_newItems inv).

Definition isFull (inv : InventoryComponent) : bool :=
  _maxCapacity inv <=? currentCapacity inv.

(** [emitInventoryEvent]: the event is completed with the component's
    entity id and handed to the bus. *)
Definition emitInventoryEvent (inv : InventoryComponent) (ty : EventType)
    (msg : string) (it : option Item.ItemInstance) (q g : option Z) : InventoryComponent :=
  {| entityId := entityId inv; _items := _items inv; _newItems := _newItems inv;
     _maxCapacity := _maxCapacity inv; _gold := _gold inv;
     emitted := emitted inv ++
       [ {| ev_entityId := entityId inv; eventType := ty; ev_item := it;
            ev_quantity := q; ev_gold := g; ev_capacity := None; message := msg |} ] |}.

(** [findItemByItemId]: the first stored instance, in insertion order,
    whose item has the given id. *)
Definition findItemByItemId (inv : InventoryComponent) (itemId : string)
  : option Item.ItemInstance :=
  List.find (fun i => String.eqb (Item.id (Item.item i)) itemId)
            (JsMap.values (_newItems inv)).

(** [updateItemQuantity]. *)
Definition updateItemQuantity (inv : InventoryComponent) (uniqueId : string) (newQuantity : Z)
  : InventoryComponent :=
  match JsMap.get uniqueId (_newItems inv) with
  | None => inv
  | Some itemInstance =>
      if newQuantity <=? 0
      then with_newItems inv (JsMap.delete uniqueId (_newItems inv))
      else with_newItems inv
             (JsMap.set uniqueId
                {| Item.item := Item.item itemInstance; Item.quantity := newQuantity;
                   Item.uniqueId := Item.uniqueId itemInstance |}
                (_newItems inv))
  end.

(** [addItem], the legacy path keyed by item id. *)
Definition addItem (inv : InventoryComponent) (item : InventoryItem)
  : bool * InventoryComponent :=
  if isFull inv && negb (bool_decide (is_Some (_items inv !! id item)))
  then (false, inv)
  else
    match _items inv !! id item with
    | Some existingItem =>
        let newQuantity := quantity existingItem + quantity item in
        if newQuantity <=? maxStack existingItem
        then (true, with_items inv
                      (<[ id item :=
                          {| id := id existingItem; name := name existingItem;
                             type := type existingItem; quantity := newQuantity;
                             maxStack := maxStack existingItem |} ]> (_items inv)))
        else (false, inv)
    | None => (true, with_items inv (<[ id item := item ]> (_items inv)))
    end.

(** [addItemInstance], the path keyed by the instance's unique id. *)
Definition addItemInstance (inv : InventoryComponent) (itemInstance : Item.ItemInstance)
  : bool * InventoryComponent :=
  if isFull inv && negb (JsMap.has (Item.uniqueId itemInstance) (_newItems inv))
  then (false, emitInventoryEvent inv item_added "Inventory is full"
                 (Some itemInstance) None None)
  else
    let add_as_new :=
      let inv1 := with_newItems inv
                    (JsMap.set (Item.uniqueId itemInstance) itemInstance (_newItems inv)) in
      (true, emitInventoryEvent inv1 item_added
               ("Added " ++ pretty (Item.quantity itemInstance) ++ " "
                 ++ Item.name (Item.item itemInstance))
               (Some itemInstance) (Some (Item.quantity itemInstance)) None) in
    match findItemByItemId inv (Item.id (Item.item itemInstance)) with
    | Some existingItem =>
        if Item.stackable (Item.item itemInstance) then
          let newQuantity := Item.quantity existingItem + Item.quantity itemInstance in
          if newQuantity <=? Item.maxStack (Item.item itemInstance) then
            let inv1 := updateItemQuantity inv (Item.uniqueId existingItem) newQuantity in
            (true, emitInventoryEvent inv1 item_added
                     ("Added " ++ pretty (Item.quantity itemInstance) ++ " "
                       ++ Item.name (Item.item itemInstance) ++ " to existing stack")
                     (Some existingItem) (Some (Item.quantity itemInstance)) None)
          else add_as_new
        else add_as_new
    | None => add_as_new
    end.

(** [addItemById]; [stamp] is the clock-and-random suffix of the new
    instance's unique id. *)
Definition addItemById (inv : InventoryComponent) (itemId : string) (q : Z) (stamp : string)
  : bool * InventoryComponent :=
  match Item.ItemFactory_createItemInstance itemId q stamp with
  | None => (false, emitInventoryEvent inv item_added
                      ("Failed to create item: " ++ itemId) None (Some q) None)
  | Some itemInstance => addItemInstance inv itemInstance
  end.

Definition removeItem (inv : InventoryComponent) (itemId : string) (q : Z)
  : bool * InventoryComponent :=
  match _items inv !! itemId with
  | None => (false, inv)
  | Some item =>
      if quantity item <=? q
      then (true, with_items inv (delete itemId (_items inv)))
      else (true, with_items inv
                    (<[ itemId :=
                        {| id := id item; name := name item; type := type item;
                           quantity := quantity item - q; maxStack := maxStack item |} ]>
                     (_items inv)))
  end.

Definition removeItemInstance (inv : InventoryComponent) (uniqueId : string) (q : Z)
  : bool * InventoryComponent :=
  match JsMap.get uniqueId (_newItems inv) with
  | None => (false, inv)
  | Some itemInstance =>
      if Item.quantity itemInstance <=? q
      then
        let inv1 := with_newItems inv (JsMap.delete uniqueId (_newItems inv)) in
        (true, emitInventoryEvent inv1 item_removed
                 ("Removed all " ++ Item.name (Item.item itemInstance))
                 (Some itemInstance) (Some (Item.quantity itemInstance)) None)
      else
        let newQuantity := Item.quantity itemInstance - q in
        let inv1 := updateItemQuantity inv uniqueId newQuantity in
        (true, emitInventoryEvent inv1 item_removed
                 ("Removed " ++ pretty q ++ " " ++ Item.name (Item.item itemInstance))
                 (Some itemInstance) (Some q) None)
  end.

Definition removeItemById (inv : InventoryComponent) (itemId : string) (q : Z)
  : bool * InventoryComponent :=
  match findItemByItemId inv itemId with
  | None => (false, inv)
  | Some itemInstance => removeItemInstance inv (Item.uniqueId itemInstance) q
  end.

(** [addGold]: [this._gold += Math.max(0, amount)], then the event. *)
Definition addGold (inv : InventoryComponent) (amount : Z) : InventoryComponent :=
  let inv1 := with_gold inv (_gold inv + Z.max 0 amount) in
  emitInventoryEvent inv1 gold_changed ("Added " ++ pretty amount ++ " gold")
    None None (Some (_gold inv1)).

(** [removeGold]. *)
Definition removeGold (inv : InventoryComponent) (amount : Z) : bool * InventoryComponent :=
  if amount <=? _gold inv then
    let inv1 := with_gold inv (_gold inv - amount) in
    (true, emitInventoryEvent inv1 gold_changed ("Removed " ++ pretty amount ++ " gold")
             None None (Some (_gold inv1)))
  else (false, inv).

(** [clear] empties the legacy map and the purse. *)
Definition clear (inv : InventoryComponent) : InventoryComponent :=
  with_gold (with_items inv ∅) 0.

(** The mutating operations of the component, as one type, and the state
    each leaves behind. *)
Inductive Operation :=
| OpAddItem (item : InventoryItem)
| OpAddItemInstance (itemInstance : Item.ItemInstance)
| OpAddItemById (itemId : string) (q : Z) (stamp : string)
| OpRemoveItem (itemId : string) (q : Z)
| OpRemoveItemInstance (uniqueId : string) (q : Z)
| OpRemoveItemById (itemId : string) (q : Z)
| OpAddGold (amount : Z)
| OpRemoveGold (amount : Z)
| OpClear.

Definition perform (inv : InventoryComponent) (op : Operation) : InventoryComponent :=
  match op with
  | OpAddItem item => snd (addItem inv item)
  | OpAddItemInstance i => snd (addItemInstance inv i)
  | OpAddItemById itemId q stamp => snd (addItemById inv itemId q stamp)
  | OpRemoveItem itemId q => snd (removeItem inv itemId q)
  | OpRemoveItemInstance u q => snd (removeItemInstance inv u q)
  | OpRemoveItemById itemId q => snd (removeItemById inv itemId q)
  | OpAddGold amount => addGold inv amount
  | OpRemoveGold amount => snd (removeGold inv amount)
  | OpClear => clear inv
  end.

Definition perform_all (ops : list Operation) (inv : InventoryComponent) : InventoryComponent :=
  fold_left perform ops inv.

(** A one-slot inventory holding one health potion, and a second potion
    instance arriving with its own unique id. *)
Definition potion_a : Item.ItemInstance :=
  {| Item.item := Item.potion_health; Item.quantity := 1; Item.uniqueId := "potion_health_1_a" |}.

Definition potion_b : Item.ItemInstance :=
  {| Item.item := Item.potion_health; Item.quantity := 1; Item.uniqueId := "potion_health_2_b" |}.

Definition one_slot_with_potion : InventoryComponent :=
  snd (addItemInstance (new_InventoryComponent 1) potion_a).

(** The same situation on the legacy path. *)
Definition legacy_potion : InventoryItem :=
  {| id := "potion_health"; name := "Health Potion"; type := "consumable";
     quantity := 1; maxStack := 99 |}.

Definition one_slot_with_legacy_potion : InventoryComponent :=
  snd (addItem (new_InventoryComponent 1) legacy_potion).

End Inventory.

(* ===================================================================== *)
(** ** Tiles and the map composite (TileType.ts, TileFlyweight.ts,
       TileFactory.ts, MapComposite.ts, Map.ts) *)
(* ===================================================================== *)

Module World.

Inductive TileType := GRASS | STONE | WATER | SAND | FOREST | MOUNTAIN | PATH | BRIDGE.

Record TileProperties := mkProps {
  walkable : bool;
  swimable : bool;
  flyable : bool;
  movementCost : Z;
  elevation : Z
}.

(** [TilePropertiesFactory.getProperties]: the table of the eight types. *)
Definition getProperties (t : TileType) : TileProperties :=
  match t with
  | GRASS => mkProps true false true 1 0
  | STONE => mkProps true false true 2 0
  | WATER => mkProps false true true 3 (-1)
  | SAND => mkProps true false true 2 0
  | FOREST => mkProps true false true 3 1
  | MOUNTAIN => mkProps false false true 5 3
  | PATH => mkProps true false true 1 0
  | BRIDGE => mkProps true false true 1 0
  end.

(** [TileInstance]: the shared flyweight (determined by the type) and the
    cell's own coordinates. *)
Record TileInstance := mkTile {
  tile_type : TileType;
  tile_x : Z;
  tile_y : Z;
  tile_z : Z
}.

Definition tile_isWalkable (t : TileInstance) : bool := walkable (getProperties (tile_type t)).
Definition tile_getElevation (t : TileInstance) : Z := elevation (getProperties (tile_type t)).

(** The composite: a leaf holds a tile and the 1x1 bounds it was built
    with; a composite (layer, region, or the map itself) holds bounds and
    children in the order they were added. *)
Inductive MapComponent :=
| TileComponent (x y : Z) (tile : TileInstance)
| MapComposite (x y width height : Z) (children : list MapComponent).

Definition isWithinBounds (bx by_ bw bh x y : Z) : bool :=
  (bx <=? x) && (x <? bx + bw) && (by_ <=? y) && (y <? by_ + bh).

(** [getTile]: a leaf answers its tile when the cell is its own; a
    composite rejects a cell outside its bounds and otherwise returns the
    first tile one of its children answers. *)
Fixpoint getTile (c : MapComponent) (x y : Z) : option TileInstance :=
  match c with
  | TileComponent bx by_ tile =>
      if isWithinBounds bx by_ 1 1 x y then Some tile else None
  | MapComposite bx by_ bw bh children =>
      if negb (isWithinBounds bx by_ bw bh x y) then None
      else
        (fix first (l : list MapComponent) : option TileInstance :=
           match l with
           | [] => None
           | child :: rest =>
               match getTile child x y with
               | Some tile => Some tile
               | None => first rest
               end
           end) children
  end.

(** [Map]: a composite anchored at the origin. *)
Record Map := mkMap {
  name : string;
  width : Z;
  height : Z;
  children : list MapComponent
}.

Definition Map_getTile (m : Map) (x y : Z) : option TileInstance :=
  getTile (MapComposite 0 0 (width m) (height m) (children m)) x y.

Definition isWalkable (m : Map) (x y : Z) : bool :=
  match Map_getTile m x y with
  | Some tile => tile_isWalkable tile
  | None => false
  end.

Definition getElevation (m : Map) (x y : Z) : Z :=
  match Map_getTile m x y with
  | Some tile => tile_getElevation tile
  | None => 0
  end.

(** A layer covering [w] x [h] cells, every cell of one type, as
    [generateRandomMap] lays its base layer (column by column). *)
Definition uniform_column (t : TileType) (x : Z) (h : nat) : list MapComponent :=
  map (fun j => TileComponent x (Z.of_nat j) (mkTile t x (Z.of_nat j) 0)) (seq 0 h).

Definition uniform_layer (t : TileType) (w h : nat) : MapComponent :=
  MapComposite 0 0 (Z.of_nat w) (Z.of_nat h)
    (concat (map (fun i => uniform_column t (Z.of_nat i) h) (seq 0 w))).

(** A 4x4 meadow with a mountain put on top of cell (2,1): the mountain's
    layer is added first, so it is the tile [getTile] finds there. *)
Definition meadow : Map :=
  {| name := "meadow"; width := 4; height := 4;
     children :=
       [ MapComposite 0 0 4 4 [TileComponent 2 1 (mkTile MOUNTAIN 2 1 0)];
         uniform_layer GRASS 4 4 ] |}.

End World.

(* ===================================================================== *)
(** ** The sprite manager (domain/service/SpriteManager.ts) *)
(* ===================================================================== *)

Module Sprites.

Record SpriteTexture := mkTexture {
  key : string;
  url : string;
  width : Z;
  height : Z;
  loaded : bool
}.

Record CharacterSpriteSet := mkSpriteSet {
  characterClass : string;
  animations : gmap string (list SpriteTexture)
}.

(** The state of the singleton. *)
Record SpriteManager := mkSpriteManager {
  _textures : gmap string SpriteTexture;
  _characterSets : gmap string CharacterSpriteSet;
  _loaded : bool
}.

Definition new_SpriteManager : SpriteManager :=
  {| _textures := ∅; _characterSets := ∅; _loaded := false |}.

(** [loadTexture]: a placeholder texture, kept under its key. *)
Definition loadTexture (key : string) (sm : SpriteManager) : SpriteTexture * SpriteManager :=
  match _textures sm !! key with
  | Some texture => (texture, sm)
  | None =>
      let texture :=
        {| key := key; url := "/assets/sprites/" ++ key ++ ".png";
           width := 32; height := 32; loaded := true |} in
      (texture,
       {| _textures := <[ key := texture ]> (_textures sm);
          _characterSets := _characterSets sm; _loaded := _loaded sm |})
  end.

(** The frames of one animation, loaded one after the other. *)
Fixpoint loadFrames (prefix : string) (frame frameCount : nat) (sm : SpriteManager)
  : list SpriteTexture * SpriteManager :=
  match frameCount with
  | O => ([], sm)
  | S remaining =>
      let '(texture, sm1) := loadTexture (prefix ++ "_" ++ pretty frame) sm in
      let '(frames, sm2) := loadFrames prefix (S frame) remaining sm1 in
      (texture :: frames, sm2)
  end.

Definition directions : list string := ["north"; "south"; "east"; "west"].
Definition animationTypes : list string := ["idle"; "walk"; "attack"; "cast"].

(** [loadCharacterSprites], each [await] run to its end: for a class not
    loaded yet, the frames of the sixteen animations (one frame for idle,
    four for the others), filed under [`${animationType}_${direction}`]. *)
Definition loadCharacterSprites (characterClass : string) (sm : SpriteManager)
  : CharacterSpriteSet * SpriteManager :=
  match _characterSets sm !! characterClass with
  | Some spriteSet => (spriteSet, sm)
  | None =>
      let '(animations, sm1) :=
        fold_left
          (fun acc animationType =>
             fold_left
               (fun '(animations, sm0) direction =>
                  let frameCount := if String.eqb animationType "idle" then 1%nat else 4%nat in
                  let '(frames, sm') :=
                    loadFrames (characterClass ++ "_" ++ animationType ++ "_" ++ direction)
                               0 frameCount sm0 in
                  (<[ animationType ++ "_" ++ direction := frames ]> animations, sm'))
               directions acc)
          animationTypes (∅, sm) in
      let spriteSet := {| characterClass := characterClass; animations := animations |} in
      (spriteSet,
       {| _textures := _textures sm1;
          _characterSets := <[ characterClass := spriteSet ]> (_characterSets sm1);
          _loaded := _loaded sm1 |})
  end.

Definition getCharacterSet (sm : SpriteManager) (characterClass : string)
  : option CharacterSpriteSet :=
  _characterSets sm !! characterClass.

Definition getAnimationFrames (sm : SpriteManager) (characterClass animationType direction : string)
  : option (list SpriteTexture) :=
  match getCharacterSet sm characterClass with
  | None => None
  | Some characterSet => animations characterSet !! (animationType ++ "_" ++ direction)
  end.

(** [getCurrentFrameTexture]: null without frames or for an index at or
    beyond their number; [frames[frameIndex]] is undefined for a negative
    index, and the one caller only asks whether the result is truthy. *)
Definition getCurrentFrameTexture (sm : SpriteManager)
    (characterClass animationType direction : string) (frameIndex : Z)
  : option SpriteTexture :=
  match getAnimationFrames sm characterClass animationType direction with
  | None => None
  | Some frames =>
      if Z.of_nat (length frames) <=? frameIndex then None
      else if frameIndex <? 0 then None
      else frames !! Z.to_nat frameIndex
  end.

End Sprites.

(* ===================================================================== *)
(** ** Components and the player entity (Kernel.ts, PositionComponent.ts,
       AnimationComponent.ts, Player.ts) *)
(* ===================================================================== *)

Module Entity.

(** How a call ends: it returns, or it throws the TypeError of a call to a
    method that does not exist.  What the call did before it threw stays
    done. *)
Inductive Completion (A : Type) :=
| Returns (a : A)
| TypeError.
Arguments Returns {A} a.
Arguments TypeError {A}.

(** [String.prototype.toLowerCase] on the letters A-Z, the capitals of the
    class types and of the keys it is applied to here. *)
Definition lower (c : ascii) : ascii :=
  let n := nat_of_ascii c in
  if (Nat.leb 65 n && Nat.leb n 90)%bool then ascii_of_nat (n + 32) else c.

Fixpoint toLowerCase (s : string) : string :=
  match s with
  | EmptyString => EmptyString
  | String c rest => String (lower c) (toLowerCase rest)
  end.

Inductive Direction := north | south | east | west.
Inductive AnimationType := idle | walk | attack | cast.

Definition direction_name (d : Direction) : string :=
  match d with north => "north" | south => "south" | east => "east" | west => "west" end.

Definition type_name (t : AnimationType) : string :=
  match t with idle => "idle" | walk => "walk" | attack => "attack" | cast => "cast" end.

Record AnimationState := mkState {
  type : AnimationType;
  direction : Direction;
  currentFrame : Z;
  totalFrames : Z;
  frameRate : Z;
  isLooping : bool;
  isPlaying : bool
}.

Record AnimationConfig := mkConfig {
  cfg_type : AnimationType;
  cfg_direction : Direction;
  cfg_totalFrames : Z;
  cfg_frameRate : Z;
  cfg_isLooping : option bool
}.

Record AnimationComponent := mkAnimation {
  _currentState : AnimationState;
  _lastFrameTime : Z;
  _configurations : gmap string AnimationConfig
}.

Definition new_AnimationComponent : AnimationComponent :=
  {| _currentState := mkState idle south 0 1 8 true true;
     _lastFrameTime := 0; _configurations := ∅ |}.

(** The key under which a configuration is filed: [`${type}_${direction}`]. *)
Definition config_key (t : AnimationType) (d : Direction) : string :=
  type_name t ++ "_" ++ direction_name d.

Definition addAnimation (a : AnimationComponent) (config : AnimationConfig)
  : AnimationComponent :=
  {| _currentState := _currentState a; _lastFrameTime := _lastFrameTime a;
     _configurations :=
       <[ config_key (cfg_type config) (cfg_direction config) := config ]>
         (_configurations a) |}.

(** [setAnimation]: when a configuration is filed under the key, the state
    is rebuilt from it; otherwise nothing changes. *)
Definition setAnimation (a : AnimationComponent) (t : AnimationType) (d : Direction)
  : AnimationComponent :=
  match _configurations a !! config_key t d with
  | Some config =>
      {| _currentState :=
           {| type := cfg_type config; direction := cfg_direction config;
              currentFrame := 0; totalFrames := cfg_totalFrames config;
              frameRate := cfg_frameRate config;
              isLooping := default true (cfg_isLooping config);
              isPlaying := true |};
         _lastFrameTime := _lastFrameTime a;
         _configurations := _configurations a |}
  | None => a
  end.

(** The getter [animationType] reads [_currentState.animationType].  The
    state object has no property of that name (its animation type is under
    [type]), so the read yields [undefined]. *)
Definition animationType (a : AnimationComponent) : option AnimationType := None.

Record PositionComponent := mkPosition { _x : Z; _y : Z; _z : Z }.

(** A component: the [type] string it is registered under, and its data.
    The sprite is kept only as its texture key. *)
Inductive Body :=
| PositionBody (c : PositionComponent)
| AnimationBody (c : AnimationComponent)
| InventoryBody (c : Inventory.InventoryComponent)
| SpriteBody (textureKey : string).

Record Component := mkComponent { ctype : string; body : Body }.

Definition new_PositionComponent (x y z : Z) : Component :=
  mkComponent "Position" (PositionBody (mkPosition x y z)).

(** [Player]: an entity (id and components by type name) with a name and
    the type of its character class. *)
Record Player := mkPlayer {
  id : string;
  name : string;
  characterClass : string;
  components : gmap string Component
}.

Definition with_components (p : Player) (m : gmap string Component) : Player :=
  {| id := id p; name := name p; characterClass := characterClass p; components := m |}.

(** [Entity.addComponent]: filed under the component's own [type]. *)
Definition addComponent (p : Player) (c : Component) : Player :=
  with_components p (<[ ctype c := c ]> (components p)).

(** The getters [position] and [animation]: [getComponent] under the fixed
    names, read at the class the getter declares. *)
Definition position (p : Player) : option PositionComponent :=
  match components p !! "Position" with
  | Some (mkComponent _ (PositionBody c)) => Some c
  | _ => None
  end.

Definition animation (p : Player) : option AnimationComponent :=
  match components p !! "Animation" with
  | Some (mkComponent _ (AnimationBody c)) => Some c
  | _ => None
  end.

Definition getX (p : Player) : Z := match position p with Some c => _x c | None => 0 end.
Definition getY (p : Player) : Z := match position p with Some c => _y c | None => 0 end.
Definition getZ (p : Player) : Z := match position p with Some c => _z c | None => 0 end.

(** Writing a component back keeps the entry's key and [type] string. *)
Definition put_body (p : Player) (key : string) (b : Body) : Player :=
  match components p !! key with
  | Some c => with_components p (<[ key := mkComponent (ctype c) b ]> (components p))
  | None => p
  end.

Definition setPosition (p : Player) (x y z : Z) : Player :=
  match position p with
  | Some _ => put_body p "Position" (PositionBody (mkPosition x y z))
  | None => p
  end.

(** The getter [sprite]: whatever is registered under the name. *)
Definition sprite (p : Player) : option Component := components p !! "Sprite".

(** [updateSpriteTexture].  With an animation and a sprite component it
    asks the sprite manager for the texture of the current frame, and when
    there is one it calls [this.sprite.setTexture(texture.key)].  No
    component has a method of that name ([SpriteComponent] has
    [setTextureKey]): the call throws a TypeError, and the sprite is never
    changed. *)
Definition updateSpriteTexture (sm : Sprites.SpriteManager) (p : Player) : Completion unit :=
  match animation p, sprite p with
  | Some a, Some _ =>
      let characterClass := toLowerCase (characterClass p) in
      let s := _currentState a in
      match Sprites.getCurrentFrameTexture sm characterClass
              (type_name (type s)) (direction_name (direction s)) (currentFrame s) with
      | Some texture => TypeError
      | None => Returns tt
      end
  | _, _ => Returns tt
  end.

(** [setDirection] and [setAnimationType]: the animation is set, then the
    sprite texture is refreshed.  The player is returned as the call
    leaves it, also when the refresh throws. *)
Definition setDirection (sm : Sprites.SpriteManager) (p : Player) (d : Direction)
  : Completion unit * Player :=
  match animation p with
  | Some a =>
      let currentType := type (_currentState a) in
      let p1 := put_body p "Animation" (AnimationBody (setAnimation a currentType d)) in
      (updateSpriteTexture sm p1, p1)
  | None => (Returns tt, p)
  end.

Definition setAnimationType (sm : Sprites.SpriteManager) (p : Player) (t : AnimationType)
  : Completion unit * Player :=
  match animation p with
  | Some a =>
      let currentDirection := direction (_currentState a) in
      let p1 := put_body p "Animation" (AnimationBody (setAnimation a t currentDirection)) in
      (updateSpriteTexture sm p1, p1)
  | None => (Returns tt, p)
  end.

Definition getCurrentDirection (p : Player) : Direction :=
  match animation p with Some a => direction (_currentState a) | None => south end.


(** [initializeAnimationSystem]: with an animation component present, file
    the sixteen configurations and start in idle/south. *)
Definition all_directions : list Direction := [north; south; east; west].
Definition all_types : list AnimationType := [idle; walk; attack; cast].

Definition default_config (t : AnimationType) (d : Direction) : AnimationConfig :=
  {| cfg_type := t; cfg_direction := d;
     cfg_totalFrames := match t with idle => 1 | _ => 4 end;
     cfg_frameRate := match t with idle => 1 | _ => 8 end;
     cfg_isLooping := Some (match t with attack | cast => false | _ => true end) |}.

Definition initializeAnimationSystem (p : Player) : Player :=
  match animation p with
  | None => p
  | Some a =>
      let a1 :=
        fold_left
          (fun acc t => fold_left (fun acc' d => addAnimation acc' (default_config t d))
                                  all_directions acc)
          all_types a in
      put_body p "Animation" (AnimationBody (setAnimation a1 idle south))
  end.

(** The constructor: register the components, then initialise animation. *)
Definition new_Player (id name characterClass : string) (cs : list Component) : Player :=
  initializeAnimationSystem
    (fold_left addComponent cs (mkPlayer id name characterClass ∅)).

(** An animation component holds every idle configuration, each filed
    under its own key -- what [initializeAnimationSystem] establishes and
    [addAnimation] maintains. *)
Definition idle_configured (a : AnimationComponent) : Prop :=
  forall d, exists config,
    _configurations a !! config_key idle d = Some config /\ cfg_type config = idle.

(** The texture refresh has nothing to set for this player: it has no
    sprite component, or no sprite set is loaded for its class. *)
Definition no_texture_for (sm : Sprites.SpriteManager) (p : Player) : Prop :=
  sprite p = None
  \/ Sprites.getCharacterSet sm (toLowerCase (characterClass p)) = None.

End Entity.

(* ===================================================================== *)
(** ** Movement commands (patterns/behavioral/Command/MovementCommand.ts) *)
(* ===================================================================== *)

Module Command.
Import Entity.

(** The command's own fields.  The player and the map it refers to are
    shared with the rest of the game; they are passed to each method and
    the player is returned as the method leaves it. *)
Record MovementCommand := mkCommand {
  deltaX : Z;
  deltaY : Z;
  deltaZ : Z;
  direction : Direction;
  previousPosition : option (Z * Z * Z)
}.

Definition MoveNorthCommand : MovementCommand := mkCommand 0 (-1) 0 north None.
Definition MoveSouthCommand : MovementCommand := mkCommand 0 1 0 south None.
Definition MoveEastCommand : MovementCommand := mkCommand 1 0 0 east None.
Definition MoveWestCommand : MovementCommand := mkCommand (-1) 0 0 west None.
Definition NoMovementCommand : MovementCommand := mkCommand 0 0 0 south None.

(** [isValidPosition]. *)
Definition isValidPosition (player : Player) (map : World.Map) (x y z : Z) : bool :=
  if (x <? 0) || (World.width map <=? x) || (y <? 0) || (World.height map <=? y)
  then false
  else if negb (World.isWalkable map x y) then false
  else
    let currentElevation := World.getElevation map (getX player) (getY player) in
    let targetElevation := World.getElevation map x y in
    let elevationDiff := Z.abs (targetElevation - currentElevation) in
    if 1 <? elevationDiff then false else true.

Definition canExecute (c : MovementCommand) (player : Player) (map : World.Map) : bool :=
  let newX := getX player + deltaX c in
  let newY := getY player + deltaY c in
  let newZ := getZ player + deltaZ c in
  isValidPosition player map newX newY newZ.

Definition remember (c : MovementCommand) (pos : Z * Z * Z) : MovementCommand :=
  {| deltaX := deltaX c; deltaY := deltaY c; deltaZ := deltaZ c;
     direction := direction c; previousPosition := Some pos |}.

(** The position an accepted command writes. *)
Definition target_of (c : MovementCommand) (player : Player) : option PositionComponent :=
  match position player with
  | Some _ => Some (mkPosition (getX player + deltaX c) (getY player + deltaY c)
                               (getZ player + deltaZ c))
  | None => None
  end.

(** [MovementCommand.execute]: how the call ends, the command and the
    player afterwards.  The sprite manager is the singleton the player's
    texture refresh reads. *)
Definition execute (sm : Sprites.SpriteManager) (c : MovementCommand) (player : Player)
    (map : World.Map) : Completion bool * MovementCommand * Player :=
  if negb (canExecute c player map) then (Returns false, c, player)
  else
    let c1 := remember c (getX player, getY player, getZ player) in
    let newX := getX player + deltaX c in
    let newY := getY player + deltaY c in
    let newZ := getZ player + deltaZ c in
    if negb (isValidPosition player map newX newY newZ) then (Returns false, c1, player)
    else
      let p1 := setPosition player newX newY newZ in
      match setDirection sm p1 (direction c) with
      | (TypeError, p2) => (TypeError, c1, p2)
      | (Returns _, p2) =>
          match setAnimationType sm p2 walk with
          | (TypeError, p3) => (TypeError, c1, p3)
          | (Returns _, p3) => (Returns true, c1, p3)
          end
      end.

(** [MovementCommand.undo]. *)
Definition undo (sm : Sprites.SpriteManager) (c : MovementCommand) (player : Player)
  : Completion bool * Player :=
  match previousPosition c with
  | None => (Returns false, player)
  | Some (x, y, z) =>
      let p1 := setPosition player x y z in
      match setAnimationType sm p1 idle with
      | (TypeError, p2) => (TypeError, p2)
      | (Returns _, p2) => (Returns true, p2)
      end
  end.

(** [NoMovementCommand] overrides [execute] and [canExecute]. *)
Definition NoMovementCommand_execute (sm : Sprites.SpriteManager) (c : MovementCommand)
    (player : Player) : Completion bool * MovementCommand * Player :=
  match setAnimationType sm player idle with
  | (TypeError, p) => (TypeError, c, p)
  | (Returns _, p) => (Returns true, c, p)
  end.

Definition NoMovementCommand_canExecute (c : MovementCommand) (player : Player) : bool := true.

(** A player standing at (1,1) on the meadow, with an animation component
    registered under the name the player looks it up by. *)
Definition hero : Player :=
  new_Player "hero-1" "Hero" "WARRIOR"
    [ new_PositionComponent 1 1 0;
      mkComponent "Animation" (AnimationBody new_AnimationComponent) ].

(** A player with a sprite component as well: position, sprite and
    animation, each registered under the name the player looks it up by. *)
Definition knight : Player :=
  new_Player "test-player" "TestPlayer" "WARRIOR"
    [ new_PositionComponent 1 1 0;
      mkComponent "Sprite" (SpriteBody "default_sprite");
      mkComponent "Animation" (AnimationBody new_AnimationComponent) ].

(** The sprite manager once [loadCharacterSprites('warrior')] has run. *)
Definition warrior_loaded : Sprites.SpriteManager :=
  snd (Sprites.loadCharacterSprites "warrior" Sprites.new_SpriteManager).

End Command.

(* ===================================================================== *)
(** ** JavaScript values, and a reference JSON codec *)
(* ===================================================================== *)

Module Js.

(** The values that travel through the save files.  An object is its own
    properties in order; its keys are pairwise distinct. *)
Inductive value :=
| VUndefined
| VNull
| VBool (b : bool)
| VNum (n : Z)
| VStr (s : string)
| VArr (items : list value)
| VObj (fields : list (string * value)).

(** Structural equality, used where a value serves as a [Map] key (the
    save ids, which are strings whenever the declared types are honoured). *)
Fixpoint value_eqb (a b : value) : bool :=
  match a, b with
  | VUndefined, VUndefined => true
  | VNull, VNull => true
  | VBool x, VBool y => Bool.eqb x y
  | VNum x, VNum y => x =? y
  | VStr x, VStr y => String.eqb x y
  | VArr xs, VArr ys =>
      (fix go (xs ys : list value) : bool :=
         match xs, ys with
         | [], [] => true
         | x :: xs', y :: ys' => value_eqb x y && go xs' ys'
         | _, _ => false
         end) xs ys
  | VObj xs, VObj ys =>
      (fix go (xs ys : list (string * value)) : bool :=
         match xs, ys with
         | [], [] => true
         | (k, x) :: xs', (k', y) :: ys' =>
             String.eqb k k' && value_eqb x y && go xs' ys'
         | _, _ => false
         end) xs ys
  | _, _ => false
  end.

(** Induction on values that reaches inside arrays and objects. *)
Section Induction.
Variable P : value -> Prop.
Hypothesis Hundefined : P VUndefined.
Hypothesis Hnull : P VNull.
Hypothesis Hbool : forall b, P (VBool b).
Hypothesis Hnum : forall n, P (VNum n).
Hypothesis Hstr : forall s, P (VStr s).
Hypothesis Harr : forall items, Forall P items -> P (VArr items).
Hypothesis Hobj : forall fields, Forall (fun kv => P (snd kv)) fields -> P (VObj fields).

Fixpoint value_ind_nested (v : value) : P v :=
  match v with
  | VUndefined => Hundefined
  | VNull => Hnull
  | VBool b => Hbool b
  | VNum n => Hnum n
  | VStr s => Hstr s
  | VArr items =>
      Harr items
        ((fix go (l : list value) : Forall P l :=
            match l with
            | [] => @List.Forall_nil _ P
            | x :: rest => @List.Forall_cons _ P x rest (value_ind_nested x) (go rest)
            end) items)
  | VObj fields =>
      Hobj fields
        ((fix go (l : list (string * value)) : Forall (fun kv => P (snd kv)) l :=
            match l with
            | [] => @List.Forall_nil _ _
            | kv :: rest =>
                @List.Forall_cons _ (fun kv => P (snd kv)) kv rest
                  (value_ind_nested (snd kv)) (go rest)
            end) fields)
  end.
End Induction.

Lemma value_eqb_eq (a b : value) : value_eqb a b = true <-> a = b.
Proof.
  revert b. induction a as [| | x | x | x | xs IH | xs IH] using value_ind_nested;
    intros [| | y | y | y | ys | ys]; simpl; try (split; [discriminate | discriminate]);
    try (split; reflexivity).
  - rewrite Bool.eqb_true_iff. split; congruence.
  - rewrite Z.eqb_eq. split; congruence.
  - rewrite String.eqb_eq. split; congruence.
  - revert ys. induction IH as [| x xs Hx _ IHxs]; intros [| y ys]; simpl;
      try (split; [discriminate | discriminate]); [split; reflexivity |].
    rewrite andb_true_iff, Hx. specialize (IHxs ys).
    split.
    + intros [-> Hgo]. apply IHxs in Hgo. congruence.
    + intros Heq. injection Heq as -> ->. split; [reflexivity |].
      apply IHxs. reflexivity.
  - revert ys. induction IH as [| [k x] xs Hx _ IHxs]; intros [| [k' y] ys]; simpl;
      try (split; [discriminate | discriminate]); [split; reflexivity |].
    simpl in Hx. rewrite !andb_true_iff, Hx, String.eqb_eq. specialize (IHxs ys).
    split.
    + intros [[-> ->] Hgo]. apply IHxs in Hgo. congruence.
    + intros Heq. injection Heq as -> -> ->. repeat split.
      apply IHxs. reflexivity.
Qed.

#[export] Instance value_eq_dec : EqDecision value.
Proof.
  intros a b. destruct (value_eqb a b) eqn:E.
  - left. apply value_eqb_eq, E.
  - right. intros Heq. apply value_eqb_eq in Heq. congruence.
Defined.

(** Truthiness, as [if (v)] and [a && b] test it. *)
Definition truthy (v : value) : bool :=
  match v with
  | VUndefined | VNull => false
  | VBool b => b
  | VNum n => negb (n =? 0)
  | VStr s => negb (String.eqb s "")
  | VArr _ | VObj _ => true
  end.

(** Reading a property [v.k], for the property names the memento code
    uses (none of them is defined by a builtin prototype of the values
    concerned): a TypeError ([None]) on [null] and [undefined], the own
    property of an object, [undefined] everywhere else. *)
Definition get_prop (v : value) (k : string) : option value :=
  match v with
  | VUndefined | VNull => None
  | VObj fields => Some (default VUndefined (JsMap.get k fields))
  | _ => Some VUndefined
  end.

(** The own enumerable properties an object spread [{...v}] copies. *)
Definition indexed {A : Type} (f : A -> value) (l : list A) : list (string * value) :=
  imap (fun i x => (pretty i, f x)) l.

Definition spread (v : value) : list (string * value) :=
  match v with
  | VObj fields => fields
  | VArr items => indexed (fun x => x) items
  | VStr s => indexed (fun c => VStr (String c "")) (list_ascii_of_string s)
  | _ => []
  end.

(** [{...v, k: x}]. *)
Definition spread_with (v : value) (k : string) (x : value) : value :=
  VObj (JsMap.set k x (spread v)).

(** *** The reference codec.

    [JSON.stringify] and [JSON.parse] are the host's.  The definitions of
    the memento module take them as parameters; the codec below implements
    them for documents whose numbers are integers and whose strings need no
    escape other than those of the quote and the backslash, and serves to
    run the memento code on concrete save files. *)

Definition dquote : ascii := Eval cbv in ascii_of_nat 34.
Definition backslash : ascii := Eval cbv in ascii_of_nat 92.

Definition quoted (s : string) : string :=
  String dquote (s ++ String dquote "").

Fixpoint escape (s : string) : string :=
  match s with
  | EmptyString => EmptyString
  | String c rest =>
      if Ascii.eqb c dquote then String backslash (String dquote (escape rest))
      else if Ascii.eqb c backslash then String backslash (String backslash (escape rest))
      else String c (escape rest)
  end.

Definition join (sep : string) (l : list string) : string :=
  match l with
  | [] => ""
  | x :: rest => fold_left (fun acc y => acc ++ sep ++ y) rest x
  end.

(** [JSON.stringify] of a value that is not [undefined] itself: inside an
    array [undefined] is written as null, and a property whose value is
    [undefined] is left out. *)
Fixpoint stringify (v : value) : string :=
  match v with
  | VUndefined => "null"
  | VNull => "null"
  | VBool true => "true"
  | VBool false => "false"
  | VNum n => pretty n
  | VStr s => quoted (escape s)
  | VArr items => "[" ++ join "," (map stringify items) ++ "]"
  | VObj fields =>
      "{" ++ join ","
        ((fix members (l : list (string * value)) : list string :=
            match l with
            | [] => []
            | (k, VUndefined) :: rest => members rest
            | (k, x) :: rest => (quoted (escape k) ++ ":" ++ stringify x) :: members rest
            end) fields) ++ "}"
  end.

Definition is_ws (c : ascii) : bool :=
  let n := nat_of_ascii c in
  Nat.eqb n 32 || Nat.eqb n 10 || Nat.eqb n 13 || Nat.eqb n 9.

Fixpoint skip_ws (s : list ascii) : list ascii :=
  match s with
  | c :: rest => if is_ws c then skip_ws rest else s
  | [] => []
  end.

Definition digit_of (c : ascii) : option Z :=
  let n := Z.of_nat (nat_of_ascii c) in
  if (48 <=? n) && (n <=? 57) then Some (n - 48) else None.

Fixpoint read_digits (acc : Z) (s : list ascii) : Z * list ascii :=
  match s with
  | c :: rest =>
      match digit_of c with
      | Some d => read_digits (acc * 10 + d) rest
      | None => (acc, s)
      end
  | [] => (acc, [])
  end.

(** An integer literal; a leading zero, a fraction or an exponent puts the
    document outside what this codec reads. *)
Definition read_number (s : list ascii) : option (Z * list ascii) :=
  let '(negative, s1) :=
    match s with
    | c :: rest => if Ascii.eqb c "-" then (true, rest) else (false, s)
    | [] => (false, s)
    end in
  match s1 with
  | c :: after_first =>
      match digit_of c with
      | None => None
      | Some d0 =>
          let leading_zero :=
            (d0 =? 0) &&
            match after_first with
            | c2 :: _ => match digit_of c2 with Some _ => true | None => false end
            | [] => false
            end in
          if leading_zero then None
          else
            let '(n, rest) := read_digits 0 s1 in
            match rest with
            | c3 :: _ =>
                if Ascii.eqb c3 "." || Ascii.eqb c3 "e" || Ascii.eqb c3 "E" then None
                else Some (if negative then - n else n, rest)
            | [] => Some (if negative then - n else n, rest)
            end
      end
  | [] => None
  end.

(** The characters of a string literal after its opening quote. *)
Fixpoint read_string (s : list ascii) (acc : list ascii) : option (string * list ascii) :=
  match s with
  | [] => None
  | c :: rest =>
      if Ascii.eqb c dquote then Some (string_of_list_ascii (rev acc), rest)
      else if Ascii.eqb c backslash then
        match rest with
        | e :: rest' =>
            if Ascii.eqb e dquote then read_string rest' (dquote :: acc)
            else if Ascii.eqb e backslash then read_string rest' (backslash :: acc)
            else None
        | [] => None
        end
      else if Nat.ltb (nat_of_ascii c) 32 then None
      else read_string rest (c :: acc)
  end.

Fixpoint read_value (fuel : nat) (s : list ascii) : option (value * list ascii) :=
  match fuel with
  | O => None
  | S fuel' =>
      match skip_ws s with
      | [] => None
      | c :: rest =>
          if Ascii.eqb c dquote then
            match read_string rest [] with
            | Some (str, rest') => Some (VStr str, rest')
            | None => None
            end
          else if Ascii.eqb c "[" then
            match skip_ws rest with
            | c' :: rest' =>
                if Ascii.eqb c' "]" then Some (VArr [], rest')
                else
                  match read_elements fuel' rest [] with
                  | Some (items, rest'') => Some (VArr items, rest'')
                  | None => None
                  end
            | [] => None
            end
          else if Ascii.eqb c "{" then
            match skip_ws rest with
            | c' :: rest' =>
                if Ascii.eqb c' "}" then Some (VObj [], rest')
                else
                  match read_members fuel' rest [] with
                  | Some (fields, rest'') => Some (VObj fields, rest'')
                  | None => None
                  end
            | [] => None
            end
          else
            match c :: rest with
            | ("n" :: "u" :: "l" :: "l" :: rest')%char => Some (VNull, rest')
            | ("t" :: "r" :: "u" :: "e" :: rest')%char => Some (VBool true, rest')
            | ("f" :: "a" :: "l" :: "s" :: "e" :: rest')%char =>
                Some (VBool false, rest')
            | _ =>
                match read_number (c :: rest) with
                | Some (n, rest') => Some (VNum n, rest')
                | None => None
                end
            end
      end
  end
with read_elements (fuel : nat) (s : list ascii) (acc : list value)
  : option (list value * list ascii) :=
  match fuel with
  | O => None
  | S fuel' =>
      match read_value fuel' s with
      | None => None
      | Some (v, rest) =>
          match skip_ws rest with
          | c :: rest' =>
              if Ascii.eqb c "," then read_elements fuel' rest' (v :: acc)
              else if Ascii.eqb c "]" then Some (rev (v :: acc), rest')
              else None
          | [] => None
          end
      end
  end
with read_members (fuel : nat) (s : list ascii) (acc : list (string * value))
  : option (list (string * value) * list ascii) :=
  match fuel with
  | O => None
  | S fuel' =>
      match skip_ws s with
      | c :: rest =>
          if Ascii.eqb c dquote then
            match read_string rest [] with
            | None => None
            | Some (k, rest1) =>
                match skip_ws rest1 with
                | c1 :: rest2 =>
                    if Ascii.eqb c1 ":" then
                      match read_value fuel' rest2 with
                      | None => None
                      | Some (v, rest3) =>
                          let acc' := JsMap.set k v acc in
                          match skip_ws rest3 with
                          | c3 :: rest4 =>
                              if Ascii.eqb c3 "," then read_members fuel' rest4 acc'
                              else if Ascii.eqb c3 "}" then Some (acc', rest4)
                              else None
                          | [] => None
                          end
                      end
                    else None
                | [] => None
                end
            end
          else None
      | [] => None
      end
  end.

(** A whole document: one value, then nothing but white space. *)
Definition parse_text (text : string) : option value :=
  let s := list_ascii_of_string text in
  match read_value (S (length s)) s with
  | Some (v, rest) => match skip_ws rest with [] => Some v | _ => None end
  | None => None
  end.

(** [JSON.parse] first turns its argument into a string (integers in
    plain decimal notation). *)
Fixpoint to_String (v : value) : string :=
  match v with
  | VUndefined => "undefined"
  | VNull => "null"
  | VBool true => "true"
  | VBool false => "false"
  | VNum n => pretty n
  | VStr s => s
  | VArr items =>
      join ","
        (map (fun x => match x with
                       | VUndefined | VNull => ""
                       | _ => to_String x
                       end) items)
  | VObj _ => "[object Object]"
  end.

Definition parse (v : value) : option value := parse_text (to_String v).

End Js.

(* ===================================================================== *)
(** ** Mementos, originator and caretaker
       (patterns/behavioral/Memento/GameMemento.ts) *)
(* ===================================================================== *)

Module Memento.
Import Js.

(** *** Effects: the host's clock and random source, state, exceptions *)

(** What the host will answer: the n-th call of [Date.now()] and the n-th
    random id suffix ([Math.random().toString(36).substr(2, 9)]), with the
    number of calls made so far. *)
Record Host := mkHost {
  ticks : nat;
  date_now : nat -> Z;
  draws : nat;
  random_suffix : nat -> string
}.

Inductive result (A : Type) :=
| Ok (a : A)
| Throw (error : string).
Arguments Ok {A} a.
Arguments Throw {A} error.

(** A computation over a state [S] that returns or throws; what it did to
    the state before throwing stays done. *)
Definition M (S A : Type) : Type := S -> result A * S.

Definition ret {S A} (a : A) : M S A := fun s => (Ok a, s).

Definition bind {S A B} (m : M S A) (f : A -> M S B) : M S B :=
  fun s => match m s with
           | (Ok a, s') => f a s'
           | (Throw e, s') => (Throw e, s')
           end.

Definition throw {S A} (e : string) : M S A := fun s => (Throw e, s).

Definition try_catch {S A} (m : M S A) (handler : string -> M S A) : M S A :=
  fun s => match m s with
           | (Ok a, s') => (Ok a, s')
           | (Throw e, s') => handler e s'
           end.

Definition get {S} : M S S := fun s => (Ok s, s).
Definition modify {S} (f : S -> S) : M S unit := fun s => (Ok tt, f s).

Notation "'let*' x ':=' m 'in' k" := (bind m (fun x => k))
  (at level 10, x name, m at level 100, k at level 200).
Notation "'run' m 'then' k" := (bind m (fun _ => k))
  (at level 10, m at level 100, k at level 200).

Fixpoint for_each {S A} (f : A -> M S unit) (l : list A) : M S unit :=
  match l with
  | [] => ret tt
  | x :: rest => run f x then for_each f rest
  end.

Definition Date_now : M Host Z :=
  fun h => (Ok (date_now h (ticks h)),
            {| ticks := S (ticks h); date_now := date_now h;
               draws := draws h; random_suffix := random_suffix h |}).

Definition Math_random_suffix : M Host string :=
  fun h => (Ok (random_suffix h (draws h)),
            {| ticks := ticks h; date_now := date_now h;
               draws := S (draws h); random_suffix := random_suffix h |}).

(** *** GameMemento *)

Record GameMemento := mkMemento {
  id : value;
  timestamp : Z;
  version : value;
  state : value;
  metadata : value
}.

(** The constructor: the timestamp is the clock's reading, and it is
    written into the copies of the state and of the metadata.  A [version]
    argument that is [undefined] takes the default. *)
Definition new_GameMemento (id state metadata version : value) : M Host GameMemento :=
  let* now := Date_now in
  ret {| id := id;
         timestamp := now;
         version := match version with VUndefined => VStr "1.0.0" | v => v end;
         state := spread_with state "timestamp" (VNum now);
         metadata := spread_with metadata "timestamp" (VNum now) |}.

Definition getState (m : GameMemento) : value := VObj (spread (state m)).
Definition getMetadata (m : GameMemento) : value := VObj (spread (metadata m)).

(** The object [toJSON] serialises. *)
Definition payload (m : GameMemento) : value :=
  VObj [ ("id", id m); ("timestamp", VNum (timestamp m)); ("version", version m);
         ("state", state m); ("metadata", metadata m) ].

Definition truthy_prop (v : value) (k : string) : bool :=
  match get_prop v k with Some x => truthy x | None => false end.

(** [isValid], as a condition. *)
Definition isValid (m : GameMemento) : bool :=
  truthy (id m) && (0 <? timestamp m) && truthy (version m)
  && truthy (state m) && truthy (metadata m)
  && truthy_prop (state m) "player" && truthy_prop (state m) "map"
  && truthy_prop (state m) "inventory".

Definition isCompatible (m : GameMemento) (currentVersion : string) : bool :=
  bool_decide (version m = VStr currentVersion).

(** *** GameOriginator *)

(** [currentState] is [null] or an object of its own (every assignment to
    it is a spread). *)
Record GameOriginator := mkOriginator {
  currentState : option (list (string * value));
  o_version : string
}.

Definition new_GameOriginator : GameOriginator :=
  {| currentState := None; o_version := "1.0.0" |}.

Definition setState (o : GameOriginator) (st : value) : GameOriginator :=
  {| currentState := Some (spread st); o_version := o_version o |}.

Definition generateSaveId : M Host string :=
  let* now := Date_now in
  let* r := Math_random_suffix in
  ret ("save_" ++ pretty now ++ "_" ++ r).

(** [createMemento].  [player.level] is not a property of [Player], so
    [player.level || 1] is 1. *)
Definition createMemento (o : GameOriginator) (saveName : string)
    (player : Entity.Player) (map : World.Map) : M Host GameMemento :=
  match currentState o with
  | None => throw "No current game state to save"
  | Some st =>
      let* saveId := generateSaveId in
      let* now := Date_now in
      match get_prop (default VUndefined (JsMap.get "statistics" st)) "totalPlayTime" with
      | None => throw "TypeError"
      | Some playTime =>
          let metadata :=
            VObj [ ("id", VStr saveId);
                   ("timestamp", VNum now);
                   ("version", VStr (o_version o));
                   ("saveName", VStr saveName);
                   ("playerName", VStr (Entity.name player));
                   ("characterClass", VStr (Entity.characterClass player));
                   ("playTime", playTime);
                   ("level", VNum 1);
                   ("location",
                     VStr (World.name map ++ " (" ++ pretty (Entity.getX player) ++ ", "
                           ++ pretty (Entity.getY player) ++ ")"));
                   ("description",
                     VStr ("Level 1 " ++ Entity.characterClass player ++ " - " ++ saveName)) ] in
          new_GameMemento (VStr saveId) (VObj st) metadata (VStr (o_version o))
      end
  end.

(** [restoreFromMemento]: the restored state, or the error; the originator
    afterwards. *)
Definition restoreFromMemento (o : GameOriginator) (m : GameMemento)
  : result value * GameOriginator :=
  if negb (isValid m) then (Throw "Invalid memento data", o)
  else if negb (isCompatible m (o_version o))
  then (Throw ("Incompatible save version: " ++ to_String (version m)), o)
  else (Ok (getState m),
        {| currentState := Some (spread (state m)); o_version := o_version o |}).

(** *** GameCaretaker *)

Record GameCaretaker := mkCaretaker {
  mementos : list (value * GameMemento);
  originator : GameOriginator;
  maxSaves : Z;
  autoSaveInterval : Z;
  lastAutoSave : Z
}.

Definition new_GameCaretaker (o : GameOriginator) : GameCaretaker :=
  {| mementos := JsMap.empty; originator := o; maxSaves := 10;
     autoSaveInterval := 300000; lastAutoSave := 0 |}.

Definition with_mementos (c : GameCaretaker) (m : list (value * GameMemento)) : GameCaretaker :=
  {| mementos := m; originator := originator c; maxSaves := maxSaves c;
     autoSaveInterval := autoSaveInterval c; lastAutoSave := lastAutoSave c |}.

Definition with_lastAutoSave (c : GameCaretaker) (t : Z) : GameCaretaker :=
  {| mementos := mementos c; originator := originator c; maxSaves := maxSaves c;
     autoSaveInterval := autoSaveInterval c; lastAutoSave := t |}.

(** The caretaker together with the host it runs on. *)
Record Runtime := mkRuntime {
  host : Host;
  caretaker : GameCaretaker
}.

Definition on_host {A} (m : M Host A) : M Runtime A :=
  fun r => let '(a, h) := m (host r) in (a, {| host := h; caretaker := caretaker r |}).

Definition update (f : GameCaretaker -> GameCaretaker) : M Runtime unit :=
  modify (fun r => {| host := host r; caretaker := f (caretaker r) |}).

(** [Array.prototype.sort] with the comparator [a.timestamp - b.timestamp]:
    ascending, entries of equal timestamp keeping their order. *)
Fixpoint insert_by_timestamp (e : value * GameMemento) (l : list (value * GameMemento))
  : list (value * GameMemento) :=
  match l with
  | [] => [e]
  | e' :: rest =>
      if timestamp (snd e) <=? timestamp (snd e') then e :: e' :: rest
      else e' :: insert_by_timestamp e rest
  end.

Definition sort_by_timestamp (l : list (value * GameMemento)) : list (value * GameMemento) :=
  fold_right insert_by_timestamp [] l.

(** [cleanupOldSaves]. *)
Definition cleanupOldSaves (c : GameCaretaker) : GameCaretaker :=
  if JsMap.size (mementos c) <=? maxSaves c then c
  else
    let saves := sort_by_timestamp (mementos c) in
    let toRemove := take (Z.to_nat (Z.of_nat (length saves) - maxSaves c)) saves in
    with_mementos c
      (fold_left (fun m e => JsMap.delete (fst e) m) toRemove (mementos c)).

(** [saveGame]. *)
Definition saveGame (saveName : string) (player : Entity.Player) (map : World.Map)
  : M Runtime GameMemento :=
  let* r := get in
  let* memento := on_host (createMemento (originator (caretaker r)) saveName player map) in
  run update (fun c => with_mementos c (JsMap.set (id memento) memento (mementos c))) then
  run update cleanupOldSaves then
  ret memento.

(** [autoSave]. *)
Definition autoSave (player : Entity.Player) (map : World.Map)
  : M Runtime (option GameMemento) :=
  let* now := on_host Date_now in
  let* r := get in
  if now - lastAutoSave (caretaker r) <? autoSaveInterval (caretaker r) then ret None
  else
    run update (fun c => with_lastAutoSave c now) then
    let* memento := saveGame "Auto Save" player map in
    ret (Some memento).

(** [loadGame]. *)
Definition loadGame (saveId : value) : M Runtime value :=
  fun r =>
    match JsMap.get saveId (mementos (caretaker r)) with
    | None => (Throw ("Save not found: " ++ to_String saveId), r)
    | Some memento =>
        let '(res, o) := restoreFromMemento (originator (caretaker r)) memento in
        (res, {| host := host r;
                 caretaker :=
                   {| mementos := mementos (caretaker r); originator := o;
                      maxSaves := maxSaves (caretaker r);
                      autoSaveInterval := autoSaveInterval (caretaker r);
                      lastAutoSave := lastAutoSave (caretaker r) |} |})
    end.

Definition getSaves (c : GameCaretaker) : list value :=
  map getMetadata (JsMap.values (mementos c)).

Definition getSave (c : GameCaretaker) (saveId : value) : option GameMemento :=
  JsMap.get saveId (mementos c).

Definition deleteSave (c : GameCaretaker) (saveId : value) : bool * GameCaretaker :=
  (JsMap.has saveId (mementos c), with_mementos c (JsMap.delete saveId (mementos c))).

Definition clearSaves (c : GameCaretaker) : GameCaretaker := with_mementos c JsMap.empty.

Definition getSaveCount (c : GameCaretaker) : Z := JsMap.size (mementos c).

Definition hasSave (c : GameCaretaker) (saveId : value) : bool :=
  JsMap.has saveId (mementos c).

(** [getLatestSave]: a later entry replaces the latest so far only when
    its timestamp is strictly greater. *)
Definition getLatestSave (c : GameCaretaker) : option GameMemento :=
  match JsMap.values (mementos c) with
  | [] => None
  | first :: rest =>
      Some (fold_left (fun latest current =>
                         if timestamp latest <? timestamp current then current else latest)
                      rest first)
  end.

Definition setMaxSaves (c : GameCaretaker) (max : Z) : GameCaretaker :=
  cleanupOldSaves
    {| mementos := mementos c; originator := originator c; maxSaves := Z.max 1 max;
       autoSaveInterval := autoSaveInterval c; lastAutoSave := lastAutoSave c |}.

Definition setAutoSaveInterval (c : GameCaretaker) (interval : Z) : GameCaretaker :=
  {| mementos := mementos c; originator := originator c; maxSaves := maxSaves c;
     autoSaveInterval := Z.max 60000 interval; lastAutoSave := lastAutoSave c |}.

(** *** The parts that go through JSON *)

Section Json.

(** The host's [JSON.parse] (its argument is any value, which it first
    turns into a string; [None] stands for the SyntaxError) and
    [JSON.stringify]. *)
Variable JSON_parse : value -> option value.
Variable JSON_stringify : value -> string.

Definition toJSON (m : GameMemento) : string := JSON_stringify (payload m).

(** [GameMemento.fromJSON].  The four arguments of the constructor are
    read off the parsed document; its [timestamp] property is not. *)
Definition fromJSON (json : value) : M Host GameMemento :=
  match JSON_parse json with
  | None => throw "SyntaxError"
  | Some data =>
      match get_prop data "id", get_prop data "state",
            get_prop data "metadata", get_prop data "version" with
      | Some i, Some st, Some md, Some v => new_GameMemento i st md v
      | _, _, _, _ => throw "TypeError"
      end
  end.

Definition exportAllSaves (c : GameCaretaker) : string :=
  JSON_stringify (VArr (map (fun m => VStr (toJSON m)) (JsMap.values (mementos c)))).

(** The body of the [forEach] in [importSaves]: one entry, with its own
    [try]/[catch]. *)
Definition import_entry (saveJson : value) : M Runtime unit :=
  try_catch
    (let* memento := on_host (fromJSON saveJson) in
     if isValid memento
     then update (fun c => with_mementos c (JsMap.set (id memento) memento (mementos c)))
     else ret tt)
    (fun _ => ret tt).

(** [importSaves].  A document that parses to something other than an
    array makes [saves.forEach] a TypeError, caught like the SyntaxError. *)
Definition importSaves (json : string) : M Runtime unit :=
  try_catch
    (match JSON_parse (VStr json) with
     | None => throw "SyntaxError"
     | Some (VArr saves) =>
         run for_each import_entry saves then
         update cleanupOldSaves
     | Some _ => throw "TypeError"
     end)
    (fun _ => update (fun c => with_mementos c JsMap.empty)).

End Json.

(** *** Vocabulary for the properties *)

(** The originator holds a [GameState]: a current state whose
    [statistics] can be read, which is all [createMemento] needs of it. *)
Definition holds_game_state (o : GameOriginator) : Prop :=
  exists st playTime,
    currentState o = Some st
    /\ get_prop (default VUndefined (JsMap.get "statistics" st)) "totalPlayTime"
       = Some playTime.

(** What [saveGame] does to the caretaker once the memento exists: file it
    under its id, then prune. *)
Definition filed (c : GameCaretaker) (memento : GameMemento) : GameCaretaker :=
  cleanupOldSaves (with_mementos c (JsMap.set (id memento) memento (mementos c))).

(** A run of [saveGame] calls, one per request, collecting the mementos. *)
Fixpoint save_all (requests : list (string * Entity.Player * World.Map))
  : M Runtime (list GameMemento) :=
  match requests with
  | [] => ret []
  | (saveName, player, map) :: rest =>
      let* memento := saveGame saveName player map in
      let* others := save_all rest in
      ret (memento :: others)
  end.

(** The entries of a save set holding the given mementos, in order. *)
Definition entries (l : list GameMemento) : list (value * GameMemento) :=
  map (fun m => (id m, m)) l.

(** The [n] mementos at the end of a list (all of them when there are
    fewer). *)
Definition newest (n : nat) (l : list GameMemento) : list GameMemento :=
  drop (length l - n) l.

(** Timestamps strictly increasing along the list. *)
Definition increasing_timestamps (l : list GameMemento) : Prop :=
  StronglySorted (fun a b => timestamp a < timestamp b) l.

(** The host after [n] more clock readings and [k] more random draws. *)
Definition later (h : Host) (n k : nat) : Host :=
  {| ticks := (n + ticks h)%nat; date_now := date_now h;
     draws := (k + draws h)%nat; random_suffix := random_suffix h |}.

(** What a run of saves takes from the host.  Each [saveGame] reads the
    clock three times (for the id, for the metadata, in the memento's
    constructor) and draws one random suffix: the id and the timestamp of
    the i-th save from now. *)
Definition nth_id (h : Host) (i : nat) : string :=
  "save_" ++ pretty (date_now h (3 * i + ticks h)%nat) ++ "_"
  ++ random_suffix h (i + draws h)%nat.

Definition nth_timestamp (h : Host) (i : nat) : Z :=
  date_now h (3 * i + 2 + ticks h)%nat.

(** *** Sample data *)

Definition sample_state : value :=
  VObj [ ("player", VObj [("name", VStr "Hero"); ("level", VNum 3)]);
         ("map", VObj [("name", VStr "meadow")]);
         ("inventory", VObj [("gold", VNum 120)]);
         ("statistics", VObj [("totalPlayTime", VNum 4200)]);
         ("timestamp", VNum 0) ].

Definition sample_originator : GameOriginator := setState new_GameOriginator sample_state.

(** A host whose clock advances by [step] milliseconds per reading from
    [start], and whose n-th random suffix is the numeral n. *)
Definition ticking (start step : Z) : Host :=
  {| ticks := 0; date_now := fun n => start + step * Z.of_nat n;
     draws := 0; random_suffix := fun n => pretty n |}.

(** A host whose first five clock readings fall within one session
    (400000, 400001, ...) and whose later ones come 400 seconds after. *)
Definition two_sessions : Host :=
  {| ticks := 0;
     date_now := fun n => if (n <? 5)%nat then 400000 + Z.of_nat n else 800000 + Z.of_nat n;
     draws := 0; random_suffix := fun n => pretty n |}.

(** A caretaker limited to two saves, and three save requests. *)
Definition small_caretaker : GameCaretaker :=
  setMaxSaves (new_GameCaretaker sample_originator) 2.

Definition three_requests : list (string * Entity.Player * World.Map) :=
  [ ("A", Command.hero, World.meadow); ("B", Command.hero, World.meadow);
    ("C", Command.hero, World.meadow) ].

(** A memento made at clock reading 1002. *)
Definition sample_memento : GameMemento :=
  match createMemento sample_originator "S1" Command.hero World.meadow (ticking 1000 1) with
  | (Ok m, _) => m
  | (Throw _, _) => mkMemento VUndefined 0 VUndefined VUndefined VUndefined
  end.

(** A document to import: an entry that is not JSON, the sample memento,
    and an object that is no memento. *)
Definition mixed_import : string :=
  stringify (VArr [ VStr "oops"; VStr (toJSON stringify sample_memento); VStr "{}" ]).

(** Whether one entry is at most as old as another. *)
Definition older_or_equal (a b : value * GameMemento) : Prop :=
  timestamp (snd a) <= timestamp (snd b).

End Memento.

(* ===================================================================== *)
(** ** Durable and enchanted items: wear, repair, levels (the decorators) *)
(* ===================================================================== *)

Module Durable.
Import Item Decorator.

(** The methods of [DurableItemDecorator] beyond the interface.  No other
    decorator has them ([None]). *)
Definition reduceDurability (d : IItemDecorator) (amount : Z) : option IItemDecorator :=
  match d with
  | DurableItemDecorator item currentDurability maxDurability =>
      Some (DurableItemDecorator item (Z.max 0 (currentDurability - amount)) maxDurability)
  | _ => None
  end.

Definition repair (d : IItemDecorator) (amount : Z) : option IItemDecorator :=
  match d with
  | DurableItemDecorator item currentDurability maxDurability =>
      Some (DurableItemDecorator item
              (Z.min maxDurability (currentDurability + amount)) maxDurability)
  | _ => None
  end.

Definition fullRepair (d : IItemDecorator) : option IItemDecorator :=
  match d with
  | DurableItemDecorator item _ maxDurability =>
      Some (DurableItemDecorator item maxDurability maxDurability)
  | _ => None
  end.

(** The interface's remaining queries: the base class answers 100, false,
    false and 0; the bare item has none of them. *)
Definition getMaxDurability (d : IItemDecorator) : option Z :=
  match d with
  | BareItem _ => None
  | DurableItemDecorator _ _ maxDurability => Some maxDurability
  | _ => Some 100
  end.

Definition isDamaged (d : IItemDecorator) : option bool :=
  match d with
  | BareItem _ => None
  | DurableItemDecorator _ currentDurability maxDurability =>
      Some (currentDurability <? maxDurability)
  | _ => Some false
  end.

Definition isBroken (d : IItemDecorator) : option bool :=
  match d with
  | BareItem _ => None
  | DurableItemDecorator _ currentDurability _ => Some (currentDurability <=? 0)
  | _ => Some false
  end.

Definition getEnchantmentLevel (d : IItemDecorator) : option Z :=
  match d with
  | BareItem _ => None
  | EnchantedItemDecorator _ _ enchantmentLevel _ => Some enchantmentLevel
  | _ => Some 0
  end.

(** Wear and repair, as one type, and a run of them. *)
Inductive Wear :=
| Reduce (amount : Z)
| Repair (amount : Z)
| FullRepair.

Definition amount_of (w : Wear) : Z :=
  match w with Reduce amount | Repair amount => amount | FullRepair => 0 end.

Definition wear (d : IItemDecorator) (w : Wear) : option IItemDecorator :=
  match w with
  | Reduce amount => reduceDurability d amount
  | Repair amount => repair d amount
  | FullRepair => fullRepair d
  end.

Fixpoint wear_all (ws : list Wear) (d : IItemDecorator) : option IItemDecorator :=
  match ws with
  | [] => Some d
  | w :: rest =>
      match wear d w with
      | Some d' => wear_all rest d'
      | None => None
      end
  end.

End Durable.

(* ===================================================================== *)
(** ** The animation component: frames and playback *)
(* ===================================================================== *)

Module Animation.
Import Entity.

Definition with_state (a : AnimationComponent) (s : AnimationState) : AnimationComponent :=
  {| _currentState := s; _lastFrameTime := _lastFrameTime a;
     _configurations := _configurations a |}.

(** [{...state, currentFrame: f}] and [{...state, isPlaying: b}]. *)
Definition with_currentFrame (s : AnimationState) (f : Z) : AnimationState :=
  {| type := type s; direction := direction s; currentFrame := f;
     totalFrames := totalFrames s; frameRate := frameRate s;
     isLooping := isLooping s; isPlaying := isPlaying s |}.

Definition with_isPlaying (s : AnimationState) (b : bool) : AnimationState :=
  {| type := type s; direction := direction s; currentFrame := currentFrame s;
     totalFrames := totalFrames s; frameRate := frameRate s;
     isLooping := isLooping s; isPlaying := b |}.

(** [currentTime - lastFrameTime >= 1000 / frameRate], the quotient being
    a real number: for a positive rate that is [elapsed * rate >= 1000];
    for the rate 0 the quotient is infinite and nothing reaches it; for a
    negative rate the comparison turns round. *)
Definition frame_due (elapsed frameRate : Z) : bool :=
  if 0 <? frameRate then 1000 <=? elapsed * frameRate
  else if frameRate =? 0 then false
  else elapsed * frameRate <=? 1000.

(** [update]. *)
Definition update (a : AnimationComponent) (currentTime : Z) : AnimationComponent :=
  if negb (isPlaying (_currentState a)) then a
  else if frame_due (currentTime - _lastFrameTime a) (frameRate (_currentState a)) then
    let s1 := with_currentFrame (_currentState a) (currentFrame (_currentState a) + 1) in
    let s2 :=
      if totalFrames s1 <=? currentFrame s1 then
        if isLooping s1 then with_currentFrame s1 0
        else with_currentFrame (with_isPlaying s1 false) (totalFrames s1 - 1)
      else s1 in
    {| _currentState := s2; _lastFrameTime := currentTime;
       _configurations := _configurations a |}
  else a.

Definition play (a : AnimationComponent) : AnimationComponent :=
  with_state a (with_isPlaying (_currentState a) true).

Definition pause (a : AnimationComponent) : AnimationComponent :=
  with_state a (with_isPlaying (_currentState a) false).

Definition stop (a : AnimationComponent) : AnimationComponent :=
  with_state a (with_isPlaying (with_currentFrame (_currentState a) 0) false).

Definition reset (a : AnimationComponent) : AnimationComponent :=
  with_state a (with_isPlaying (with_currentFrame (_currentState a) 0) true).

Definition isComplete (a : AnimationComponent) : bool :=
  negb (isLooping (_currentState a))
  && (totalFrames (_currentState a) - 1 <=? currentFrame (_currentState a)).

Definition getTextureKey (a : AnimationComponent) : string :=
  type_name (type (_currentState a)) ++ "_" ++ direction_name (direction (_currentState a))
  ++ "_" ++ pretty (currentFrame (_currentState a)).

(** What can be done to the component, as one type, and a run of it. *)
Inductive Action :=
| Update (currentTime : Z)
| Play
| Pause
| Stop
| Reset
| SetAnimation (t : AnimationType) (d : Direction)
| AddAnimation (config : AnimationConfig).

Definition act (a : AnimationComponent) (x : Action) : AnimationComponent :=
  match x with
  | Update currentTime => update a currentTime
  | Play => play a
  | Pause => pause a
  | Stop => stop a
  | Reset => reset a
  | SetAnimation t d => setAnimation a t d
  | AddAnimation config => addAnimation a config
  end.

Definition act_all (xs : list Action) (a : AnimationComponent) : AnimationComponent :=
  fold_left act xs a.

(** The frame index names one of the animation's frames. *)
Definition frame_in_range (a : AnimationComponent) : Prop :=
  0 <= currentFrame (_currentState a) < totalFrames (_currentState a).

(** Every configuration filed has at least one frame. *)
Definition configurations_have_frames (a : AnimationComponent) : Prop :=
  map_Forall (fun _ config => 1 <= cfg_totalFrames config) (_configurations a).

Definition adds_frames (x : Action) : Prop :=
  match x with
  | AddAnimation config => 1 <= cfg_totalFrames config
  | _ => True
  end.

(** A run of [update] calls. *)
Definition update_all (times : list Z) (a : AnimationComponent) : AnimationComponent :=
  fold_left update times a.

(** Each of the times is due after the one before it, the first after
    [last]. *)
Fixpoint all_due (frameRate last : Z) (times : list Z) : Prop :=
  match times with
  | [] => True
  | t :: rest => frame_due (t - last) frameRate = true /\ all_due frameRate t rest
  end.

(** The animation of a player built with an animation component, switched
    to the attack to the east: four frames, eight a second, not looping. *)
Definition attacking : AnimationComponent :=
  match animation Command.hero with
  | Some a => setAnimation a attack east
  | None => new_AnimationComponent
  end.

Definition walking : AnimationComponent :=
  match animation Command.hero with
  | Some a => setAnimation a walk east
  | None => new_AnimationComponent
  end.

End Animation.

(* ===================================================================== *)
(** ** The map composite: setting tiles, walkable cells, generated maps *)
(* ===================================================================== *)

Module Composite.
Import World.

#[export] Instance TileType_eq_dec : EqDecision TileType.
Proof. solve_decision. Defined.

(** The [Map] constructor: a composite at the origin without children. *)
Definition new_Map (name : string) (width height : Z) : Map :=
  {| name := name; width := width; height := height; children := [] |}.

(** [MapComposite.add], on the map itself. *)
Definition Map_add (m : Map) (child : MapComponent) : Map :=
  {| name := name m; width := width m; height := height m;
     children := children m ++ [child] |}.

(** [new TileComponent(tile)]: the leaf takes its 1x1 bounds from the
    tile's coordinates. *)
Definition new_TileComponent (tile : TileInstance) : MapComponent :=
  TileComponent (tile_x tile) (tile_y tile) tile.

(** [setTile]: a leaf takes the tile when the cell is its own; a composite
    rejects a cell outside its bounds and otherwise hands the tile to its
    children in order until one takes it. *)
Fixpoint setTile (c : MapComponent) (x y : Z) (tile : TileInstance) : bool * MapComponent :=
  match c with
  | TileComponent bx by_ old =>
      if isWithinBounds bx by_ 1 1 x y then (true, TileComponent bx by_ tile)
      else (false, c)
  | MapComposite bx by_ bw bh children =>
      if negb (isWithinBounds bx by_ bw bh x y) then (false, c)
      else
        let '(ok, children') :=
          (fix first (l : list MapComponent) : bool * list MapComponent :=
             match l with
             | [] => (false, [])
             | child :: rest =>
                 match setTile child x y tile with
                 | (true, child') => (true, child' :: rest)
                 | (false, child') =>
                     let '(ok, rest') := first rest in (ok, child' :: rest')
                 end
             end) children in
        (ok, MapComposite bx by_ bw bh children')
  end.

Definition Map_setTile (m : Map) (x y : Z) (tile : TileInstance) : bool * Map :=
  match setTile (MapComposite 0 0 (width m) (height m) (children m)) x y tile with
  | (ok, MapComposite _ _ _ _ children') =>
      (ok, {| name := name m; width := width m; height := height m;
              children := children' |})
  | (ok, TileComponent _ _ _) => (ok, m)
  end.

(** [createTile], the same in the three tile factories: the flyweight of
    the type and the coordinates. *)
Definition createTile (t : TileType) (x y z : Z) : TileInstance := mkTile t x y z.

(** [Map.setTileAt]. *)
Definition setTileAt (m : Map) (x y : Z) (t : TileType) : bool * Map :=
  Map_setTile m x y (createTile t x y 0).

(** The cells a loop [for (x = 0; x < w; x++) for (y = 0; y < h; y++)]
    visits, in order. *)
Definition range (n : Z) : list Z := map Z.of_nat (seq 0 (Z.to_nat n)).

Definition cells (w h : Z) : list (Z * Z) :=
  flat_map (fun x => map (fun y => (x, y)) (range h)) (range w).

(** [Map.getWalkablePositions]. *)
Definition getWalkablePositions (m : Map) : list (Z * Z) :=
  flat_map (fun x =>
              flat_map (fun y => if isWalkable m x y then [(x, y)] else [])
                       (range (height m)))
           (range (width m)).

(** [MapComposite.getTilesByType], for the map (anchored at the origin). *)
Definition getTilesByType (m : Map) (t : TileType) : list TileInstance :=
  flat_map (fun x =>
              flat_map (fun y =>
                          match Map_getTile m x y with
                          | Some tile => if decide (tile_type tile = t) then [tile] else []
                          | None => []
                          end)
                       (range (height m)))
           (range (width m)).

(** The host's random source: what [Math.floor(Math.random() * k)] gives
    at the n-th call of [Math.random()], and the number of calls so far. *)
Record Random := mkRandom {
  drawn : nat;
  floor_random : nat -> Z -> Z
}.

Definition Math_floor_random (k : Z) (r : Random) : Z * Random :=
  (floor_random r (drawn r) k, mkRandom (S (drawn r)) (floor_random r)).

(** [Math.random()] answers a number from 0 up to but not including 1. *)
Definition in_unit_interval (r : Random) : Prop :=
  forall n k, 0 < k -> 0 <= floor_random r n k < k.

(** [array[i]]: [undefined] outside the array. *)
Definition at_index {A} (l : list A) (i : Z) : option A :=
  if i <? 0 then None else nth_error l (Z.to_nat i).

(** [Map.getRandomWalkablePosition]. *)
Definition getRandomWalkablePosition (m : Map) (r : Random) : option (Z * Z) * Random :=
  let walkablePositions := getWalkablePositions m in
  if Nat.eqb (length walkablePositions) 0 then (None, r)
  else
    let '(randomIndex, r') := Math_floor_random (Z.of_nat (length walkablePositions)) r in
    (at_index walkablePositions randomIndex, r').

(** The three tile factories differ in the types [createWalkableTile]
    draws from. *)
Inductive Theme := standard | forest | desert.

Definition walkableTypes (theme : Theme) : list TileType :=
  match theme with
  | standard => [GRASS; PATH; STONE; SAND]
  | forest => [FOREST; GRASS; PATH]
  | desert => [SAND; STONE; PATH]
  end.

(** [createWalkableTile]; [None] when the type drawn is [undefined], for
    which the flyweight factory throws. *)
Definition createWalkableTile (theme : Theme) (x y : Z) (r : Random)
  : option TileInstance * Random :=
  let '(i, r') := Math_floor_random (Z.of_nat (length (walkableTypes theme))) r in
  (match at_index (walkableTypes theme) i with
   | Some randomType => Some (createTile randomType x y 0)
   | None => None
   end, r').

(** The two loops of [generateRandomMap] that lay the base tiles, cell by
    cell. *)
Fixpoint base_tiles (theme : Theme) (cs : list (Z * Z)) (r : Random)
  : option (list MapComponent) * Random :=
  match cs with
  | [] => (Some [], r)
  | (x, y) :: rest =>
      match createWalkableTile theme x y r with
      | (Some tile, r1) =>
          match base_tiles theme rest r1 with
          | (Some l, r2) => (Some (new_TileComponent tile :: l), r2)
          | (None, r2) => (None, r2)
          end
      | (None, r1) => (None, r1)
      end
  end.

(** [addWaterFeatures] and [addMountainFeatures]: [count] tiles of one
    type at cells drawn at random. *)
Fixpoint features (t : TileType) (count : nat) (w h : Z) (r : Random)
  : list MapComponent * Random :=
  match count with
  | O => ([], r)
  | S n =>
      let '(x, r1) := Math_floor_random w r in
      let '(y, r2) := Math_floor_random h r1 in
      let '(l, r3) := features t n w h r2 in
      (new_TileComponent (createTile t x y 0) :: l, r3)
  end.

(** [generateRandomMap]: a layer 'base' of the map's size is added to the
    map; it receives a walkable tile for every cell, then water tiles for
    a tenth of the cells and mountain tiles for a twentieth.  [None]
    stands for the error thrown when a tile type drawn is undefined. *)
Definition generateRandomMap (theme : Theme) (m : Map) (r : Random) : option Map * Random :=
  match base_tiles theme (cells (width m) (height m)) r with
  | (Some base, r1) =>
      let '(water, r2) :=
        features WATER (Z.to_nat (width m * height m / 10)) (width m) (height m) r1 in
      let '(mountains, r3) :=
        features MOUNTAIN (Z.to_nat (width m * height m / 20)) (width m) (height m) r2 in
      (Some (Map_add m (MapComposite 0 0 (width m) (height m)
                          (base ++ water ++ mountains))), r3)
  | (None, r1) => (None, r1)
  end.

(** A random source that answers 0, 1, 2, ... in turn, wrapped into
    range. *)
Definition counting : Random :=
  {| drawn := 0; floor_random := fun n k => Z.of_nat n mod k |}.

(** Induction on a component with the children of a composite covered. *)
Section Induction.
Variable P : MapComponent -> Prop.
Hypothesis Hleaf : forall x y tile, P (TileComponent x y tile).
Hypothesis Hnode :
  forall x y w h children, Forall P children -> P (MapComposite x y w h children).

Fixpoint MapComponent_ind_nested (c : MapComponent) : P c :=
  match c with
  | TileComponent x y tile => Hleaf x y tile
  | MapComposite x y w h children =>
      Hnode x y w h children
        ((fix all (l : list MapComponent) : Forall P l :=
            match l with
            | [] => @List.Forall_nil _ P
            | child :: rest =>
                @List.Forall_cons _ P child rest (MapComponent_ind_nested child) (all rest)
            end) children)
  end.
End Induction.

(** The two searches through the children, named. *)
Definition getTile_first (l : list MapComponent) (x y : Z) : option TileInstance :=
  (fix first (l : list MapComponent) : option TileInstance :=
     match l with
     | [] => None
     | child :: rest =>
         match getTile child x y with
         | Some tile => Some tile
         | None => first rest
         end
     end) l.

Definition setTile_first (l : list MapComponent) (x y : Z) (tile : TileInstance)
  : bool * list MapComponent :=
  (fix first (l : list MapComponent) : bool * list MapComponent :=
     match l with
     | [] => (false, [])
     | child :: rest =>
         match setTile child x y tile with
         | (true, child') => (true, child' :: rest)
         | (false, child') =>
             let '(ok, rest') := first rest in (ok, child' :: rest')
         end
     end) l.

(** What [setTile] does, in terms of [getTile]. *)
Definition sets_what_it_finds (c : MapComponent) : Prop :=
  forall (x y : Z) (tile : TileInstance),
    (fst (setTile c x y tile) = true <-> is_Some (getTile c x y))
    /\ (fst (setTile c x y tile) = true -> getTile (snd (setTile c x y tile)) x y = Some tile)
    /\ (fst (setTile c x y tile) = false -> snd (setTile c x y tile) = c)
    /\ (forall x' y', x' <> x \/ y' <> y ->
          getTile (snd (setTile c x y tile)) x' y' = getTile c x' y').

(** A leaf holding a tile of one of the given types at its own cell. *)
Definition base_leaf (types : list TileType) (cell : Z * Z) (c : MapComponent) : Prop :=
  exists t, t ∈ types /\ c = TileComponent (fst cell) (snd cell) (mkTile t (fst cell) (snd cell) 0).

End Composite.

(* ===================================================================== *)
(** ** Input: the chain of key handlers, the command queue *)
(* ===================================================================== *)

Module Input.
Import Entity Command.

(** [CommandResult]. *)
Record CommandResult := mkResult {
  success : bool;
  message : string;
  result_previousPosition : option (Z * Z * Z)
}.

(** A command object: the fields of [MovementCommand] and the class that
    decides which [execute] runs -- the inherited one for the four
    directional commands, its own for [NoMovementCommand]. *)
Inductive CommandClass := Directional | NoMovement.

Record ICommand := mkICommand {
  class : CommandClass;
  fields : MovementCommand
}.

Definition ICommand_execute (sm : Sprites.SpriteManager) (c : ICommand) (player : Player)
    (map : World.Map) : Completion bool * ICommand * Player :=
  match class c with
  | Directional =>
      let '(ok, f, p) := execute sm (fields c) player map in
      (ok, mkICommand Directional f, p)
  | NoMovement =>
      let '(ok, f, p) := NoMovementCommand_execute sm (fields c) player in
      (ok, mkICommand NoMovement f, p)
  end.

(** [MovementCommand.getResult]: it executes the command; when that
    throws there is no result. *)
Definition getResult (sm : Sprites.SpriteManager) (c : ICommand) (player : Player)
    (map : World.Map) : Completion CommandResult * ICommand * Player :=
  match ICommand_execute sm c player map with
  | (TypeError, c', p) => (TypeError, c', p)
  | (Returns ok, c', p) =>
      (Returns
         {| success := ok;
            message := if ok then "Moved " ++ direction_name (direction (fields c'))
                       else "Cannot move " ++ direction_name (direction (fields c'));
            result_previousPosition := previousPosition (fields c') |},
       c', p)
  end.

(** The three key tables, in the order their entries are set.  (They hold
    no key that a character other than its own capital lowercases to.) *)
Definition movementKeys : list (string * ICommand) :=
  [ ("w", mkICommand Directional MoveNorthCommand);
    ("a", mkICommand Directional MoveWestCommand);
    ("s", mkICommand Directional MoveSouthCommand);
    ("d", mkICommand Directional MoveEastCommand);
    ("ArrowUp", mkICommand Directional MoveNorthCommand);
    ("ArrowLeft", mkICommand Directional MoveWestCommand);
    ("ArrowDown", mkICommand Directional MoveSouthCommand);
    ("ArrowRight", mkICommand Directional MoveEastCommand) ].

Definition actionKeys : list (string * ICommand) :=
  [ (" ", mkICommand NoMovement NoMovementCommand);
    ("Enter", mkICommand NoMovement NoMovementCommand) ].

Definition systemKeys : list (string * ICommand) :=
  [ ("Escape", mkICommand NoMovement NoMovementCommand);
    ("Tab", mkICommand NoMovement NoMovementCommand) ].

(** The handlers of the chain. *)
Inductive HandlerClass := MovementInputHandler | ActionInputHandler | SystemInputHandler.

Inductive InputHandler :=
| mkHandler (handlerClass : HandlerClass) (nextHandler : option InputHandler).

(** [processInput] of the three classes. *)
Definition processInput (h : HandlerClass) (key : string) : option ICommand :=
  match h with
  | MovementInputHandler =>
      let keyLower := toLowerCase key in
      if (JsMap.has keyLower movementKeys || JsMap.has key movementKeys)%bool then
        match JsMap.get keyLower movementKeys with
        | Some commandFactory => Some commandFactory
        | None => JsMap.get key movementKeys
        end
      else None
  | ActionInputHandler =>
      if JsMap.has key actionKeys then JsMap.get key actionKeys else None
  | SystemInputHandler =>
      if JsMap.has key systemKeys then JsMap.get key systemKeys else None
  end.

(** [InputHandler.handle]: the handler's own answer, or the next
    handler's. *)
Fixpoint handle (h : InputHandler) (key : string) : option ICommand :=
  match h with
  | mkHandler handlerClass nextHandler =>
      match processInput handlerClass key with
      | Some command => Some command
      | None =>
          match nextHandler with
          | Some next => handle next key
          | None => None
          end
      end
  end.

(** [InputManager]. *)
Record InputManager := mkManager {
  handlerChain : InputHandler;
  commandQueue : list ICommand;
  isProcessing : bool
}.

(** The constructor chains movement, action and system handler. *)
Definition new_InputManager : InputManager :=
  {| handlerChain :=
       mkHandler MovementInputHandler
         (Some (mkHandler ActionInputHandler
                  (Some (mkHandler SystemInputHandler None))));
     commandQueue := [];
     isProcessing := false |}.

Definition InputManager_processInput (m : InputManager) (key : string)
  : option ICommand * InputManager :=
  match handle (handlerChain m) key with
  | Some command =>
      (Some command,
       {| handlerChain := handlerChain m; commandQueue := commandQueue m ++ [command];
          isProcessing := isProcessing m |})
  | None => (None, m)
  end.

(** The loop of [executeCommands]: the queue is emptied from the front,
    each command's result appended.  A command that throws ends the loop:
    it has left the queue, the commands behind it have not. *)
Fixpoint drain (sm : Sprites.SpriteManager) (queue : list ICommand) (player : Player)
    (map : World.Map) : Completion (list CommandResult) * list ICommand * Player :=
  match queue with
  | [] => (Returns [], [], player)
  | command :: rest =>
      match getResult sm command player map with
      | (TypeError, _, p) => (TypeError, rest, p)
      | (Returns result, _, p) =>
          match drain sm rest p map with
          | (TypeError, queue', p') => (TypeError, queue', p')
          | (Returns results, queue', p') => (Returns (result :: results), queue', p')
          end
      end
  end.

(** [executeCommands].  Nothing catches what a command throws: the
    manager is then left with [isProcessing] set. *)
Definition executeCommands (sm : Sprites.SpriteManager) (m : InputManager)
    (player : Player) (map : World.Map)
  : Completion (list CommandResult) * InputManager * Player :=
  if isProcessing m then (Returns [], m, player)
  else
    match drain sm (commandQueue m) player map with
    | (TypeError, queue, p) =>
        (TypeError,
         {| handlerChain := handlerChain m; commandQueue := queue; isProcessing := true |},
         p)
    | (Returns results, queue, p) =>
        (Returns results,
         {| handlerChain := handlerChain m; commandQueue := queue; isProcessing := false |},
         p)
    end.

(** The keys pressed one after the other, then the commands executed. *)
Definition press_all (keys : list string) (m : InputManager) : InputManager :=
  fold_left (fun m key => snd (InputManager_processInput m key)) keys m.

(** What the keys are bound to, as a table. *)
Definition key_binding (key : string) : option ICommand :=
  if bool_decide (key ∈ ["w"; "W"; "ArrowUp"])
  then Some (mkICommand Directional MoveNorthCommand)
  else if bool_decide (key ∈ ["a"; "A"; "ArrowLeft"])
  then Some (mkICommand Directional MoveWestCommand)
  else if bool_decide (key ∈ ["s"; "S"; "ArrowDown"])
  then Some (mkICommand Directional MoveSouthCommand)
  else if bool_decide (key ∈ ["d"; "D"; "ArrowRight"])
  then Some (mkICommand Directional MoveEastCommand)
  else if bool_decide (key ∈ [" "; "Enter"; "Escape"; "Tab"])
  then Some (mkICommand NoMovement NoMovementCommand)
  else None.

(** The player stands on a walkable cell of the map. *)
Definition stands_on_walkable (player : Player) (map : World.Map) : Prop :=
  0 <= getX player < World.width map
  /\ 0 <= getY player < World.height map
  /\ World.isWalkable map (getX player) (getY player) = true.

(** Two commands that step in opposite directions. *)
Definition opposite (c c' : MovementCommand) : Prop :=
  deltaX c' = - deltaX c /\ deltaY c' = - deltaY c /\ deltaZ c' = - deltaZ c.

(** What a player keeps through a command: a walkable cell under its
    feet, and every component but position and animation. *)
Definition kept (map : World.Map) (player player' : Player) : Prop :=
  (stands_on_walkable player map -> stands_on_walkable player' map)
  /\ forall other, other <> "Position" -> other <> "Animation" ->
       components player' !! other = components player !! other.

End Input.

(* ===================================================================== *)
(** ** The inventory: queries on the legacy items *)
(* ===================================================================== *)

Module InventoryQueries.
Import Inventory.

(** The queries on the legacy map. *)
Definition hasItem (inv : InventoryComponent) (itemId : string) (q : Z) : bool :=
  match _items inv !! itemId with
  | Some item => q <=? quantity item
  | None => false
  end.

Definition getItem (inv : InventoryComponent) (itemId : string) : option InventoryItem :=
  _items inv !! itemId.

Definition getItemCount (inv : InventoryComponent) : Z := Z.of_nat (size (_items inv)).

(** [getTotalItemCount]: the quantities of the legacy items, added up. *)
Definition getTotalItemCount (inv : InventoryComponent) : Z :=
  map_fold (fun _ item total => total + quantity item) 0 (_items inv).

(** An instance with another quantity. *)
Definition with_quantity (i : Item.ItemInstance) (q : Z) : Item.ItemInstance :=
  {| Item.item := Item.item i; Item.quantity := q; Item.uniqueId := Item.uniqueId i |}.

(** A few operations on a two-slot inventory. *)
Definition busy_day : list Operation :=
  [ OpAddItemById "potion_health" 3 "1_a"; OpAddItem legacy_potion;
    OpAddItemById "sword_iron" 1 "2_b"; OpAddItemById "potion_health" 2 "3_c";
    OpRemoveItem "potion_health" 1; OpAddItemById "herb_red" 5 "4_d" ].

End InventoryQueries.

(* ===================================================================== *)
(** ** Save sets: vocabulary for the caretaker *)
(* ===================================================================== *)

Module SaveSets.
Import Js Memento.

(** A memento as the constructor rebuilds it when the clock reads [now]:
    same id and version, the timestamp and its two copies replaced. *)
Definition restamp (now : Z) (m : GameMemento) : GameMemento :=
  {| id := id m; timestamp := now; version := version m;
     state := spread_with (state m) "timestamp" (VNum now);
     metadata := spread_with (metadata m) "timestamp" (VNum now) |}.

(** A run of mementos rebuilt one after the other, each at the next
    reading of the host's clock. *)
Fixpoint restamp_all (h : Host) (l : list GameMemento) : list GameMemento :=
  match l with
  | [] => []
  | m :: rest =>
      restamp (date_now h (ticks h)) m :: restamp_all (later h 1 0) rest
  end.

(** The two saves of [three_requests] that the small caretaker keeps. *)
Definition two_saves : GameCaretaker :=
  match save_all three_requests (mkRuntime (ticking 1000 1) small_caretaker) with
  | (_, r) => caretaker r
  end.

(** The later of two mementos, the first on a tie: one step of
    [getLatestSave]. *)
Definition later_of (latest current : GameMemento) : GameMemento :=
  if timestamp latest <? timestamp current then current else latest.

End SaveSets.

(* ===================================================================== *)
(** * Properties *)
(* ===================================================================== *)

(** ** Item decorators *)

Module DecoratorFacts.
Import Item Decorator.

Lemma clamped_level_range (level : Z) : 1 <= Z.max 1 (Z.min 10 level) <= 10.
Proof. lia. Qed.

(** A multiplier that is a number lies between 1.0 and 1.6, and every type
    but the inherited names has one. *)
Lemma multiplier10_range (ty : string) (m : Z) :
  getEnchantmentTypeMultiplier10 ty = Some m -> 10 <= m <= 16.
Proof.
  unfold getEnchantmentTypeMultiplier10.
  repeat match goal with |- context [if ?b then _ else _] => destruct b end;
    intros [= <-]; lia.
Qed.

Lemma multiplier10_number (ty : string) :
  inherited ty = false -> exists m, getEnchantmentTypeMultiplier10 ty = Some m.
Proof.
  intros Hty. unfold getEnchantmentTypeMultiplier10. rewrite Hty.
  repeat match goal with |- context [if ?b then _ else _] => destruct b end;
    eexists; reflexivity.
Qed.

(** The bonus of a freshly built enchantment is the one its clamped level
    and its type determine. *)
Lemma new_Enchanted_fields (item : Item) (ty : string) (level : Z) :
  new_EnchantedItemDecorator item ty level
  = EnchantedItemDecorator item ty (Z.max 1 (Z.min 10 level))
      (calculateEnchantmentBonus ty (Z.max 1 (Z.min 10 level))).
Proof. reflexivity. Qed.

(** The value the specification states is refuted by a fire enchantment of
    level 3 on the iron sword: the code answers 50 + 9 * 50 = 500, the
    stated formula 50 + 9 = 59. *)
Lemma enchanted_value_differs_from_claimed :
  getValue (new_EnchantedItemDecorator sword_iron "fire" 3) = Some (Int 500)
  /\ claimed_enchanted_value sword_iron "fire" 3 = 59
  /\ ~ (forall item ty level,
          getValue (new_EnchantedItemDecorator item ty level)
          = Some (Int (claimed_enchanted_value item ty level))).
Proof.
  split; [reflexivity | split; [reflexivity |]].
  intros H. specialize (H sword_iron "fire" 3). vm_compute in H. discriminate H.
Qed.

(** C9 (amended).  For an enchantment type that is not the name of a
    member every object inherits, [EnchantedItemDecorator.getValue()] is
    the base value plus fifty gold for every bonus point, the bonus being
    floor(level * 2 * typeMultiplier) with the requested level clamped to
    1..10 and the multiplier that of the type's key, or 1.0; so the amount
    added is fifty times the amount the specification states, and never
    less than 100. *)
Theorem enchanted_value_adds_fifty_per_bonus_point :
  forall (item : Item) (ty : string) (requested : Z),
    inherited ty = false ->
    let level := Z.max 1 (Z.min 10 requested) in
    exists typeMultiplier10 bonus,
      getEnchantmentTypeMultiplier10 ty = Some typeMultiplier10
      /\ bonus = (level * 2 * typeMultiplier10) / 10
      /\ 1 <= level <= 10
      /\ getValue (new_EnchantedItemDecorator item ty requested)
         = Some (Int (value item + 50 * bonus))
      /\ value item + 50 * bonus
         = value item + 50 * (claimed_enchanted_value item ty requested - value item)
      /\ 2 <= bonus <= 32.
Proof.
  intros item ty requested Hty level.
  destruct (multiplier10_number ty Hty) as [m Hm].
  pose proof (clamped_level_range requested) as Hl.
  pose proof (multiplier10_range ty m Hm) as Hr.
  fold level in Hl.
  exists m, ((level * 2 * m) / 10).
  assert (Hb : 2 <= (level * 2 * m) / 10 <= 32).
  { split.
    - apply Z.div_le_lower_bound; nia.
    - apply Z.div_le_upper_bound; nia. }
  split; [exact Hm |]. split; [reflexivity |]. split; [exact Hl |].
  split; [| split; [| exact Hb]].
  - simpl. unfold calculateEnchantmentBonus. rewrite Hm. fold level.
    do 2 f_equal. lia.
  - unfold claimed_enchanted_value. fold level. rewrite Hm. simpl.
    replace (level * m * 2) with (level * 2 * m) by lia.
    lia.
Qed.

(** An enchantment of a kind the tables do not list, asked for at level
    50: the level is 10, the bonus 20, the value 50 + 1000. *)
Lemma enchanted_value_adds_fifty_per_bonus_point_witness :
  exists typeMultiplier10 bonus,
    getEnchantmentTypeMultiplier10 "wind" = Some typeMultiplier10
    /\ bonus = (Z.max 1 (Z.min 10 50) * 2 * typeMultiplier10) / 10
    /\ 1 <= Z.max 1 (Z.min 10 50) <= 10
    /\ getValue (new_EnchantedItemDecorator sword_iron "wind" 50)
       = Some (Int (value sword_iron + 50 * bonus))
    /\ value sword_iron + 50 * bonus
       = value sword_iron + 50 * (claimed_enchanted_value sword_iron "wind" 50 - value sword_iron)
    /\ 2 <= bonus <= 32.
Proof.
  apply (enchanted_value_adds_fifty_per_bonus_point sword_iron "wind" 50).
  reflexivity.
Defined.

(** Under an inherited name the lookup finds a function, the bonus is NaN
    and so is the value; under a key of the table it is the number. *)
Lemma enchanted_value_example :
  getValue (new_EnchantedItemDecorator sword_iron "constructor" 3) = Some NaN
  /\ getValue (new_EnchantedItemDecorator sword_iron "holy" 3) = Some (Int 500)
  /\ getValue (new_EnchantedItemDecorator sword_iron "wind" 50) = Some (Int 1050).
Proof. repeat split; reflexivity. Qed.

(** The durable value is taken of the rounded ratio: the iron sword
    (value 50) at durability 29 of 50 is worth 28, not 29; at full
    durability it is worth 50; made with maximum 0 its ratio is 0/0, its
    value NaN and its suffix that of a broken item. *)
Lemma durable_value_example :
  getValue (DurableItemDecorator sword_iron 29 50) = Some (Int 28)
  /\ getValue (new_DurableItemDecorator sword_iron 50) = Some (Int 50)
  /\ getValue (new_DurableItemDecorator sword_iron 0) = Some NaN
  /\ getDurabilitySuffix 40 50 = "(Excellent)"
  /\ getDurabilitySuffix 29 50 = "(Fair)"
  /\ getDurabilitySuffix 0 0 = "(Broken)".
Proof. vm_compute. repeat split; reflexivity. Qed.

(** Whatever else is requested, a requested enchantment is what
    [createEnhancedItem] returns, built around the bare item. *)
Lemma createEnhancedItem_enchantment_wins (item : Item) (ty : string) (level : Z)
    (d : option Z) (mw : option bool) (lg : option string) :
  createEnhancedItem item (mkEnh (Some (ty, level)) d mw lg) = new_EnchantedItemDecorator item ty level.
Proof. reflexivity. Qed.

(** The result of [createEnhancedItem], case by case: the last of the
    requested enhancements in the order legendary, masterwork, durability,
    enchantment, applied to the bare item. *)
Lemma createEnhancedItem_result (item : Item) (e : Enhancements) :
  createEnhancedItem item e
  = match enchantment e with
    | Some (ty, level) => new_EnchantedItemDecorator item ty level
    | None =>
        match durability e with
        | Some d =>
            if d =? 0 then
              match masterwork e with
              | Some true => new_MasterworkItemDecorator item
              | _ =>
                  match legendary e with
                  | Some effect =>
                      if String.eqb effect "" then BareItem item
                      else new_LegendaryItemDecorator item effect
                  | None => BareItem item
                  end
              end
            else new_DurableItemDecorator item d
        | None =>
            match masterwork e with
            | Some true => new_MasterworkItemDecorator item
            | _ =>
                match legendary e with
                | Some effect =>
                    if String.eqb effect "" then BareItem item
                    else new_LegendaryItemDecorator item effect
                | None => BareItem item
                end
            end
        end
    end.
Proof.
  unfold createEnhancedItem.
  destruct (enchantment e) as [[ty level] |]; [reflexivity |].
  destruct (durability e) as [d |]; [destruct (d =? 0) |]; reflexivity.
Qed.

(** C8.  [createEnhancedItem] does not stack the decorators it is asked
    for: each one is built around the bare item and replaces the one before
    it.  On the iron sword (value 50), asked for legendary and a level-5
    fire enchantment, the result is worth 50 + 15 * 50 = 800, the legendary
    factor 5 having left no trace; asked for the three enhancements of the
    repository's own test (fire 5, durability 200, masterwork) the result is
    named "Flaming Iron Sword" and reports the default durability 100,
    where the test expects "Masterwork" in the name and durability 200. *)
Theorem createEnhancedItem_keeps_last_decorator_only :
  let both := mkEnh (Some ("fire", 5)) None None (Some "Dragon Slayer") in
  let tested := mkEnh (Some ("fire", 5)) (Some 200) (Some true) None in
  createEnhancedItem sword_iron both = new_EnchantedItemDecorator sword_iron "fire" 5
  /\ getValue (createEnhancedItem sword_iron both) = Some (Int 800)
  /\ getValue (new_LegendaryItemDecorator sword_iron "Dragon Slayer") = Some (Int 250)
  /\ (forall inherited_text,
        getDisplayName inherited_text (createEnhancedItem sword_iron tested)
        = "Flaming Iron Sword")
  /\ getDurability (createEnhancedItem sword_iron tested) = Some 100
  /\ getDurability (new_DurableItemDecorator sword_iron 200) = Some 200.
Proof. repeat split; reflexivity. Qed.

End DecoratorFacts.

(** ** Insertion-ordered maps *)

Module JsMapFacts.
Section Facts.
Context {K : Type} `{EqDecision K} {V : Type}.
Implicit Types (k : K) (v : V) (m : list (K * V)).

Lemma get_None_notin k m : JsMap.get k m = None <-> k ∉ JsMap.keys m.
Proof.
  induction m as [| [k' v'] m IH]; simpl.
  - split; [intros _; apply not_elem_of_nil | reflexivity].
  - destruct (decide (k = k')) as [-> | Hne].
    + split; [discriminate |]. intros Hn. exfalso. apply Hn. left.
    + rewrite IH. rewrite not_elem_of_cons. tauto.
Qed.

Lemma set_absent k v m : k ∉ JsMap.keys m -> JsMap.set k v m = (m ++ [(k, v)])%list.
Proof.
  induction m as [| [k' v'] m IH]; simpl; intros Hn; [reflexivity |].
  apply not_elem_of_cons in Hn as [Hne Hn].
  destruct (decide (k = k')); [contradiction |]. rewrite IH; auto.
Qed.

Lemma delete_absent k m : k ∉ JsMap.keys m -> JsMap.delete k m = m.
Proof.
  induction m as [| [k' v'] m IH]; simpl; intros Hn; [reflexivity |].
  apply not_elem_of_cons in Hn as [Hne Hn].
  destruct (decide (k = k')); [contradiction |]. rewrite IH; auto.
Qed.

Lemma delete_head k v m : k ∉ JsMap.keys m -> JsMap.delete k ((k, v) :: m) = m.
Proof.
  intros Hn. simpl. destruct (decide (k = k)); [| contradiction].
  apply delete_absent, Hn.
Qed.

Lemma keys_set_present k v m : k ∈ JsMap.keys m -> JsMap.keys (JsMap.set k v m) = JsMap.keys m.
Proof.
  induction m as [| [k' v'] m IH]; simpl; intros Hin.
  - apply elem_of_nil in Hin. contradiction.
  - destruct (decide (k = k')) as [-> | Hne]; [reflexivity |].
    simpl. f_equal. apply IH. apply elem_of_cons in Hin as [? | ?]; [contradiction | assumption].
Qed.

Lemma get_set_eq k v m : JsMap.get k (JsMap.set k v m) = Some v.
Proof.
  induction m as [| [k' v'] m IH]; simpl.
  - destruct (decide (k = k)); [reflexivity | contradiction].
  - destruct (decide (k = k')) as [-> | Hne]; simpl.
    + destruct (decide (k' = k')); [reflexivity | contradiction].
    + destruct (decide (k = k')); [contradiction | exact IH].
Qed.

Lemma get_set_ne k k' v m : k <> k' -> JsMap.get k' (JsMap.set k v m) = JsMap.get k' m.
Proof.
  intros Hne. induction m as [| [k0 v0] m IH]; simpl.
  - destruct (decide (k' = k)); [congruence | reflexivity].
  - destruct (decide (k = k0)) as [-> | Hne0]; simpl.
    + destruct (decide (k' = k0)); [congruence | reflexivity].
    + destruct (decide (k' = k0)); [reflexivity | exact IH].
Qed.

End Facts.
End JsMapFacts.

(** ** Inventory *)

Module InventoryFacts.
Import Inventory.

(** [isFull] says the slot count has reached the capacity. *)
Lemma isFull_spec (inv : InventoryComponent) :
  isFull inv = true <-> _maxCapacity inv <= currentCapacity inv.
Proof. unfold isFull. apply Z.leb_le. Qed.

(** A full inventory turns away every instance whose unique id is not
    already a key, whatever it holds of the same item. *)
Lemma addItemInstance_full_fresh_id (inv : InventoryComponent) (i : Item.ItemInstance) :
  isFull inv = true ->
  JsMap.has (Item.uniqueId i) (_newItems inv) = false ->
  fst (addItemInstance inv i) = false
  /\ _newItems (snd (addItemInstance inv i)) = _newItems inv.
Proof.
  intros Hfull Hfresh. unfold addItemInstance. rewrite Hfull, Hfresh. simpl. auto.
Qed.

(** C7.  A one-slot inventory holds one health potion (stackable, at most
    99 to a stack) and is therefore full.  A second potion instance, with a
    unique id of its own, is refused and nothing is merged, although the
    two together would fit the stack: the capacity test looks the incoming
    instance up by its unique id, under which the existing stack is never
    filed.  The legacy [addItem], whose map is keyed by item id, merges in
    the same situation. *)
Theorem addItemInstance_full_refuses_stackable :
  isFull one_slot_with_potion = true
  /\ findItemByItemId one_slot_with_potion (Item.id Item.potion_health) = Some potion_a
  /\ Item.stackable (Item.item potion_b) = true
  /\ Item.quantity potion_a + Item.quantity potion_b <= Item.maxStack (Item.item potion_b)
  /\ fst (addItemInstance one_slot_with_potion potion_b) = false
  /\ _newItems (snd (addItemInstance one_slot_with_potion potion_b))
     = [("potion_health_1_a", potion_a)]
  /\ isFull one_slot_with_legacy_potion = true
  /\ fst (addItem one_slot_with_legacy_potion legacy_potion) = true
  /\ quantity <$> (_items (snd (addItem one_slot_with_legacy_potion legacy_potion))
                   !! "potion_health") = Some 2.
Proof. vm_compute. repeat split; (reflexivity || discriminate). Qed.

(** Gold is touched by [addGold], [removeGold] and [clear] only. *)
Lemma emit_gold inv ty msg it q g :
  _gold (emitInventoryEvent inv ty msg it q g) = _gold inv.
Proof. reflexivity. Qed.

Lemma updateItemQuantity_gold inv u q : _gold (updateItemQuantity inv u q) = _gold inv.
Proof.
  unfold updateItemQuantity.
  destruct (JsMap.get u (_newItems inv)); [| reflexivity].
  destruct (q <=? 0); reflexivity.
Qed.

Lemma addItem_gold inv item : _gold (snd (addItem inv item)) = _gold inv.
Proof.
  unfold addItem.
  destruct (isFull inv && _); [reflexivity |].
  destruct (_items inv !! id item); [| reflexivity].
  destruct (_ <=? _); reflexivity.
Qed.

Lemma addItemInstance_gold inv i : _gold (snd (addItemInstance inv i)) = _gold inv.
Proof.
  unfold addItemInstance.
  destruct (isFull inv && _); [reflexivity |].
  destruct (findItemByItemId inv _); [| reflexivity].
  destruct (Item.stackable _); [| reflexivity].
  destruct (_ <=? _); [| reflexivity].
  simpl. apply updateItemQuantity_gold.
Qed.

Lemma addItemById_gold inv itemId q stamp :
  _gold (snd (addItemById inv itemId q stamp)) = _gold inv.
Proof.
  unfold addItemById.
  destruct (Item.ItemFactory_createItemInstance itemId q stamp); [| reflexivity].
  apply addItemInstance_gold.
Qed.

Lemma removeItem_gold inv itemId q : _gold (snd (removeItem inv itemId q)) = _gold inv.
Proof.
  unfold removeItem.
  destruct (_items inv !! itemId); [| reflexivity].
  destruct (_ <=? _); reflexivity.
Qed.

Lemma removeItemInstance_gold inv u q :
  _gold (snd (removeItemInstance inv u q)) = _gold inv.
Proof.
  unfold removeItemInstance.
  destruct (JsMap.get u (_newItems inv)); [| reflexivity].
  destruct (_ <=? _); [reflexivity |].
  simpl. apply updateItemQuantity_gold.
Qed.

Lemma removeItemById_gold inv itemId q :
  _gold (snd (removeItemById inv itemId q)) = _gold inv.
Proof.
  unfold removeItemById.
  destruct (findItemByItemId inv itemId); [| reflexivity].
  apply removeItemInstance_gold.
Qed.

Lemma addGold_gold inv amount : _gold (addGold inv amount) = _gold inv + Z.max 0 amount.
Proof. reflexivity. Qed.

Lemma removeGold_gold inv amount :
  _gold (snd (removeGold inv amount))
  = if amount <=? _gold inv then _gold inv - amount else _gold inv.
Proof. unfold removeGold. destruct (amount <=? _gold inv); reflexivity. Qed.

Lemma perform_keeps_gold_nonnegative inv op : 0 <= _gold inv -> 0 <= _gold (perform inv op).
Proof.
  intros Hg. destruct op; cbn [perform].
  - rewrite addItem_gold. exact Hg.
  - rewrite addItemInstance_gold. exact Hg.
  - rewrite addItemById_gold. exact Hg.
  - rewrite removeItem_gold. exact Hg.
  - rewrite removeItemInstance_gold. exact Hg.
  - rewrite removeItemById_gold. exact Hg.
  - rewrite addGold_gold. lia.
  - rewrite removeGold_gold. destruct (amount <=? _gold inv) eqn:E; [| exact Hg].
    apply Z.leb_le in E. lia.
  - reflexivity.
Qed.

Lemma perform_all_keeps_gold_nonnegative ops :
  forall inv, 0 <= _gold inv -> 0 <= _gold (perform_all ops inv).
Proof.
  unfold perform_all. induction ops as [| op ops IH]; intros inv Hg; simpl.
  - exact Hg.
  - apply IH, perform_keeps_gold_nonnegative, Hg.
Qed.

(** C10.  Gold never goes below zero: [addGold] with a negative amount
    leaves the gold as it was and still emits one [gold_changed] event;
    [removeGold] with more than there is answers false and changes nothing;
    [clear] sets it to zero; every operation keeps a non-negative amount
    non-negative; hence after any sequence of operations on a newly
    constructed component the gold is non-negative. *)
Theorem gold_is_never_negative :
  (forall inv amount, amount < 0 ->
     _gold (addGold inv amount) = _gold inv
     /\ exists e, emitted (addGold inv amount) = (emitted inv ++ [e])%list
                  /\ eventType e = gold_changed /\ ev_gold e = Some (_gold inv))
  /\ (forall inv amount, _gold inv < amount -> removeGold inv amount = (false, inv))
  /\ (forall inv, _gold (clear inv) = 0)
  /\ (forall inv op, 0 <= _gold inv -> 0 <= _gold (perform inv op))
  /\ (forall maxCapacity, _gold (new_InventoryComponent maxCapacity) = 0)
  /\ (forall maxCapacity ops,
        0 <= _gold (perform_all ops (new_InventoryComponent maxCapacity))).
Proof.
  split; [| split; [| split; [| split; [| split]]]].
  - intros inv amount Hneg. split.
    + rewrite addGold_gold. lia.
    + eexists. split; [reflexivity |]. split; [reflexivity |]. simpl.
      f_equal. lia.
  - intros inv amount Hlt. unfold removeGold.
    destruct (amount <=? _gold inv) eqn:E; [| reflexivity].
    apply Z.leb_le in E. lia.
  - reflexivity.
  - apply perform_keeps_gold_nonnegative.
  - reflexivity.
  - intros maxCapacity ops. apply perform_all_keeps_gold_nonnegative. simpl. lia.
Qed.

End InventoryFacts.

(** ** The map *)

Module WorldFacts.
Import World.

Lemma isWithinBounds_spec (bx by_ bw bh x y : Z) :
  isWithinBounds bx by_ bw bh x y = true
  <-> bx <= x < bx + bw /\ by_ <= y < by_ + bh.
Proof. unfold isWithinBounds. rewrite !andb_true_iff, !Z.leb_le, !Z.ltb_lt. lia. Qed.

(** A tile the map finds lies within the map. *)
Lemma Map_getTile_within (m : Map) (x y : Z) (tile : TileInstance) :
  Map_getTile m x y = Some tile -> 0 <= x < width m /\ 0 <= y < height m.
Proof.
  unfold Map_getTile. simpl.
  destruct (isWithinBounds 0 0 (width m) (height m) x y) eqn:E; simpl; [| discriminate].
  intros _. apply isWithinBounds_spec in E. lia.
Qed.


End WorldFacts.

(** ** The player's components *)

Module EntityFacts.
Import Entity.

Lemma position_put_Position (p : Player) (q0 q : PositionComponent) :
  position p = Some q0 ->
  position (put_body p "Position" (PositionBody q)) = Some q.
Proof.
  unfold put_body, position.
  destruct (components p !! "Position") as [[ty b] |] eqn:E; [| discriminate].
  intros _. simpl. rewrite lookup_insert_eq. reflexivity.
Qed.

Lemma animation_put_Position (p : Player) (b : Body) :
  animation (put_body p "Position" b) = animation p.
Proof.
  unfold put_body, animation.
  destruct (components p !! "Position") as [c |]; simpl; [| reflexivity].
  rewrite lookup_insert_ne by discriminate. reflexivity.
Qed.

Lemma position_put_Animation (p : Player) (b : Body) :
  position (put_body p "Animation" b) = position p.
Proof.
  unfold put_body, position.
  destruct (components p !! "Animation") as [c |]; simpl; [| reflexivity].
  rewrite lookup_insert_ne by discriminate. reflexivity.
Qed.

Lemma animation_put_Animation (p : Player) (a0 a : AnimationComponent) :
  animation p = Some a0 ->
  animation (put_body p "Animation" (AnimationBody a)) = Some a.
Proof.
  unfold put_body, animation.
  destruct (components p !! "Animation") as [[ty b] |] eqn:E; [| discriminate].
  intros _. simpl. rewrite lookup_insert_eq. reflexivity.
Qed.

Lemma position_setPosition (p : Player) (x y z : Z) :
  position (setPosition p x y z)
  = match position p with Some _ => Some (mkPosition x y z) | None => None end.
Proof.
  unfold setPosition. destruct (position p) eqn:E.
  - eapply position_put_Position, E.
  - exact E.
Qed.

Lemma animation_setPosition (p : Player) (x y z : Z) :
  animation (setPosition p x y z) = animation p.
Proof.
  unfold setPosition. destruct (position p); [| reflexivity].
  apply animation_put_Position.
Qed.

Lemma position_setDirection (sm : Sprites.SpriteManager) (p : Player) (d : Direction) :
  position (snd (setDirection sm p d)) = position p.
Proof.
  unfold setDirection. destruct (animation p); [| reflexivity].
  apply position_put_Animation.
Qed.

Lemma position_setAnimationType (sm : Sprites.SpriteManager) (p : Player)
    (t : AnimationType) :
  position (snd (setAnimationType sm p t)) = position p.
Proof.
  unfold setAnimationType. destruct (animation p); [| reflexivity].
  apply position_put_Animation.
Qed.

Lemma animation_setDirection (sm : Sprites.SpriteManager) (p : Player) (d : Direction) :
  animation (snd (setDirection sm p d))
  = (fun a => setAnimation a (type (_currentState a)) d) <$> animation p.
Proof.
  unfold setDirection. destruct (animation p) as [a |] eqn:E; simpl.
  - eapply animation_put_Animation, E.
  - exact E.
Qed.

Lemma animation_setAnimationType (sm : Sprites.SpriteManager) (p : Player)
    (t : AnimationType) :
  animation (snd (setAnimationType sm p t))
  = (fun a => setAnimation a t (direction (_currentState a))) <$> animation p.
Proof.
  unfold setAnimationType. destruct (animation p) as [a |] eqn:E; simpl.
  - eapply animation_put_Animation, E.
  - exact E.
Qed.

(** *** The texture refresh *)

(** Writing a component other than the sprite leaves the sprite and the
    class alone, so what the refresh finds nothing for stays so. *)
Lemma no_texture_put_body (sm : Sprites.SpriteManager) (p : Player) (key : string)
    (b : Body) :
  key <> "Sprite" -> no_texture_for sm p -> no_texture_for sm (put_body p key b).
Proof.
  intros Hne. unfold no_texture_for, sprite, put_body.
  destruct (components p !! key); [| auto].
  simpl. rewrite lookup_insert_ne by exact Hne. auto.
Qed.

Lemma updateSpriteTexture_quiet (sm : Sprites.SpriteManager) (p : Player) :
  no_texture_for sm p -> updateSpriteTexture sm p = Returns tt.
Proof.
  intros [Hs | Hc]; unfold updateSpriteTexture.
  - rewrite Hs. destruct (animation p); reflexivity.
  - destruct (animation p); [| reflexivity]. destruct (sprite p); [| reflexivity].
    unfold Sprites.getCurrentFrameTexture, Sprites.getAnimationFrames. rewrite Hc.
    reflexivity.
Qed.

Lemma no_texture_setPosition (sm : Sprites.SpriteManager) (p : Player) (x y z : Z) :
  no_texture_for sm p -> no_texture_for sm (setPosition p x y z).
Proof.
  intros Hq. unfold setPosition. destruct (position p); [| exact Hq].
  apply no_texture_put_body; [discriminate | exact Hq].
Qed.

Lemma no_texture_setDirection (sm sm' : Sprites.SpriteManager) (p : Player)
    (d : Direction) :
  no_texture_for sm' p -> no_texture_for sm' (snd (setDirection sm p d)).
Proof.
  intros Hq. unfold setDirection. destruct (animation p); cbn [snd]; [| exact Hq].
  apply no_texture_put_body; [discriminate | exact Hq].
Qed.

Lemma no_texture_setAnimationType (sm sm' : Sprites.SpriteManager) (p : Player)
    (t : AnimationType) :
  no_texture_for sm' p -> no_texture_for sm' (snd (setAnimationType sm p t)).
Proof.
  intros Hq. unfold setAnimationType. destruct (animation p); cbn [snd]; [| exact Hq].
  apply no_texture_put_body; [discriminate | exact Hq].
Qed.

Lemma setDirection_quiet (sm : Sprites.SpriteManager) (p : Player) (d : Direction) :
  no_texture_for sm p ->
  fst (setDirection sm p d) = Returns tt /\ no_texture_for sm (snd (setDirection sm p d)).
Proof.
  intros Hq. unfold setDirection. destruct (animation p); cbn [fst snd]; [| auto].
  assert (Hq' : no_texture_for sm
                  (put_body p "Animation"
                     (AnimationBody (setAnimation a (type (_currentState a)) d))))
    by (apply no_texture_put_body; [discriminate | exact Hq]).
  split; [apply updateSpriteTexture_quiet, Hq' | exact Hq'].
Qed.

Lemma setAnimationType_quiet (sm : Sprites.SpriteManager) (p : Player)
    (t : AnimationType) :
  no_texture_for sm p ->
  fst (setAnimationType sm p t) = Returns tt
  /\ no_texture_for sm (snd (setAnimationType sm p t)).
Proof.
  intros Hq. unfold setAnimationType. destruct (animation p); cbn [fst snd]; [| auto].
  assert (Hq' : no_texture_for sm
                  (put_body p "Animation"
                     (AnimationBody (setAnimation a t (direction (_currentState a))))))
    by (apply no_texture_put_body; [discriminate | exact Hq]).
  split; [apply updateSpriteTexture_quiet, Hq' | exact Hq'].
Qed.

Lemma configurations_setAnimation (a : AnimationComponent) (t : AnimationType) (d : Direction) :
  _configurations (setAnimation a t d) = _configurations a.
Proof. unfold setAnimation. destruct (_configurations a !! config_key t d); reflexivity. Qed.

Lemma idle_configured_setAnimation (a : AnimationComponent) (t : AnimationType) (d : Direction) :
  idle_configured a -> idle_configured (setAnimation a t d).
Proof. unfold idle_configured. rewrite configurations_setAnimation. auto. Qed.


(** [addAnimation] files a configuration under the key of its own type
    and direction, so it keeps the idle keys for idle configurations. *)
Lemma config_key_injective (t t' : AnimationType) (d d' : Direction) :
  config_key t d = config_key t' d' -> t = t' /\ d = d'.
Proof. destruct t, t', d, d'; simpl; intros H; try discriminate H; auto. Qed.

Lemma idle_configured_addAnimation (a : AnimationComponent) (config : AnimationConfig) :
  idle_configured a -> idle_configured (addAnimation a config).
Proof.
  intros Hc d. unfold addAnimation. simpl.
  destruct (decide (config_key (cfg_type config) (cfg_direction config) = config_key idle d))
    as [Heq | Hne].
  - exists config. rewrite Heq, lookup_insert_eq. split; [reflexivity |].
    apply config_key_injective in Heq. tauto.
  - rewrite lookup_insert_ne by exact Hne. apply Hc.
Qed.

(** A player built with an animation component under the name ["Animation"]
    has the idle configurations. *)
Lemma new_Player_idle_configured (i n cls : string) (cs : list Component)
    (a : AnimationComponent) :
  animation (new_Player i n cls cs) = Some a -> idle_configured a.
Proof.
  unfold new_Player, initializeAnimationSystem.
  set (p := fold_left addComponent cs _).
  destruct (animation p) as [a0 |] eqn:E; [| rewrite E; discriminate].
  erewrite animation_put_Animation by exact E. intros [= <-].
  apply idle_configured_setAnimation.
  intros d. simpl. unfold addAnimation. simpl.
  destruct d; simpl; eexists; (split; [| shelve]);
    repeat (first [ rewrite lookup_insert_eq; reflexivity
                  | rewrite lookup_insert_ne by discriminate ]).
  Unshelve. all: reflexivity.
Qed.

(** *** What a setter can change *)

Lemma components_put_body (p : Player) (key other : string) (b : Body) :
  other <> key -> components (put_body p key b) !! other = components p !! other.
Proof.
  intros Hne. unfold put_body.
  destruct (components p !! key); [| reflexivity].
  simpl. apply lookup_insert_ne. congruence.
Qed.

Lemma untouched_setPosition (p : Player) (x y z : Z) (other : string) :
  other <> "Position" -> components (setPosition p x y z) !! other = components p !! other.
Proof.
  intros Hne. unfold setPosition. destruct (position p); [| reflexivity].
  apply components_put_body, Hne.
Qed.

Lemma untouched_setDirection (sm : Sprites.SpriteManager) (p : Player) (d : Direction)
    (other : string) :
  other <> "Animation" ->
  components (snd (setDirection sm p d)) !! other = components p !! other.
Proof.
  intros Hne. unfold setDirection. destruct (animation p); [| reflexivity].
  apply components_put_body, Hne.
Qed.

Lemma untouched_setAnimationType (sm : Sprites.SpriteManager) (p : Player)
    (t : AnimationType) (other : string) :
  other <> "Animation" ->
  components (snd (setAnimationType sm p t)) !! other = components p !! other.
Proof.
  intros Hne. unfold setAnimationType. destruct (animation p); [| reflexivity].
  apply components_put_body, Hne.
Qed.

(** The refresh either returns or throws, and in neither case has it
    changed the player. *)
Lemma Completion_unit_cases (r : Completion unit) : r = Returns tt \/ r = TypeError.
Proof. destruct r as [[] |]; auto. Qed.

End EntityFacts.

(** ** Movement commands *)

Module CommandFacts.
Import Entity Command EntityFacts.

(** [isValidPosition] is the conjunction of its three tests. *)
Lemma isValidPosition_spec (player : Player) (map : World.Map) (x y z : Z) :
  isValidPosition player map x y z = true
  <-> 0 <= x < World.width map /\ 0 <= y < World.height map
      /\ World.isWalkable map x y = true
      /\ Z.abs (World.getElevation map x y
                - World.getElevation map (getX player) (getY player)) <= 1.
Proof.
  unfold isValidPosition.
  destruct (x <? 0) eqn:E1; [apply Z.ltb_lt in E1; simpl; split; [discriminate | lia] |].
  destruct (World.width map <=? x) eqn:E2;
    [apply Z.leb_le in E2; simpl; split; [discriminate | lia] |].
  destruct (y <? 0) eqn:E3; [apply Z.ltb_lt in E3; simpl; split; [discriminate | lia] |].
  destruct (World.height map <=? y) eqn:E4;
    [apply Z.leb_le in E4; simpl; split; [discriminate | lia] |].
  apply Z.ltb_ge in E1, E3. apply Z.leb_gt in E2, E4. simpl.
  destruct (World.isWalkable map x y); simpl;
    [| split; [discriminate | intros (_ & _ & [=] & _)]].
  destruct (1 <? Z.abs _) eqn:E5.
  - apply Z.ltb_lt in E5. split; [discriminate | lia].
  - apply Z.ltb_ge in E5. split; [intros _; repeat split; lia | reflexivity].
Qed.

(** [execute], step by step: a refused command leaves the player alone; an
    accepted one has remembered where the player stood and written the new
    position before the two texture refreshes decide how the call ends. *)
Lemma execute_unfold (sm : Sprites.SpriteManager) (c : MovementCommand) (player : Player)
    (map : World.Map) :
  execute sm c player map
  = if canExecute c player map
    then
      let c1 := remember c (getX player, getY player, getZ player) in
      let p1 := setPosition player (getX player + deltaX c) (getY player + deltaY c)
                            (getZ player + deltaZ c) in
      let p2 := snd (setDirection sm p1 (direction c)) in
      let p3 := snd (setAnimationType sm p2 walk) in
      match fst (setDirection sm p1 (direction c)) with
      | TypeError => (TypeError, c1, p2)
      | Returns _ =>
          match fst (setAnimationType sm p2 walk) with
          | TypeError => (TypeError, c1, p3)
          | Returns _ => (Returns true, c1, p3)
          end
      end
    else (Returns false, c, player).
Proof.
  unfold execute. destruct (canExecute c player map) eqn:E; simpl; [| reflexivity].
  unfold canExecute in E. rewrite E. simpl.
  destruct (setDirection sm _ (direction c)) as [[[] |] p2]; [| reflexivity].
  cbn [fst snd].
  destruct (setAnimationType sm p2 walk) as [[[] |] p3]; reflexivity.
Qed.

(** What an accepted command does: it remembers the old position, writes
    the new one and touches no component but position and animation,
    whether the call then returns true or throws; and it returns true
    where the refresh finds no texture. *)
Lemma execute_accepted (sm : Sprites.SpriteManager) (c : MovementCommand) (player : Player)
    (map : World.Map) :
  canExecute c player map = true ->
  exists r p',
    execute sm c player map = (r, remember c (getX player, getY player, getZ player), p')
    /\ (r = Returns true \/ r = TypeError)
    /\ position p' = target_of c player
    /\ (forall other, other <> "Position" -> other <> "Animation" ->
          components p' !! other = components player !! other)
    /\ (no_texture_for sm player -> r = Returns true)
    /\ (forall sm', no_texture_for sm' player -> no_texture_for sm' p')
    /\ (r = Returns true ->
          animation p'
          = (fun a =>
               let a1 := setAnimation a (type (_currentState a)) (direction c) in
               setAnimation a1 walk (Entity.direction (_currentState a1)))
              <$> animation player).
Proof.
  intros Hcan. rewrite execute_unfold, Hcan. cbv zeta.
  set (p1 := setPosition player _ _ _).
  set (p2 := snd (setDirection sm p1 (direction c))).
  set (p3 := snd (setAnimationType sm p2 walk)).
  assert (Hp2 : position p2 = target_of c player).
  { unfold p2. rewrite position_setDirection. unfold p1. apply position_setPosition. }
  assert (Hp3 : position p3 = target_of c player).
  { unfold p3. rewrite position_setAnimationType. exact Hp2. }
  assert (Hc2 : forall other, other <> "Position" -> other <> "Animation" ->
                  components p2 !! other = components player !! other).
  { intros other Hp Ha. unfold p2, p1.
    rewrite untouched_setDirection, untouched_setPosition by assumption. reflexivity. }
  assert (Hc3 : forall other, other <> "Position" -> other <> "Animation" ->
                  components p3 !! other = components player !! other).
  { intros other Hp Ha. unfold p3.
    rewrite untouched_setAnimationType by assumption. auto. }
  assert (Hq : no_texture_for sm player ->
               fst (setDirection sm p1 (direction c)) = Returns tt
               /\ fst (setAnimationType sm p2 walk) = Returns tt).
  { intros Hno.
    destruct (setDirection_quiet sm p1 (direction c)) as [H1 H1'];
      [apply no_texture_setPosition, Hno |].
    split; [exact H1 |]. apply setAnimationType_quiet. exact H1'. }
  assert (Ha3 : animation p3
                = (fun a =>
                     let a1 := setAnimation a (type (_currentState a)) (direction c) in
                     setAnimation a1 walk (Entity.direction (_currentState a1)))
                    <$> animation player).
  { unfold p3, p2, p1.
    rewrite animation_setAnimationType, animation_setDirection, animation_setPosition.
    destruct (animation player); reflexivity. }
  assert (Hn2 : forall sm', no_texture_for sm' player -> no_texture_for sm' p2).
  { intros sm' Hno. unfold p2, p1.
    apply no_texture_setDirection, no_texture_setPosition, Hno. }
  assert (Hn3 : forall sm', no_texture_for sm' player -> no_texture_for sm' p3).
  { intros sm' Hno. unfold p3. apply no_texture_setAnimationType, Hn2, Hno. }
  destruct (Completion_unit_cases (fst (setDirection sm p1 (direction c)))) as [E1 | E1];
    rewrite E1.
  - destruct (Completion_unit_cases (fst (setAnimationType sm p2 walk))) as [E2 | E2];
      rewrite E2.
    + exists (Returns true), p3. repeat split; auto.
    + exists TypeError, p3. repeat split; auto; try discriminate.
      intros Hno. destruct (Hq Hno) as [_ H]. congruence.
  - exists TypeError, p2. repeat split; auto; try discriminate.
    intros Hno. destruct (Hq Hno) as [H _]. congruence.
Qed.

Lemma getXYZ_of_position (p q : Player) :
  position p = position q -> (getX p, getY p, getZ p) = (getX q, getY q, getZ q).
Proof. unfold getX, getY, getZ. intros ->. reflexivity. Qed.


(** On the meadow, from (1,1): east is the mountain (not walkable, three
    levels up) and the move is refused; south is grass and the hero, who
    has no sprite, gets true. *)
Lemma execute_on_the_meadow :
  fst (fst (execute warrior_loaded MoveEastCommand hero World.meadow)) = Returns false
  /\ snd (execute warrior_loaded MoveEastCommand hero World.meadow) = hero
  /\ fst (fst (execute warrior_loaded MoveSouthCommand hero World.meadow)) = Returns true
  /\ (getX (snd (execute warrior_loaded MoveSouthCommand hero World.meadow)),
      getY (snd (execute warrior_loaded MoveSouthCommand hero World.meadow))) = (1, 2).
Proof. vm_compute. repeat split; reflexivity. Qed.



(** [NoMovementCommand] replaces [execute]: it moves nothing and remembers
    nothing, so there is nothing for [undo] to restore; it answers true
    unless the texture refresh throws. *)
Lemma NoMovementCommand_execute_then_undo (sm : Sprites.SpriteManager) (player : Player) :
  let '(r, c', player') := NoMovementCommand_execute sm NoMovementCommand player in
  (r = Returns true \/ r = TypeError)
  /\ position player' = position player
  /\ fst (undo sm c' player') = Returns false.
Proof.
  unfold NoMovementCommand_execute.
  pose proof (position_setAnimationType sm player idle) as Hp.
  destruct (setAnimationType sm player idle) as [[[] |] p]; cbn [snd] in Hp; auto.
Qed.

End CommandFacts.

(** ** Mementos and the caretaker *)

Module MementoFacts.
Import Js Memento.

(** *** Running the primitives *)

Lemma Date_now_run (h : Host) : Date_now h = (Ok (date_now h (ticks h)), later h 1 0).
Proof. reflexivity. Qed.

Lemma new_GameMemento_run (i st md v : value) (h : Host) :
  new_GameMemento i st md v h
  = (Ok {| id := i; timestamp := date_now h (ticks h);
           version := match v with VUndefined => VStr "1.0.0" | _ => v end;
           state := spread_with st "timestamp" (VNum (date_now h (ticks h)));
           metadata := spread_with md "timestamp" (VNum (date_now h (ticks h))) |},
     later h 1 0).
Proof. reflexivity. Qed.

(** With a game state to save, [createMemento] returns: it reads the clock
    three times (for the id, for the metadata, in the constructor) and
    draws one random suffix. *)
Lemma createMemento_run (o : GameOriginator) (saveName : string)
    (player : Entity.Player) (map : World.Map) (h : Host) :
  holds_game_state o ->
  exists memento,
    createMemento o saveName player map h = (Ok memento, later h 3 1)
    /\ id memento
       = VStr ("save_" ++ pretty (date_now h (ticks h)) ++ "_" ++ random_suffix h (draws h))
    /\ timestamp memento = date_now h (2 + ticks h)%nat
    /\ version memento = VStr (o_version o)
    /\ get_prop (metadata memento) "saveName" = Some (VStr saveName)
    /\ get_prop (state memento) "timestamp" = Some (VNum (timestamp memento)).
Proof.
  intros (st & playTime & Hst & Hplay).
  unfold createMemento. rewrite Hst.
  unfold bind, generateSaveId, bind, ret. simpl. rewrite Hplay.
  eexists. split; [reflexivity |].
  repeat split.
  simpl. rewrite JsMapFacts.get_set_eq. reflexivity.
Qed.

(** [saveGame] returns whenever the originator holds a game state, and
    leaves the caretaker with the new memento [filed]. *)
Lemma saveGame_run (saveName : string) (player : Entity.Player) (map : World.Map)
    (r : Runtime) :
  holds_game_state (originator (caretaker r)) ->
  exists memento,
    createMemento (originator (caretaker r)) saveName player map (host r)
    = (Ok memento, later (host r) 3 1)
    /\ saveGame saveName player map r
       = (Ok memento, mkRuntime (later (host r) 3 1) (filed (caretaker r) memento)).
Proof.
  intros Hst.
  destruct (createMemento_run _ saveName player map (host r) Hst) as (memento & Hrun & _).
  exists memento. split; [exact Hrun |].
  unfold saveGame, bind, get, on_host. rewrite Hrun. reflexivity.
Qed.

Lemma filed_originator (c : GameCaretaker) (memento : GameMemento) :
  originator (filed c memento) = originator c
  /\ maxSaves (filed c memento) = maxSaves c
  /\ autoSaveInterval (filed c memento) = autoSaveInterval c
  /\ lastAutoSave (filed c memento) = lastAutoSave c.
Proof.
  unfold filed, cleanupOldSaves. simpl.
  destruct (_ <=? _); auto.
Qed.

(** *** Auto-save *)

Lemma filed_with_lastAutoSave (c : GameCaretaker) (t : Z) (memento : GameMemento) :
  filed (with_lastAutoSave c t) memento = with_lastAutoSave (filed c memento) t.
Proof.
  unfold filed, cleanupOldSaves. simpl.
  destruct (_ <=? _); reflexivity.
Qed.

Lemma autoSave_unfold (player : Entity.Player) (map : World.Map) (r : Runtime) :
  autoSave player map r
  = let now := date_now (host r) (ticks (host r)) in
    if now - lastAutoSave (caretaker r) <? autoSaveInterval (caretaker r)
    then (Ok None, mkRuntime (later (host r) 1 0) (caretaker r))
    else
      match saveGame "Auto Save" player map
              (mkRuntime (later (host r) 1 0) (with_lastAutoSave (caretaker r) now)) with
      | (Ok memento, r') => (Ok (Some memento), r')
      | (Throw e, r') => (Throw e, r')
      end.
Proof.
  unfold autoSave, bind, on_host, get, update, modify, ret.
  cbn [Date_now host caretaker].
  destruct (_ <? _); [reflexivity |].
  destruct (saveGame _ _ _ _) as [[memento | e] r']; reflexivity.
Qed.

Lemma autoSave_throttled (player : Entity.Player) (map : World.Map) (r : Runtime) :
  date_now (host r) (ticks (host r)) - lastAutoSave (caretaker r)
    < autoSaveInterval (caretaker r) ->
  autoSave player map r = (Ok None, mkRuntime (later (host r) 1 0) (caretaker r)).
Proof.
  intros Hlt. rewrite autoSave_unfold. cbv zeta.
  apply Z.ltb_lt in Hlt. rewrite Hlt. reflexivity.
Qed.

Lemma autoSave_due (player : Entity.Player) (map : World.Map) (r : Runtime) :
  holds_game_state (originator (caretaker r)) ->
  autoSaveInterval (caretaker r)
    <= date_now (host r) (ticks (host r)) - lastAutoSave (caretaker r) ->
  exists memento,
    saveGame "Auto Save" player map (mkRuntime (later (host r) 1 0) (caretaker r))
    = (Ok memento, mkRuntime (later (host r) 4 1) (filed (caretaker r) memento))
    /\ get_prop (metadata memento) "saveName" = Some (VStr "Auto Save")
    /\ autoSave player map r
       = (Ok (Some memento),
          mkRuntime (later (host r) 4 1)
            (with_lastAutoSave (filed (caretaker r) memento)
               (date_now (host r) (ticks (host r))))).
Proof.
  intros Hst Hge.
  destruct (createMemento_run (originator (caretaker r)) "Auto Save" player map
              (later (host r) 1 0) Hst) as (memento & Hrun & _ & _ & _ & Hname & _).
  exists memento.
  assert (Hsave : forall c', originator c' = originator (caretaker r) ->
            saveGame "Auto Save" player map (mkRuntime (later (host r) 1 0) c')
            = (Ok memento, mkRuntime (later (host r) 4 1) (filed c' memento))).
  { intros c' Ho. unfold saveGame, bind, get, on_host.
    cbn [host caretaker]. rewrite Ho, Hrun. reflexivity. }
  split; [apply Hsave; reflexivity | split; [exact Hname |]].
  rewrite autoSave_unfold. cbv zeta.
  apply Z.ltb_ge in Hge. rewrite Hge.
  rewrite Hsave by reflexivity.
  rewrite filed_with_lastAutoSave. reflexivity.
Qed.

(** C4.  With a game state to save, [autoSave] called when the clock reads
    [now]: if fewer than [autoSaveInterval] milliseconds separate [now]
    from the last auto-save it returns null and the caretaker is as it
    was; otherwise it returns the memento of one save named "Auto Save",
    filed as [saveGame] files it, and the last auto-save becomes [now].
    Hence of two calls with no full interval between them only the first
    saves, and a call once the interval has passed saves again. *)
Theorem autoSave_saves_once_per_interval :
  forall (c : GameCaretaker) (h : Host) (player : Entity.Player) (map : World.Map),
    holds_game_state (originator c) ->
    let now := date_now h (ticks h) in
    (now - lastAutoSave c < autoSaveInterval c ->
       autoSave player map (mkRuntime h c) = (Ok None, mkRuntime (later h 1 0) c))
    /\ (autoSaveInterval c <= now - lastAutoSave c ->
         exists memento,
           autoSave player map (mkRuntime h c)
           = (Ok (Some memento),
              mkRuntime (later h 4 1) (with_lastAutoSave (filed c memento) now))
           /\ get_prop (metadata memento) "saveName" = Some (VStr "Auto Save")
           /\ saveGame "Auto Save" player map (mkRuntime (later h 1 0) c)
              = (Ok memento, mkRuntime (later h 4 1) (filed c memento)))
    /\ (autoSaveInterval c <= now - lastAutoSave c ->
         forall second third : Z,
           second = date_now h (4 + ticks h)%nat ->
           third = date_now h (5 + ticks h)%nat ->
           second - now < autoSaveInterval c ->
           autoSaveInterval c <= third - now ->
           exists m1 m3 r1 r2 r3,
             autoSave player map (mkRuntime h c) = (Ok (Some m1), r1)
             /\ autoSave player map r1 = (Ok None, r2)
             /\ caretaker r2 = caretaker r1
             /\ mementos (caretaker r1) = mementos (filed c m1)
             /\ autoSave player map r2 = (Ok (Some m3), r3)
             /\ mementos (caretaker r3) = mementos (filed (filed c m1) m3)
             /\ lastAutoSave (caretaker r3) = third).
Proof.
  intros c h player map Hst now.
  split; [| split].
  - intros Hlt. apply (autoSave_throttled player map (mkRuntime h c)). exact Hlt.
  - intros Hge.
    destruct (autoSave_due player map (mkRuntime h c) Hst Hge) as (m & Hsave & Hname & Hauto).
    exists m. auto.
  - intros Hge second third -> -> Hsoon Hlate.
    destruct (autoSave_due player map (mkRuntime h c) Hst Hge) as (m1 & _ & _ & Hauto1).
    simpl in Hauto1. fold now in Hauto1.
    set (r1 := mkRuntime (later h 4 1) (with_lastAutoSave (filed c m1) now)) in *.
    assert (Hst1 : holds_game_state (originator (caretaker r1))).
    { simpl. destruct (filed_originator c m1) as (-> & _). exact Hst. }
    assert (Hint1 : autoSaveInterval (caretaker r1) = autoSaveInterval c).
    { simpl. apply (filed_originator c m1). }
    pose proof (autoSave_throttled player map r1) as Hauto2.
    simpl in Hauto2. rewrite (proj1 (proj2 (proj2 (filed_originator c m1)))) in Hauto2.
    specialize (Hauto2 Hsoon).
    set (r2 := mkRuntime (later (later h 4 1) 1 0) (with_lastAutoSave (filed c m1) now)) in *.
    destruct (autoSave_due player map r2) as (m3 & _ & _ & Hauto3).
    { exact Hst1. }
    { simpl. rewrite (proj1 (proj2 (proj2 (filed_originator c m1)))). exact Hlate. }
    exists m1, m3, r1, r2. eexists.
    split; [exact Hauto1 |]. split; [exact Hauto2 |]. split; [reflexivity |].
    split; [reflexivity |]. split; [exact Hauto3 |].
    split; [| reflexivity].
    simpl. rewrite filed_with_lastAutoSave. reflexivity.
Qed.

(** Three calls on a new caretaker: at 400000 (saves), at 400004 (too
    soon), at 800005 (saves again). *)
Lemma autoSave_saves_once_per_interval_witness :
  exists m1 m3 r1 r2 r3,
    autoSave Command.hero World.meadow
      (mkRuntime two_sessions (new_GameCaretaker sample_originator)) = (Ok (Some m1), r1)
    /\ autoSave Command.hero World.meadow r1 = (Ok None, r2)
    /\ caretaker r2 = caretaker r1
    /\ mementos (caretaker r1) = mementos (filed (new_GameCaretaker sample_originator) m1)
    /\ autoSave Command.hero World.meadow r2 = (Ok (Some m3), r3)
    /\ mementos (caretaker r3)
       = mementos (filed (filed (new_GameCaretaker sample_originator) m1) m3)
    /\ lastAutoSave (caretaker r3) = 800005.
Proof.
  assert (Hst : holds_game_state (originator (new_GameCaretaker sample_originator))).
  { exists (spread sample_state), (VNum 4200). split; reflexivity. }
  destruct (autoSave_saves_once_per_interval (new_GameCaretaker sample_originator)
              two_sessions Command.hero World.meadow Hst) as (_ & _ & Hseq).
  apply (Hseq ltac:(vm_compute; discriminate) 400004 800005);
    first [reflexivity | vm_compute; (reflexivity || discriminate)].
Defined.

End MementoFacts.

(** ** Eviction *)

Module EvictionFacts.
Import Js Memento MementoFacts.
Local Open Scope list_scope.

(** Sorting a save set whose timestamps already increase changes nothing. *)
Lemma sort_by_timestamp_increasing (l : list GameMemento) :
  increasing_timestamps l -> sort_by_timestamp (entries l) = entries l.
Proof.
  induction 1 as [| m l Hl IH Hm]; simpl; [reflexivity |].
  rewrite IH.
  destruct l as [| m' l']; simpl; [reflexivity |].
  apply Forall_cons in Hm as [Hlt _].
  destruct (timestamp m <=? timestamp m') eqn:E; [reflexivity |].
  apply Z.leb_gt in E. lia.
Qed.

Lemma increasing_app_r (l1 l2 : list GameMemento) :
  increasing_timestamps (l1 ++ l2) -> increasing_timestamps l2.
Proof.
  induction l1 as [| m l1 IH]; simpl; [auto |].
  intros H. apply StronglySorted_inv in H as [H _]. auto.
Qed.

Lemma increasing_app_l (l1 l2 : list GameMemento) :
  increasing_timestamps (l1 ++ l2) -> increasing_timestamps l1.
Proof.
  induction l1 as [| m l1 IH]; simpl; intros H; [constructor |].
  apply StronglySorted_inv in H as [H1 H2]. constructor.
  - apply IH, H1.
  - apply Forall_app in H2 as [H2 _]. exact H2.
Qed.

Lemma increasing_drop (n : nat) (l : list GameMemento) :
  increasing_timestamps l -> increasing_timestamps (drop n l).
Proof. intros H. rewrite <- (take_drop n l) in H. eapply increasing_app_r, H. Qed.

Lemma keys_entries (l : list GameMemento) : JsMap.keys (entries l) = map id l.
Proof. unfold JsMap.keys, entries. rewrite map_map. reflexivity. Qed.

Lemma entries_app (l1 l2 : list GameMemento) :
  entries (l1 ++ l2) = (entries l1 ++ entries l2)%list.
Proof. apply map_app. Qed.

Lemma length_newest (n : nat) (l : list GameMemento) :
  length (newest n l) = Nat.min n (length l).
Proof. unfold newest. rewrite length_drop. lia. Qed.

(** Filing one more memento, newer than all and under a new id, leaves
    the newest [maxSaves] of all mementos filed so far. *)
Lemma filed_newest (c : GameCaretaker) (previous : list GameMemento) (m : GameMemento) :
  0 <= maxSaves c ->
  mementos c = entries (newest (Z.to_nat (maxSaves c)) previous) ->
  increasing_timestamps (previous ++ [m]) ->
  NoDup (map id (previous ++ [m])) ->
  mementos (filed c m) = entries (newest (Z.to_nat (maxSaves c)) (previous ++ [m])).
Proof.
  intros Hmax Hc Hinc Hnd.
  set (n := Z.to_nat (maxSaves c)) in *.
  set (kept := newest n previous) in *.
  assert (Hfresh : id m ∉ JsMap.keys (entries kept)).
  { rewrite keys_entries. rewrite map_app in Hnd.
    apply NoDup_app in Hnd as (_ & Hdisj & _).
    intros Hin. apply (Hdisj (id m)); [| left].
    unfold kept, newest in Hin.
    apply list_elem_of_fmap in Hin as (x & Hx & Hin).
    apply list_elem_of_fmap. exists x. split; [exact Hx |].
    eapply subseteq_drop, Hin. }
  assert (Hset : JsMap.set (id m) m (mementos c) = entries (kept ++ [m])).
  { rewrite Hc, JsMapFacts.set_absent by exact Hfresh. rewrite entries_app. reflexivity. }
  unfold filed, cleanupOldSaves. cbn [mementos maxSaves with_mementos].
  rewrite Hset.
  assert (Hsize : JsMap.size (entries (kept ++ [m])) = Z.of_nat (Nat.min n (length previous)) + 1).
  { unfold JsMap.size, entries. rewrite length_map, length_app. unfold kept.
    rewrite length_newest. simpl. lia. }
  rewrite Hsize.
  destruct (_ <=? maxSaves c) eqn:E.
  - (* room left: nothing is pruned *)
    apply Z.leb_le in E. cbn [mementos with_mementos].
    assert (Hlt : (length previous < n)%nat) by lia.
    unfold kept, newest. rewrite length_app. simpl.
    replace (length previous - n)%nat with 0%nat by lia.
    replace (length previous + 1 - n)%nat with 0%nat by lia.
    reflexivity.
  - (* full: the oldest of the kept ones goes *)
    apply Z.leb_gt in E. cbn [mementos with_mementos].
    assert (Hge : (n <= length previous)%nat) by lia.
    assert (Hinc' : increasing_timestamps (kept ++ [m])).
    { unfold kept, newest. rewrite <- drop_app_le by lia. apply increasing_drop, Hinc. }
    rewrite sort_by_timestamp_increasing by exact Hinc'.
    assert (Hkept : length kept = Nat.min n (length previous)) by apply length_newest.
    unfold entries at 1. rewrite length_map, length_app, Hkept. simpl.
    replace (Z.to_nat (Z.of_nat (Nat.min n (length previous) + 1) - maxSaves c)) with 1%nat by lia.
    assert (Hnew : newest n (previous ++ [m]) = drop 1 (kept ++ [m])).
    { unfold kept, newest. rewrite length_app. simpl.
      rewrite <- drop_app_le by lia. rewrite drop_drop. f_equal. lia. }
    rewrite Hnew.
    assert (Hnd' : NoDup (map id (kept ++ [m]))).
    { unfold kept, newest. rewrite <- drop_app_le by lia.
      rewrite <- (take_drop (length previous - n) (previous ++ [m])), map_app in Hnd.
      apply NoDup_app in Hnd as (_ & _ & Hnd). exact Hnd. }
    destruct (kept ++ [m]) as [| e rest] eqn:Ek.
    { destruct kept; discriminate Ek. }
    simpl. simpl in Hnd'. apply NoDup_cons in Hnd' as [Hnotin _].
    destruct (decide (id e = id e)); [| contradiction].
    rewrite drop_0. apply JsMapFacts.delete_absent.
    rewrite keys_entries. exact Hnotin.
Qed.

(** The same, over a run of filings. *)
Lemma fold_filed_newest (added : list GameMemento) :
  forall (c : GameCaretaker) (previous : list GameMemento),
    0 <= maxSaves c ->
    mementos c = entries (newest (Z.to_nat (maxSaves c)) previous) ->
    increasing_timestamps (previous ++ added) ->
    NoDup (map id (previous ++ added)) ->
    mementos (fold_left filed added c)
    = entries (newest (Z.to_nat (maxSaves c)) (previous ++ added))
    /\ maxSaves (fold_left filed added c) = maxSaves c.
Proof.
  induction added as [| m added IH]; intros c previous Hmax Hc Hinc Hnd; simpl.
  - rewrite app_nil_r. auto.
  - replace (previous ++ m :: added) with ((previous ++ [m]) ++ added) in *
      by (rewrite <- app_assoc; reflexivity).
    destruct (filed_originator c m) as (_ & Hmax' & _).
    destruct (IH (filed c m) (previous ++ [m])) as [Hm Hk].
    + rewrite Hmax'. exact Hmax.
    + rewrite Hmax'. apply filed_newest; auto.
      * eapply increasing_app_l, Hinc.
      * rewrite map_app in Hnd. apply NoDup_app in Hnd as (Hnd & _). exact Hnd.
    + exact Hinc.
    + exact Hnd.
    + rewrite Hm, Hk, Hmax'. auto.
Qed.

(** A run of [saveGame] calls returns one memento per request and files
    them in turn; the mementos carry the ids and the timestamps the host's
    clock and random source give them. *)
Lemma save_all_run (requests : list (string * Entity.Player * World.Map)) :
  forall r : Runtime,
    holds_game_state (originator (caretaker r)) ->
    exists saved h',
      save_all requests r = (Ok saved, mkRuntime h' (fold_left filed saved (caretaker r)))
      /\ length saved = length requests
      /\ map id saved
         = map (fun i => VStr (nth_id (host r) i)) (seq 0 (length requests))
      /\ map timestamp saved = map (nth_timestamp (host r)) (seq 0 (length requests)).
Proof.
  induction requests as [| [[saveName player] map] rest IH]; intros r Hst; simpl.
  - exists [], (host r). destruct r; auto.
  - destruct (createMemento_run (originator (caretaker r)) saveName player map (host r) Hst)
      as (m0 & Hrun0 & Hid & Hts & _).
    destruct (saveGame_run saveName player map r Hst) as (m & Hrun & Hsave).
    rewrite Hrun0 in Hrun. injection Hrun as <-.
    destruct (IH (mkRuntime (later (host r) 3 1) (filed (caretaker r) m0))) as
      (saved & h' & Hrest & Hlen & Hids & Hstamps).
    { simpl. destruct (filed_originator (caretaker r) m0) as (-> & _). exact Hst. }
    exists (m0 :: saved), h'.
    split; [unfold bind; rewrite Hsave, Hrest; reflexivity |].
    split; [simpl; congruence |].
    cbn [host] in Hids, Hstamps.
    rewrite <- seq_shift, !map_map. split; simpl; f_equal.
    + rewrite Hid. unfold nth_id. reflexivity.
    + rewrite Hids. apply map_ext. intros i. unfold nth_id, later. simpl.
      do 4 f_equal; f_equal; lia.
    + rewrite Hts. unfold nth_timestamp. f_equal.
    + rewrite Hstamps. apply map_ext. intros i. unfold nth_timestamp, later. simpl.
      f_equal. lia.
Qed.

(** Readings that increase with the index give a sorted list, distinct
    ones a list without repetition. *)
Lemma increasing_of_stamps (f : nat -> Z) (saved : list GameMemento) :
  forall start : nat,
    map timestamp saved = map f (seq start (length saved)) ->
    (forall i j, (start <= i < j)%nat -> (j < start + length saved)%nat -> f i < f j) ->
    increasing_timestamps saved.
Proof.
  unfold increasing_timestamps.
  induction saved as [| m saved IH]; intros start Hmap Hinc; [constructor |].
  simpl in Hmap. injection Hmap as Hm Hrest.
  constructor.
  - apply (IH (S start) Hrest). intros i j Hij Hj. apply Hinc; simpl; lia.
  - apply List.Forall_forall. intros x Hx.
    apply (List.in_map timestamp) in Hx. rewrite Hrest in Hx.
    apply List.in_map_iff in Hx as (j & Hj & Hin). apply List.in_seq in Hin.
    rewrite Hm, <- Hj. apply Hinc; simpl; lia.
Qed.

Lemma distinct_of_ids (g : nat -> string) (saved : list GameMemento) :
  forall start : nat,
    map id saved = map (fun i => VStr (g i)) (seq start (length saved)) ->
    (forall i j, (start <= i < j)%nat -> (j < start + length saved)%nat -> g i <> g j) ->
    NoDup (map id saved).
Proof.
  induction saved as [| m saved IH]; intros start Hmap Hne; [constructor |].
  simpl in Hmap. injection Hmap as Hm Hrest. simpl.
  apply NoDup_cons. split.
  - intros Hin. rewrite Hrest in Hin.
    apply list_elem_of_In, List.in_map_iff in Hin as (j & Hj & Hin).
    apply List.in_seq in Hin. rewrite Hm in Hj. injection Hj as Hj.
    apply (Hne start j); [lia | simpl; lia | congruence].
  - apply (IH (S start) Hrest). intros i j Hij Hj. apply Hne; simpl; lia.
Qed.

Lemma insert_by_timestamp_perm e l : insert_by_timestamp e l ≡ₚ e :: l.
Proof.
  induction l as [| e' l IH]; simpl; [reflexivity |].
  destruct (_ <=? _); [reflexivity |].
  rewrite IH. apply perm_swap.
Qed.

Lemma sort_by_timestamp_perm l : sort_by_timestamp l ≡ₚ l.
Proof.
  induction l as [| e l IH]; simpl; [reflexivity |].
  rewrite insert_by_timestamp_perm, IH. reflexivity.
Qed.

Lemma insert_by_timestamp_sorted e l :
  StronglySorted older_or_equal l -> StronglySorted older_or_equal (insert_by_timestamp e l).
Proof.
  induction 1 as [| e' l Hl IH He']; simpl.
  - repeat constructor.
  - destruct (timestamp (snd e) <=? timestamp (snd e')) eqn:E.
    + apply Z.leb_le in E. constructor; [constructor; assumption |].
      constructor; [exact E |].
      eapply Forall_impl; [exact He' |]. unfold older_or_equal. intros x Hx. simpl in *. lia.
    + apply Z.leb_gt in E. constructor; [exact IH |].
      rewrite insert_by_timestamp_perm. constructor; [| exact He'].
      unfold older_or_equal. lia.
Qed.

Lemma sort_by_timestamp_sorted l : StronglySorted older_or_equal (sort_by_timestamp l).
Proof.
  induction l as [| e l IH]; simpl; [constructor |].
  apply insert_by_timestamp_sorted, IH.
Qed.

Lemma sorted_take_drop (n : nat) (l : list (value * GameMemento)) :
  StronglySorted older_or_equal l ->
  forall a b, a ∈ take n l -> b ∈ drop n l -> older_or_equal a b.
Proof.
  intros Hs. revert n. induction Hs as [| e l Hl IH He]; intros n a b Ha Hb.
  - rewrite take_nil in Ha. apply elem_of_nil in Ha. contradiction.
  - destruct n as [| n]; simpl in *.
    + apply elem_of_nil in Ha. contradiction.
    + apply elem_of_cons in Ha as [-> | Ha].
      * rewrite Forall_forall in He. apply He. eapply subseteq_drop, Hb.
      * eapply IH; eauto.
Qed.

(** Deleting a run of keys is filtering them out. *)
Lemma delete_filter (k : value) (m : list (value * GameMemento)) :
  JsMap.delete k m = filter (fun e => fst e <> k) m.
Proof.
  induction m as [| [k' v] m IH]; simpl; [reflexivity |].
  rewrite filter_cons. simpl.
  destruct (decide (k = k')) as [-> | Hne].
  - destruct (decide (k' <> k')); [contradiction | exact IH].
  - destruct (decide (k' <> k)) as [| Hn]; [f_equal; exact IH |].
    exfalso. apply Hn. congruence.
Qed.

Lemma fold_delete_filter (gone : list (value * GameMemento)) :
  forall m : list (value * GameMemento),
    fold_left (fun m e => JsMap.delete (fst e) m) gone m
    = filter (fun e => fst e ∉ JsMap.keys gone) m.
Proof.
  induction gone as [| g gone IH]; intros m; simpl.
  - induction m as [| e m IHm]; [reflexivity |].
    rewrite filter_cons_True by apply not_elem_of_nil. f_equal. exact IHm.
  - rewrite IH, delete_filter, list_filter_filter.
    apply list_filter_iff. intros x. rewrite not_elem_of_cons. tauto.
Qed.

Lemma filter_none {A} (P : A -> Prop) `{forall x, Decision (P x)} (l : list A) :
  (forall x, x ∈ l -> ~ P x) -> filter P l = [].
Proof.
  induction l as [| x l IH]; intros Hn; [reflexivity |].
  rewrite filter_cons_False by (apply Hn; left). apply IH.
  intros y Hy. apply Hn. right. exact Hy.
Qed.

Lemma filter_all {A} (P : A -> Prop) `{forall x, Decision (P x)} (l : list A) :
  (forall x, x ∈ l -> P x) -> filter P l = l.
Proof.
  induction l as [| x l IH]; intros Ha; [reflexivity |].
  rewrite filter_cons_True by (apply Ha; left). f_equal. apply IH.
  intros y Hy. apply Ha. right. exact Hy.
Qed.

(** Pruning, in general: on a save set with distinct keys and a
    non-negative limit, what is left is part of what was there, its size is
    the smaller of the old size and the limit, and nothing removed is newer
    than anything kept. *)
Lemma cleanupOldSaves_oldest_first (c : GameCaretaker) :
  NoDup (JsMap.keys (mementos c)) ->
  0 <= maxSaves c ->
  (forall e, e ∈ mementos (cleanupOldSaves c) -> e ∈ mementos c)
  /\ getSaveCount (cleanupOldSaves c) = Z.min (getSaveCount c) (maxSaves c)
  /\ (forall gone kept,
        gone ∈ mementos c -> gone ∉ mementos (cleanupOldSaves c) ->
        kept ∈ mementos (cleanupOldSaves c) ->
        timestamp (snd gone) <= timestamp (snd kept)).
Proof.
  intros Hnd Hmax. unfold cleanupOldSaves, getSaveCount.
  destruct (JsMap.size (mementos c) <=? maxSaves c) eqn:E.
  - apply Z.leb_le in E. split; [auto |]. split; [lia |].
    intros gone kept Hin Hout _. contradiction.
  - apply Z.leb_gt in E. cbn [mementos with_mementos].
    set (l := mementos c) in *.
    set (s := sort_by_timestamp l).
    set (n := Z.to_nat (Z.of_nat (length s) - maxSaves c)).
    assert (Hperm : s ≡ₚ l) by apply sort_by_timestamp_perm.
    assert (Hlen : length s = length l) by (rewrite Hperm; reflexivity).
    assert (Hnds : NoDup (JsMap.keys s)).
    { unfold JsMap.keys. rewrite Hperm. exact Hnd. }
    rewrite fold_delete_filter.
    set (P := fun e : value * GameMemento => fst e ∉ JsMap.keys (take n s)).
    assert (Hsplit : NoDup (JsMap.keys (take n s ++ drop n s))) by (rewrite take_drop; exact Hnds).
    unfold JsMap.keys in Hsplit. rewrite map_app in Hsplit.
    apply NoDup_app in Hsplit as (_ & Hdisj & _).
    assert (Hkept : filter P l ≡ₚ drop n s).
    { rewrite <- Hperm. rewrite <- (take_drop n s) at 1. rewrite filter_app.
      rewrite filter_none, filter_all; [reflexivity | |].
      - intros x Hx Hin. apply (Hdisj (fst x)); [exact Hin |].
        apply list_elem_of_fmap. exists x. auto.
      - intros x Hx HP. apply HP. apply list_elem_of_fmap. exists x. auto. }
    split; [| split].
    + intros e He. apply list_elem_of_filter in He. tauto.
    + unfold JsMap.size in *. rewrite Hkept, length_drop. unfold n. lia.
    + intros gone kept Hin Hout Hk.
      rewrite Hkept in Hk.
      assert (Hg : gone ∈ take n s).
      { assert (Hs : gone ∈ take n s ++ drop n s) by (rewrite take_drop, Hperm; exact Hin).
        apply elem_of_app in Hs as [Hs | Hs]; [exact Hs |].
        exfalso. apply Hout. rewrite Hkept. exact Hs. }
      apply (sorted_take_drop n s (sort_by_timestamp_sorted l) gone kept Hg Hk).
Qed.

(** C2.  A caretaker with an empty save set, limit [maxSaves] and a game
    state to save is asked to save [maxSaves + k] times, k > 0, on a host
    whose clock gives the saves strictly increasing timestamps and whose
    clock and random source give them ids of their own.  Every call
    returns; the mementos made carry those timestamps; what remains in the
    save set are the last [maxSaves] of them in order -- the [k] oldest
    have been removed and no other -- and [getSaveCount] is [maxSaves].
    And pruning is always oldest first: on any save set it keeps part of
    what was there, down to the limit, and removes nothing newer than
    something it keeps. *)
Theorem saveGame_evicts_the_oldest :
  (forall (c : GameCaretaker) (h : Host)
          (requests : list (string * Entity.Player * World.Map)) (k : Z),
     mementos c = [] ->
     holds_game_state (originator c) ->
     1 <= maxSaves c ->
     0 < k ->
     Z.of_nat (length requests) = maxSaves c + k ->
     (forall i j, (i < j < length requests)%nat -> nth_timestamp h i < nth_timestamp h j) ->
     (forall i j, (i < j < length requests)%nat -> nth_id h i <> nth_id h j) ->
     exists saved r',
       save_all requests (mkRuntime h c) = (Ok saved, r')
       /\ Z.of_nat (length saved) = maxSaves c + k
       /\ map timestamp saved = map (nth_timestamp h) (seq 0 (length requests))
       /\ increasing_timestamps saved
       /\ mementos (caretaker r') = entries (drop (Z.to_nat k) saved)
       /\ getSaveCount (caretaker r') = maxSaves c
       /\ (forall m, m ∈ take (Z.to_nat k) saved ->
             getSave (caretaker r') (id m) = None)
       /\ (forall m, m ∈ drop (Z.to_nat k) saved ->
             getSave (caretaker r') (id m) = Some m))
  /\ (forall c : GameCaretaker,
        NoDup (JsMap.keys (mementos c)) ->
        0 <= maxSaves c ->
        (forall e, e ∈ mementos (cleanupOldSaves c) -> e ∈ mementos c)
        /\ getSaveCount (cleanupOldSaves c) = Z.min (getSaveCount c) (maxSaves c)
        /\ (forall gone kept,
              gone ∈ mementos c -> gone ∉ mementos (cleanupOldSaves c) ->
              kept ∈ mementos (cleanupOldSaves c) ->
              timestamp (snd gone) <= timestamp (snd kept))).
Proof.
  split; [| exact cleanupOldSaves_oldest_first].
  intros c h requests k Hempty Hst Hmax Hk Hlen Hclock Hids.
  destruct (save_all_run requests (mkRuntime h c) Hst)
    as (saved & h' & Hrun & Hlen' & Hid & Hts).
  cbn [host] in Hid, Hts.
  exists saved, (mkRuntime h' (fold_left filed saved c)).
  split; [exact Hrun |]. split; [lia |]. split; [exact Hts |].
  assert (Hinc : increasing_timestamps saved).
  { apply (increasing_of_stamps (nth_timestamp h) saved 0%nat).
    - rewrite Hlen'. exact Hts.
    - intros i j Hij Hj. apply Hclock. lia. }
  assert (Hnd : NoDup (map id saved)).
  { apply (distinct_of_ids (nth_id h) saved 0%nat).
    - rewrite Hlen'. exact Hid.
    - intros i j Hij Hj. apply Hids. lia. }
  split; [exact Hinc |].
  cbn [caretaker].
  destruct (fold_filed_newest saved c []) as [Hm _];
    [lia | exact Hempty | exact Hinc | exact Hnd |].
  simpl in Hm.
  assert (Hnew : newest (Z.to_nat (maxSaves c)) saved = drop (Z.to_nat k) saved).
  { unfold newest. f_equal. lia. }
  rewrite Hnew in Hm.
  split; [exact Hm |]. split; [| split].
  - unfold getSaveCount, JsMap.size. rewrite Hm. unfold entries.
    rewrite length_map, length_drop. lia.
  - intros m Hin. unfold getSave. rewrite Hm.
    apply JsMapFacts.get_None_notin. rewrite keys_entries.
    rewrite <- (take_drop (Z.to_nat k) saved), map_app in Hnd.
    apply NoDup_app in Hnd as (_ & Hdisj & _).
    apply Hdisj. apply list_elem_of_fmap. exists m. auto.
  - intros m Hin. unfold getSave. rewrite Hm.
    assert (Hnd' : NoDup (map id (drop (Z.to_nat k) saved))).
    { rewrite <- (take_drop (Z.to_nat k) saved), map_app in Hnd.
      apply NoDup_app in Hnd as (_ & _ & Hnd). exact Hnd. }
    clear -Hin Hnd'. induction (drop (Z.to_nat k) saved) as [| x l IH]; simpl.
    + apply elem_of_nil in Hin. contradiction.
    + simpl in Hnd'. apply NoDup_cons in Hnd' as [Hx Hl].
      destruct (decide (id m = id x)) as [Heq | Hne].
      * apply elem_of_cons in Hin as [-> | Hin]; [reflexivity |].
        exfalso. apply Hx. rewrite <- Heq. apply list_elem_of_fmap. exists m. auto.
      * apply elem_of_cons in Hin as [-> | Hin]; [contradiction |]. auto.
Qed.

(** Three saves into the caretaker limited to two, on a clock that
    advances by a millisecond per reading: the timestamps are 1002, 1005
    and 1008, the first save is gone, the other two remain. *)
Lemma saveGame_evicts_the_oldest_witness :
  exists saved r',
    save_all three_requests (mkRuntime (ticking 1000 1) small_caretaker) = (Ok saved, r')
    /\ Z.of_nat (length saved) = maxSaves small_caretaker + 1
    /\ map timestamp saved = [1002; 1005; 1008]
    /\ increasing_timestamps saved
    /\ mementos (caretaker r') = entries (drop (Z.to_nat 1) saved)
    /\ getSaveCount (caretaker r') = 2
    /\ (forall m, m ∈ take (Z.to_nat 1) saved -> getSave (caretaker r') (id m) = None)
    /\ (forall m, m ∈ drop (Z.to_nat 1) saved ->
          getSave (caretaker r') (id m) = Some m).
Proof.
  apply (proj1 saveGame_evicts_the_oldest small_caretaker (ticking 1000 1) three_requests 1).
  - reflexivity.
  - exists (spread sample_state), (VNum 4200). split; reflexivity.
  - vm_compute. discriminate.
  - lia.
  - reflexivity.
  - intros i j Hij. simpl in Hij. unfold nth_timestamp, ticking. simpl. lia.
  - intros i j Hij. simpl in Hij.
    destruct i as [| [| [| i]]], j as [| [| [| j]]]; try lia; vm_compute; discriminate.
Defined.

(** The same run, evaluated: timestamps 1002, 1005, 1008; the saves that
    remain are the second and the third. *)
Lemma saveGame_evicts_the_oldest_example :
  match save_all three_requests (mkRuntime (ticking 1000 1) small_caretaker) with
  | (Ok saved, r') =>
      map timestamp saved = [1002; 1005; 1008]
      /\ JsMap.keys (mementos (caretaker r')) = map id (drop 1 saved)
      /\ getSaveCount (caretaker r') = 2
  | (Throw _, _) => False
  end.
Proof. vm_compute. repeat split; reflexivity. Qed.

End EvictionFacts.

(** ** Serialisation and import *)

Module JsonFacts.
Import Js Memento MementoFacts.

Section WithJson.
Variable JSON_parse : value -> option value.
Variable JSON_stringify : value -> string.

(** A valid memento has a version that is not [undefined]. *)
Lemma isValid_version (m : GameMemento) : isValid m = true -> version m <> VUndefined.
Proof.
  unfold isValid. rewrite !andb_true_iff. intros [[[[[[[_ _] Hv] _] _] _] _] _] Heq.
  rewrite Heq in Hv. discriminate Hv.
Qed.

(** [fromJSON] on a document that parses to an object: the constructor
    runs on the four properties it reads. *)
Lemma fromJSON_object (json : value) (fields : list (string * value)) (h : Host) :
  JSON_parse json = Some (VObj fields) ->
  fromJSON JSON_parse json h
  = new_GameMemento (default VUndefined (JsMap.get "id" fields))
      (default VUndefined (JsMap.get "state" fields))
      (default VUndefined (JsMap.get "metadata" fields))
      (default VUndefined (JsMap.get "version" fields)) h.
Proof. intros Hp. unfold fromJSON. rewrite Hp. reflexivity. Qed.

Lemma fromJSON_unparsable (json : value) (h : Host) :
  JSON_parse json = None -> fromJSON JSON_parse json h = (Throw "SyntaxError", h).
Proof. intros Hp. unfold fromJSON. rewrite Hp. reflexivity. Qed.

(** One entry of an import: whatever [fromJSON] does, the entry itself
    never throws; a valid memento is filed under its id, anything else
    leaves the save set alone. *)
Lemma import_entry_run (entry : value) (r : Runtime) :
  import_entry JSON_parse entry r
  = match fromJSON JSON_parse entry (host r) with
    | (Ok memento, h') =>
        (Ok tt,
         mkRuntime h'
           (if isValid memento
            then with_mementos (caretaker r)
                   (JsMap.set (id memento) memento (mementos (caretaker r)))
            else caretaker r))
    | (Throw _, h') => (Ok tt, mkRuntime h' (caretaker r))
    end.
Proof.
  unfold import_entry, try_catch, bind, on_host.
  destruct (fromJSON JSON_parse entry (host r)) as [[memento | e] h']; [| reflexivity].
  destruct (isValid memento); reflexivity.
Qed.

Lemma import_entry_returns (entry : value) (r : Runtime) :
  fst (import_entry JSON_parse entry r) = Ok tt.
Proof.
  rewrite import_entry_run.
  destruct (fromJSON JSON_parse entry (host r)) as [[memento | e] h']; reflexivity.
Qed.

Lemma for_each_import_returns (entries : list value) :
  forall r, fst (for_each (import_entry JSON_parse) entries r) = Ok tt.
Proof.
  induction entries as [| e entries IH]; intros r; simpl; [reflexivity |].
  unfold bind. pose proof (import_entry_returns e r) as He.
  destruct (import_entry JSON_parse e r) as [[[] | err] r1]; [apply IH | discriminate He].
Qed.

Lemma for_each_import_cons (e : value) (entries : list value) (r : Runtime) :
  snd (for_each (import_entry JSON_parse) (e :: entries) r)
  = snd (for_each (import_entry JSON_parse) entries (snd (import_entry JSON_parse e r))).
Proof.
  simpl. unfold bind. pose proof (import_entry_returns e r) as He.
  destruct (import_entry JSON_parse e r) as [[[] | err] r1]; [reflexivity | discriminate He].
Qed.

Lemma for_each_import_app (before after : list value) :
  forall r,
    snd (for_each (import_entry JSON_parse) (before ++ after) r)
    = snd (for_each (import_entry JSON_parse) after
             (snd (for_each (import_entry JSON_parse) before r))).
Proof.
  induction before as [| e before IH]; intros r; [reflexivity |].
  rewrite <- app_comm_cons, !for_each_import_cons. apply IH.
Qed.

(** [importSaves], case by case on what the document parses to. *)
Lemma importSaves_run (json : string) (r : Runtime) :
  importSaves JSON_parse json r
  = match JSON_parse (VStr json) with
    | Some (VArr saves) =>
        let r' := snd (for_each (import_entry JSON_parse) saves r) in
        (Ok tt, mkRuntime (host r') (cleanupOldSaves (caretaker r')))
    | _ => (Ok tt, mkRuntime (host r) (with_mementos (caretaker r) JsMap.empty))
    end.
Proof.
  unfold importSaves, try_catch.
  destruct (JSON_parse (VStr json)) as [[| | b | n | s | saves | fields] |]; try reflexivity.
  unfold bind. pose proof (for_each_import_returns saves r) as Hr.
  destruct (for_each (import_entry JSON_parse) saves r) as [[[] | err] r']; [reflexivity |].
  discriminate Hr.
Qed.

End WithJson.

(** C1.  For a valid memento whose serialised form parses back to what
    was serialised, [fromJSON(m.toJSON())] returns a memento with the same
    id and version and with the same state and metadata except for their
    [timestamp] property; the timestamp of the result, and the one written
    into its state and metadata, is the clock's reading when [fromJSON]
    runs.  It equals the original's only if the clock reads just that. *)
Theorem fromJSON_toJSON_restamps :
  forall (JSON_parse : value -> option value) (JSON_stringify : value -> string)
         (m : GameMemento) (h : Host),
    isValid m = true ->
    JSON_parse (VStr (toJSON JSON_stringify m)) = Some (payload m) ->
    let now := date_now h (ticks h) in
    exists m',
      fromJSON JSON_parse (VStr (toJSON JSON_stringify m)) h = (Ok m', later h 1 0)
      /\ id m' = id m
      /\ version m' = version m
      /\ timestamp m' = now
      /\ state m' = spread_with (state m) "timestamp" (VNum now)
      /\ metadata m' = spread_with (metadata m) "timestamp" (VNum now)
      /\ (timestamp m' = timestamp m <-> now = timestamp m).
Proof.
  intros JSON_parse JSON_stringify m h Hvalid Hround now.
  pose proof (isValid_version m Hvalid) as Hv.
  unfold payload in Hround.
  rewrite (fromJSON_object JSON_parse _ _ h Hround).
  cbn [JsMap.get]. simpl. rewrite new_GameMemento_run. fold now.
  eexists. split; [reflexivity |]. cbn [id version timestamp state metadata].
  repeat split; try reflexivity; try (intros ->; reflexivity).
  destruct (version m); try reflexivity. contradiction.
Qed.

(** The sample memento, made at clock reading 1002, serialised and read
    back at 5000 with the reference codec. *)
Lemma fromJSON_toJSON_restamps_witness :
  timestamp sample_memento = 1002
  /\ exists m',
       fromJSON parse (VStr (toJSON stringify sample_memento)) (ticking 5000 1)
       = (Ok m', later (ticking 5000 1) 1 0)
       /\ id m' = id sample_memento
       /\ version m' = version sample_memento
       /\ timestamp m' = 5000
       /\ state m' = spread_with (state sample_memento) "timestamp" (VNum 5000)
       /\ metadata m' = spread_with (metadata sample_memento) "timestamp" (VNum 5000)
       /\ (timestamp m' = timestamp sample_memento <-> 5000 = timestamp sample_memento).
Proof.
  split; [reflexivity |].
  apply (fromJSON_toJSON_restamps parse stringify sample_memento (ticking 5000 1)).
  - vm_compute. reflexivity.
  - vm_compute. reflexivity.
Defined.

(** C3.  [importSaves] never throws.  If the document does not parse, the
    save set is replaced by an empty one.  If it parses to an array, the
    entries are taken in order, each in the state its predecessors left,
    and the result is pruned: an entry that does not parse changes nothing
    at all; an entry for which [fromJSON] throws, or whose memento is not
    valid, leaves the save set as it was; an entry with a valid memento has
    it filed under its id.  Whatever an entry does, the entries after it
    are still imported. *)
Theorem importSaves_skips_bad_entries :
  forall (JSON_parse : value -> option value) (json : string) (r : Runtime),
    let step := import_entry JSON_parse in
    (JSON_parse (VStr json) = None ->
       importSaves JSON_parse json r
       = (Ok tt, mkRuntime (host r) (with_mementos (caretaker r) [])))
    /\ (forall saves, JSON_parse (VStr json) = Some (VArr saves) ->
          let r' := snd (for_each step saves r) in
          importSaves JSON_parse json r
          = (Ok tt, mkRuntime (host r') (cleanupOldSaves (caretaker r')))
          /\ forall before entry after, saves = (before ++ entry :: after)%list ->
               let r1 := snd (for_each step before r) in
               let r2 := snd (step entry r1) in
               r' = snd (for_each step after r2)
               /\ (JSON_parse entry = None -> r2 = r1)
               /\ (forall e h', fromJSON JSON_parse entry (host r1) = (Throw e, h') ->
                     caretaker r2 = caretaker r1)
               /\ (forall memento h',
                     fromJSON JSON_parse entry (host r1) = (Ok memento, h') ->
                     host r2 = h'
                     /\ caretaker r2
                        = if isValid memento
                          then with_mementos (caretaker r1)
                                 (JsMap.set (id memento) memento (mementos (caretaker r1)))
                          else caretaker r1)).
Proof.
  intros JSON_parse json r step. split.
  - intros Hp. rewrite importSaves_run, Hp. reflexivity.
  - intros saves Hp r'. split.
    + rewrite importSaves_run, Hp. reflexivity.
    + intros before entry after -> r1 r2.
      split; [| split; [| split]].
      * unfold r', step. rewrite for_each_import_app, for_each_import_cons. reflexivity.
      * intros He. unfold r2, step. rewrite import_entry_run.
        rewrite (fromJSON_unparsable JSON_parse entry _ He). destruct r1; reflexivity.
      * intros e h' Hf. unfold r2, step. rewrite import_entry_run, Hf. reflexivity.
      * intros memento h' Hf. unfold r2, step. rewrite import_entry_run, Hf. auto.
Qed.

(** Imported with the reference codec into a caretaker that already holds
    one save, the document adds the sample memento and nothing else; a
    truncated document empties the caretaker. *)
Lemma importSaves_example :
  let before := mkRuntime (ticking 7000 1) (filed small_caretaker sample_memento) in
  let other := mkRuntime (ticking 7000 1) (new_GameCaretaker sample_originator) in
  JsMap.keys (mementos (caretaker (snd (importSaves parse mixed_import other))))
  = [id sample_memento]
  /\ JsMap.keys (mementos (caretaker before)) = [id sample_memento]
  /\ mementos (caretaker (snd (importSaves parse "[1,2" before))) = [].
Proof. vm_compute. repeat split; reflexivity. Qed.

End JsonFacts.

(** ** The save set: loading, deleting, the latest save, limits *)

Module JsMapLaws.
Local Open Scope list_scope.

Section Maps.
Context {K : Type} `{EqDecision K} {V : Type}.
Implicit Types (m : list (K * V)) (k : K) (v : V).

Lemma has_true_in k m : JsMap.has k m = true <-> k ∈ JsMap.keys m.
Proof.
  unfold JsMap.has. destruct (JsMap.get k m) eqn:E.
  - split; [intros _ | reflexivity].
    destruct (decide (k ∈ JsMap.keys m)) as [Hin | Hn]; [exact Hin |].
    apply JsMapFacts.get_None_notin in Hn. congruence.
  - split; [discriminate |]. intros Hin.
    apply JsMapFacts.get_None_notin in E. contradiction.
Qed.

Lemma length_set k v m :
  length (JsMap.set k v m) = if JsMap.has k m then length m else S (length m).
Proof.
  unfold JsMap.has.
  induction m as [| [k' v'] m IH]; simpl; [reflexivity |].
  destruct (decide (k = k')); simpl; [reflexivity |].
  rewrite IH. destruct (JsMap.get k m); reflexivity.
Qed.

Lemma get_delete_eq k m : JsMap.get k (JsMap.delete k m) = None.
Proof.
  induction m as [| [k' v'] m IH]; simpl; [reflexivity |].
  destruct (decide (k = k')); simpl; [exact IH |].
  destruct (decide (k = k')); [contradiction | exact IH].
Qed.

Lemma get_delete_ne k k' m : k <> k' -> JsMap.get k' (JsMap.delete k m) = JsMap.get k' m.
Proof.
  intros Hne. induction m as [| [k0 v0] m IH]; simpl; [reflexivity |].
  destruct (decide (k = k0)) as [-> | Hk].
  - destruct (decide (k' = k0)); [congruence | exact IH].
  - simpl. destruct (decide (k' = k0)); [reflexivity | exact IH].
Qed.

Lemma length_delete k m :
  NoDup (JsMap.keys m) ->
  length (JsMap.delete k m) = if JsMap.has k m then (length m - 1)%nat else length m.
Proof.
  intros Hnd. induction m as [| [k0 v0] m IH]; simpl; [reflexivity |].
  simpl in Hnd. apply NoDup_cons in Hnd as [Hk0 Hnd].
  unfold JsMap.has. simpl.
  destruct (decide (k = k0)) as [-> | Hk].
  - rewrite JsMapFacts.delete_absent by exact Hk0. lia.
  - simpl. rewrite (IH Hnd). unfold JsMap.has.
    destruct (JsMap.get k m) eqn:E; [| reflexivity].
    assert (Hin : k ∈ JsMap.keys m).
    { apply has_true_in. unfold JsMap.has. rewrite E. reflexivity. }
    destruct m; [apply elem_of_nil in Hin; contradiction | simpl; lia].
Qed.

Lemma keys_delete k m : JsMap.keys (JsMap.delete k m) = filter (fun k' => k' <> k) (JsMap.keys m).
Proof.
  induction m as [| [k0 v0] m IH]; simpl; [reflexivity |].
  rewrite filter_cons. simpl.
  destruct (decide (k = k0)) as [-> | Hk].
  - destruct (decide (k0 <> k0)); [contradiction | exact IH].
  - destruct (decide (k0 <> k)) as [| Hn]; [simpl; f_equal; exact IH |].
    exfalso. apply Hn. congruence.
Qed.

End Maps.

End JsMapLaws.


Module SaveSetFacts.
Import Js Memento SaveSets MementoFacts JsMapLaws.
Local Open Scope list_scope.


(** *** Saving, then loading *)

(** What [createMemento] puts into the memento: the originator's state
    with the constructor's clock reading written into it. *)
Lemma createMemento_state (o : GameOriginator) (saveName : string)
    (player : Entity.Player) (map : World.Map) (h : Host) (st : list (string * value)) :
  currentState o = Some st ->
  holds_game_state o ->
  exists memento,
    createMemento o saveName player map h = (Ok memento, later h 3 1)
    /\ id memento
       = VStr ("save_" ++ pretty (date_now h (ticks h)) ++ "_" ++ random_suffix h (draws h))
    /\ timestamp memento = date_now h (2 + ticks h)%nat
    /\ version memento = VStr (o_version o)
    /\ state memento = VObj (JsMap.set "timestamp" (VNum (timestamp memento)) st)
    /\ truthy (metadata memento) = true.
Proof.
  intros Hst (st' & playTime & Hst' & Hplay).
  rewrite Hst in Hst'. injection Hst' as <-.
  unfold createMemento. rewrite Hst.
  unfold bind, generateSaveId, bind, ret. simpl. rewrite Hplay.
  eexists. split; [reflexivity |].
  repeat split.
Qed.

Lemma truthy_prop_set_other (st : list (string * value)) (k k' : string) (x : value) :
  k <> k' -> truthy_prop (VObj (JsMap.set k x st)) k' = truthy_prop (VObj st) k'.
Proof.
  intros Hne. unfold truthy_prop, get_prop.
  rewrite JsMapFacts.get_set_ne by exact Hne. reflexivity.
Qed.

(** Such a memento is valid as soon as the clock reads a positive time. *)
Lemma created_memento_isValid (memento : GameMemento) (st : list (string * value))
    (saveId v : string) :
  id memento = VStr ("save_" ++ saveId) ->
  version memento = VStr v -> v <> "" ->
  0 < timestamp memento ->
  state memento = VObj (JsMap.set "timestamp" (VNum (timestamp memento)) st) ->
  truthy (metadata memento) = true ->
  truthy_prop (VObj st) "player" = true ->
  truthy_prop (VObj st) "map" = true ->
  truthy_prop (VObj st) "inventory" = true ->
  isValid memento = true.
Proof.
  intros Hid Hv Hne Hts Hstate Hmd Hp Hm Hi.
  unfold isValid. rewrite Hid, Hv, Hstate, Hmd.
  rewrite !truthy_prop_set_other by discriminate.
  rewrite Hp, Hm, Hi. simpl.
  apply Z.ltb_lt in Hts. rewrite Hts.
  destruct (String.eqb v "") eqn:E; [| reflexivity].
  apply String.eqb_eq in E. contradiction.
Qed.

(** With room left in the save set, filing a memento just adds it. *)
Lemma filed_with_room (c : GameCaretaker) (memento : GameMemento) :
  getSaveCount c < maxSaves c ->
  filed c memento = with_mementos c (JsMap.set (id memento) memento (mementos c)).
Proof.
  intros Hroom. unfold filed, cleanupOldSaves. cbn [mementos maxSaves with_mementos].
  unfold getSaveCount, JsMap.size in *.
  rewrite length_set.
  destruct (_ <=? _) eqn:E; [reflexivity |].
  apply Z.leb_gt in E. destruct (JsMap.has _ _); lia.
Qed.

(** X1.  A caretaker with room left, whose originator holds a state with
    player, map and inventory, on a host whose clock reads a positive
    time: [saveGame] returns a memento, and [loadGame] with that memento's
    id returns the saved state -- the originator's state with the save's
    timestamp written into it -- and makes it the originator's current
    state; the save set still holds the memento. *)
Theorem loadGame_after_saveGame :
  forall (c : GameCaretaker) (h : Host) (saveName : string)
         (player : Entity.Player) (map : World.Map) (st : list (string * value)),
    currentState (originator c) = Some st ->
    holds_game_state (originator c) ->
    truthy_prop (VObj st) "player" = true ->
    truthy_prop (VObj st) "map" = true ->
    truthy_prop (VObj st) "inventory" = true ->
    o_version (originator c) = "1.0.0" ->
    0 < date_now h (2 + ticks h)%nat ->
    getSaveCount c < maxSaves c ->
    exists m r1 r2,
      saveGame saveName player map (mkRuntime h c) = (Ok m, r1)
      /\ loadGame (id m) r1 = (Ok (getState m), r2)
      /\ getState m = VObj (JsMap.set "timestamp" (VNum (timestamp m)) st)
      /\ timestamp m = date_now h (2 + ticks h)%nat
      /\ currentState (originator (caretaker r2))
         = Some (JsMap.set "timestamp" (VNum (timestamp m)) st)
      /\ mementos (caretaker r2) = mementos (caretaker r1)
      /\ getSave (caretaker r2) (id m) = Some m.
Proof.
  intros c h saveName player map st Hst Hgame Hp Hm Hi Hver Hclock Hroom.
  destruct (createMemento_state (originator c) saveName player map h st Hst Hgame)
    as (m & Hrun & Hid & Hts & Hv & Hstate & Hmd).
  assert (Hvalid : isValid m = true).
  { eapply created_memento_isValid; eauto.
    - rewrite Hver. discriminate.
    - rewrite Hts. exact Hclock. }
  assert (Hcompat : isCompatible m (o_version (originator c)) = true).
  { unfold isCompatible. rewrite Hv. apply bool_decide_eq_true. reflexivity. }
  assert (Hsave : saveGame saveName player map (mkRuntime h c)
                  = (Ok m, mkRuntime (later h 3 1) (filed c m))).
  { unfold saveGame, bind, get, on_host. cbn [host caretaker]. rewrite Hrun. reflexivity. }
  rewrite (filed_with_room c m Hroom) in Hsave.
  eexists m, _, _. split; [exact Hsave |].
  unfold loadGame. cbn [caretaker mementos with_mementos originator host].
  rewrite JsMapFacts.get_set_eq.
  unfold restoreFromMemento. rewrite Hvalid, Hcompat. cbn [negb].
  split; [reflexivity |].
  cbn [caretaker originator currentState mementos maxSaves autoSaveInterval lastAutoSave].
  unfold getState, getSave. rewrite Hstate. cbn [spread mementos].
  rewrite <- Hts, JsMapFacts.get_set_eq. repeat split; reflexivity.
Qed.

(** A save on a new caretaker at clock reading 1000, loaded again. *)
Lemma loadGame_after_saveGame_witness :
  exists m r1 r2,
    saveGame "S1" Command.hero World.meadow
      (mkRuntime (ticking 1000 1) (new_GameCaretaker sample_originator)) = (Ok m, r1)
    /\ loadGame (id m) r1 = (Ok (getState m), r2)
    /\ getState m = VObj (JsMap.set "timestamp" (VNum (timestamp m)) (spread sample_state))
    /\ timestamp m = date_now (ticking 1000 1) (2 + ticks (ticking 1000 1))%nat
    /\ currentState (originator (caretaker r2))
       = Some (JsMap.set "timestamp" (VNum (timestamp m)) (spread sample_state))
    /\ mementos (caretaker r2) = mementos (caretaker r1)
    /\ getSave (caretaker r2) (id m) = Some m.
Proof.
  apply (loadGame_after_saveGame (new_GameCaretaker sample_originator) (ticking 1000 1)
           "S1" Command.hero World.meadow (spread sample_state)).
  - reflexivity.
  - exists (spread sample_state), (VNum 4200). split; reflexivity.
  - reflexivity.
  - reflexivity.
  - reflexivity.
  - reflexivity.
  - vm_compute. reflexivity.
  - vm_compute. reflexivity.
Defined.

(** *** Loading that fails *)

Lemma loadGame_cases (saveId : value) (r : Runtime) :
  loadGame saveId r
  = match getSave (caretaker r) saveId with
    | None => (Throw ("Save not found: " ++ to_String saveId), r)
    | Some m =>
        if negb (isValid m) then (Throw "Invalid memento data", r)
        else if negb (isCompatible m (o_version (originator (caretaker r))))
        then (Throw ("Incompatible save version: " ++ to_String (version m)), r)
        else (Ok (getState m),
              mkRuntime (host r)
                {| mementos := mementos (caretaker r);
                   originator := {| currentState := Some (spread (state m));
                                    o_version := o_version (originator (caretaker r)) |};
                   maxSaves := maxSaves (caretaker r);
                   autoSaveInterval := autoSaveInterval (caretaker r);
                   lastAutoSave := lastAutoSave (caretaker r) |})
    end.
Proof.
  unfold loadGame, getSave, restoreFromMemento.
  destruct r as [h [ms o mx iv la]]. cbn [caretaker host mementos originator
    maxSaves autoSaveInterval lastAutoSave].
  destruct (JsMap.get saveId ms) as [m |]; [| reflexivity].
  destruct (isValid m); cbn [negb]; [| reflexivity].
  destruct (isCompatible m (o_version o)); reflexivity.
Qed.

(** X2.  [loadGame] that throws has changed nothing: the host, the save
    set, the originator's state and the settings are as before.  It throws
    for an id that is not in the save set, for a memento that is not
    valid, and for one of another version; and in no case does it change
    the save set. *)
Theorem loadGame_failure_changes_nothing :
  forall (saveId : value) (r : Runtime),
    (forall e r', loadGame saveId r = (Throw e, r') -> r' = r)
    /\ (getSave (caretaker r) saveId = None ->
          loadGame saveId r = (Throw ("Save not found: " ++ to_String saveId), r))
    /\ (forall m, getSave (caretaker r) saveId = Some m -> isValid m = false ->
          loadGame saveId r = (Throw "Invalid memento data", r))
    /\ (forall m, getSave (caretaker r) saveId = Some m -> isValid m = true ->
          version m <> VStr (o_version (originator (caretaker r))) ->
          loadGame saveId r
          = (Throw ("Incompatible save version: " ++ to_String (version m)), r))
    /\ mementos (caretaker (snd (loadGame saveId r))) = mementos (caretaker r).
Proof.
  intros saveId r. rewrite loadGame_cases.
  destruct (getSave (caretaker r) saveId) as [m |] eqn:Eg.
  - destruct (isValid m) eqn:Ev; cbn [negb].
    + destruct (isCompatible m (o_version (originator (caretaker r)))) eqn:Ec; cbn [negb].
      * split; [intros e r' Heq; discriminate Heq |].
        split; [intros Hnone; discriminate Hnone |].
        split; [intros m' Hm Hv; injection Hm as <-; congruence |].
        split; [| reflexivity].
        intros m' Hm _ Hne. injection Hm as <-.
        unfold isCompatible in Ec. apply bool_decide_eq_true in Ec. contradiction.
      * split; [intros e r' Heq; injection Heq as _ <-; reflexivity |].
        split; [intros Hnone; discriminate Hnone |].
        split; [intros m' Hm Hv; injection Hm as <-; congruence |].
        split; [| reflexivity].
        intros m' Hm _ _. injection Hm as <-. reflexivity.
    + split; [intros e r' Heq; injection Heq as _ <-; reflexivity |].
      split; [intros Hnone; discriminate Hnone |].
      split; [intros m' Hm Hv; reflexivity |].
      split; [| reflexivity].
      intros m' Hm Hv _. injection Hm as <-. congruence.
  - split; [intros e r' Heq; injection Heq as _ <-; reflexivity |].
    split; [intros _; reflexivity |].
    split; [intros m' Hm; discriminate Hm |].
    split; [| reflexivity].
    intros m' Hm. discriminate Hm.
Qed.

(** *** The latest save *)

Lemma latest_split (rest : list GameMemento) :
  forall first,
    exists before after,
      first :: rest = before ++ fold_left later_of rest first :: after
      /\ Forall (fun x => timestamp x < timestamp (fold_left later_of rest first)) before
      /\ Forall (fun x => timestamp x <= timestamp (fold_left later_of rest first)) after.
Proof.
  induction rest as [| x rest IH]; intros first; simpl.
  - exists [], []. repeat split; constructor.
  - destruct (IH (later_of first x)) as (before & after & Heq & Hb & Ha).
    set (r := fold_left later_of rest (later_of first x)) in *.
    unfold later_of in Heq at 1.
    destruct (timestamp first <? timestamp x) eqn:E.
    + apply Z.ltb_lt in E.
      exists (first :: before), after. split; [simpl; f_equal; exact Heq |].
      split; [| exact Ha]. constructor; [| exact Hb].
      destruct before as [| b before]; simpl in Heq.
      * injection Heq as Hx _. rewrite <- Hx. exact E.
      * injection Heq as Hx _. subst b. apply Forall_cons in Hb as [Hb _]. lia.
    + apply Z.ltb_ge in E.
      destruct before as [| b before]; simpl in Heq.
      * injection Heq as Hr Hrest.
        exists [], (x :: after). split; [simpl; rewrite <- Hr, Hrest; reflexivity |].
        split; [constructor |]. constructor; [rewrite <- Hr; exact E | exact Ha].
      * injection Heq as Hb' Hrest. subst b.
        apply Forall_cons in Hb as [Hf Hb].
        exists (first :: x :: before), after.
        split; [simpl; rewrite Hrest; reflexivity |].
        split; [| exact Ha]. constructor; [exact Hf |]. constructor; [lia | exact Hb].
Qed.

(** X3.  [getLatestSave] answers null exactly on an empty save set.
    Otherwise it answers a stored memento that no stored memento is newer
    than, and among several of that timestamp the one stored first: every
    memento before it in the save set is strictly older. *)
Theorem getLatestSave_newest_first_stored :
  forall c : GameCaretaker,
    (getLatestSave c = None <-> getSaveCount c = 0)
    /\ forall m, getLatestSave c = Some m ->
         exists before after,
           JsMap.values (mementos c) = before ++ m :: after
           /\ Forall (fun x => timestamp x < timestamp m) before
           /\ Forall (fun x => timestamp x <= timestamp m) after.
Proof.
  intros c. unfold getLatestSave, getSaveCount, JsMap.size, JsMap.values.
  destruct (mementos c) as [| [k first] rest]; simpl.
  - split; [split; reflexivity | discriminate].
  - split; [split; [discriminate | lia] |].
    intros m Hm. injection Hm as <-.
    apply (latest_split (map snd rest) first).
Qed.

(** On the two saves the small caretaker keeps (timestamps 1005 and 1008)
    the latest is the second. *)
Lemma getLatestSave_example :
  option_map timestamp (getLatestSave two_saves) = Some 1008
  /\ map timestamp (JsMap.values (mementos two_saves)) = [1005; 1008].
Proof. vm_compute. split; reflexivity. Qed.

(** *** Limits *)

(** X4.  [setMaxSaves] sets the limit to the given number but at least 1,
    and prunes at once: of a save set with distinct ids it keeps the
    smaller of the old count and the new limit, all of them saves that
    were there, and removes nothing newer than something it keeps.  So
    [setMaxSaves(0)] leaves one save, a newest one. *)
Theorem setMaxSaves_prunes_at_once :
  forall (c : GameCaretaker) (max : Z),
    NoDup (JsMap.keys (mementos c)) ->
    maxSaves (setMaxSaves c max) = Z.max 1 max
    /\ getSaveCount (setMaxSaves c max) = Z.min (getSaveCount c) (Z.max 1 max)
    /\ (forall e, e ∈ mementos (setMaxSaves c max) -> e ∈ mementos c)
    /\ (forall gone kept,
          gone ∈ mementos c -> gone ∉ mementos (setMaxSaves c max) ->
          kept ∈ mementos (setMaxSaves c max) ->
          timestamp (snd gone) <= timestamp (snd kept)).
Proof.
  intros c max Hnd. unfold setMaxSaves.
  set (c1 := {| mementos := mementos c; originator := originator c;
                maxSaves := Z.max 1 max; autoSaveInterval := autoSaveInterval c;
                lastAutoSave := lastAutoSave c |}).
  destruct (EvictionFacts.cleanupOldSaves_oldest_first c1) as (Hsub & Hcount & Hold).
  { exact Hnd. }
  { simpl. lia. }
  split; [| split; [exact Hcount | split; [exact Hsub | exact Hold]]].
  unfold cleanupOldSaves. destruct (_ <=? _); reflexivity.
Qed.

Lemma two_saves_keys :
  JsMap.keys (mementos two_saves) = [VStr "save_1003_1"; VStr "save_1006_2"].
Proof. vm_compute. reflexivity. Qed.

(** The limit of the two-save caretaker lowered to 0. *)
Lemma setMaxSaves_prunes_at_once_witness :
  maxSaves (setMaxSaves two_saves 0) = Z.max 1 0
  /\ getSaveCount (setMaxSaves two_saves 0) = Z.min (getSaveCount two_saves) (Z.max 1 0)
  /\ (forall e, e ∈ mementos (setMaxSaves two_saves 0) -> e ∈ mementos two_saves)
  /\ (forall gone kept,
        gone ∈ mementos two_saves -> gone ∉ mementos (setMaxSaves two_saves 0) ->
        kept ∈ mementos (setMaxSaves two_saves 0) ->
        timestamp (snd gone) <= timestamp (snd kept)).
Proof.
  apply (setMaxSaves_prunes_at_once two_saves 0).
  rewrite two_saves_keys.
  apply NoDup_cons. split; [| apply NoDup_singleton].
  intros Hin. apply list_elem_of_singleton in Hin. discriminate Hin.
Defined.

(** *** Deleting *)

(** X5.  [deleteSave] answers whether the id was in the save set.
    Afterwards the id is not in it, every other id leads to the memento it
    led to before, and the count has gone down by one exactly when the
    answer is true. *)
Theorem deleteSave_removes_that_save_only :
  forall (c : GameCaretaker) (saveId : value),
    NoDup (JsMap.keys (mementos c)) ->
    let found := fst (deleteSave c saveId) in
    let c' := snd (deleteSave c saveId) in
    found = hasSave c saveId
    /\ hasSave c' saveId = false
    /\ getSave c' saveId = None
    /\ (forall other, other <> saveId -> getSave c' other = getSave c other)
    /\ getSaveCount c' = getSaveCount c - (if found then 1 else 0)
    /\ NoDup (JsMap.keys (mementos c')).
Proof.
  intros c saveId Hnd found c'. unfold found, c', deleteSave, hasSave, getSave, getSaveCount.
  cbn [fst snd mementos with_mementos].
  split; [reflexivity |].
  split; [unfold JsMap.has; rewrite get_delete_eq; reflexivity |].
  split; [apply get_delete_eq |].
  split; [intros other Hne; apply get_delete_ne; congruence |].
  split.
  - unfold JsMap.size. rewrite length_delete by exact Hnd.
    destruct (JsMap.has saveId (mementos c)) eqn:E; [| lia].
    apply has_true_in in E. destruct (mementos c); [apply elem_of_nil in E; contradiction |].
    simpl. lia.
  - rewrite keys_delete. apply NoDup_filter, Hnd.
Qed.

Lemma deleteSave_removes_that_save_only_witness :
  let found := fst (deleteSave two_saves (VStr "save_1003_1")) in
  let c' := snd (deleteSave two_saves (VStr "save_1003_1")) in
  found = hasSave two_saves (VStr "save_1003_1")
  /\ hasSave c' (VStr "save_1003_1") = false
  /\ getSave c' (VStr "save_1003_1") = None
  /\ (forall other, other <> VStr "save_1003_1" -> getSave c' other = getSave two_saves other)
  /\ getSaveCount c' = getSaveCount two_saves - (if found then 1 else 0)
  /\ NoDup (JsMap.keys (mementos c')).
Proof.
  apply (deleteSave_removes_that_save_only two_saves (VStr "save_1003_1")).
  rewrite two_saves_keys.
  apply NoDup_cons. split; [| apply NoDup_singleton].
  intros Hin. apply list_elem_of_singleton in Hin. discriminate Hin.
Defined.

(** *** Auto-save settings and failures *)

(** X6.  Whatever interval [setAutoSaveInterval] is given, the interval in
    force is at least one minute: an [autoSave] less than 60000 ms after
    the last auto-save returns null and leaves the caretaker as it is. *)
Theorem autoSave_interval_is_a_minute_at_least :
  forall (c : GameCaretaker) (interval : Z) (h : Host)
         (player : Entity.Player) (map : World.Map),
    date_now h (ticks h) - lastAutoSave c < 60000 ->
    60000 <= autoSaveInterval (setAutoSaveInterval c interval)
    /\ autoSave player map (mkRuntime h (setAutoSaveInterval c interval))
       = (Ok None, mkRuntime (later h 1 0) (setAutoSaveInterval c interval)).
Proof.
  intros c interval h player map Hsoon.
  split; [simpl; lia |].
  apply (autoSave_throttled player map (mkRuntime h (setAutoSaveInterval c interval))).
  simpl. lia.
Qed.

(** An interval of one second asked for, and a second auto-save 30
    seconds after the first. *)
Lemma autoSave_interval_is_a_minute_at_least_witness :
  60000 <= autoSaveInterval
             (setAutoSaveInterval
                (with_lastAutoSave (new_GameCaretaker sample_originator) 400000) 1000)
  /\ autoSave Command.hero World.meadow
       (mkRuntime (ticking 430000 1)
          (setAutoSaveInterval
             (with_lastAutoSave (new_GameCaretaker sample_originator) 400000) 1000))
     = (Ok None,
        mkRuntime (later (ticking 430000 1) 1 0)
          (setAutoSaveInterval
             (with_lastAutoSave (new_GameCaretaker sample_originator) 400000) 1000)).
Proof.
  apply (autoSave_interval_is_a_minute_at_least
           (with_lastAutoSave (new_GameCaretaker sample_originator) 400000) 1000
           (ticking 430000 1) Command.hero World.meadow).
  vm_compute. reflexivity.
Defined.

(** X7.  While the originator holds no state, [saveGame] throws and
    changes nothing, not even reading the clock.  An [autoSave] that is
    due throws the same error, but only after it has moved the time of the
    last auto-save to now: once a state is there, an [autoSave] within the
    interval of the failed one still returns null, although nothing has
    been saved. *)
Theorem autoSave_that_fails_still_counts :
  forall (c : GameCaretaker) (h : Host) (player : Entity.Player) (map : World.Map),
    currentState (originator c) = None ->
    let now := date_now h (ticks h) in
    (forall saveName,
       saveGame saveName player map (mkRuntime h c)
       = (Throw "No current game state to save", mkRuntime h c))
    /\ (autoSaveInterval c <= now - lastAutoSave c ->
          autoSave player map (mkRuntime h c)
          = (Throw "No current game state to save",
             mkRuntime (later h 1 0) (with_lastAutoSave c now))
          /\ forall (st : value) (c' : GameCaretaker),
               c' = {| mementos := mementos c;
                       originator := setState (originator c) st;
                       maxSaves := maxSaves c; autoSaveInterval := autoSaveInterval c;
                       lastAutoSave := now |} ->
               date_now h (S (ticks h)) - now < autoSaveInterval c ->
               autoSave player map (mkRuntime (later h 1 0) c')
               = (Ok None, mkRuntime (later h 2 0) c')).
Proof.
  intros c h player map Hnone now.
  assert (Hsave : forall saveName h' c',
            originator c' = originator c ->
            saveGame saveName player map (mkRuntime h' c')
            = (Throw "No current game state to save", mkRuntime h' c')).
  { intros saveName h' c' Ho. unfold saveGame, bind, get, on_host.
    cbn [host caretaker]. unfold createMemento. rewrite Ho, Hnone. reflexivity. }
  split; [intros saveName; apply Hsave; reflexivity |].
  intros Hdue. split.
  - rewrite autoSave_unfold. cbv zeta. cbn [host caretaker]. fold now.
    apply Z.ltb_ge in Hdue. rewrite Hdue.
    rewrite Hsave by reflexivity. reflexivity.
  - intros st c' -> Hsoon.
    apply (autoSave_throttled player map
             (mkRuntime (later h 1 0)
                {| mementos := mementos c; originator := setState (originator c) st;
                   maxSaves := maxSaves c; autoSaveInterval := autoSaveInterval c;
                   lastAutoSave := now |})).
    exact Hsoon.
Qed.

(** A new caretaker without a state: the auto-save at 400000 fails; with a
    state set, the one at 400001 does nothing. *)
Lemma autoSave_that_fails_still_counts_witness :
  let c := new_GameCaretaker new_GameOriginator in
  let h := ticking 400000 1 in
  (forall saveName,
     saveGame saveName Command.hero World.meadow (mkRuntime h c)
     = (Throw "No current game state to save", mkRuntime h c))
  /\ (autoSaveInterval c <= 400000 - lastAutoSave c ->
        autoSave Command.hero World.meadow (mkRuntime h c)
        = (Throw "No current game state to save",
           mkRuntime (later h 1 0) (with_lastAutoSave c 400000))
        /\ forall (st : value) (c' : GameCaretaker),
             c' = {| mementos := mementos c;
                     originator := setState (originator c) st;
                     maxSaves := maxSaves c; autoSaveInterval := autoSaveInterval c;
                     lastAutoSave := 400000 |} ->
             date_now h (S (ticks h)) - 400000 < autoSaveInterval c ->
             autoSave Command.hero World.meadow (mkRuntime (later h 1 0) c')
             = (Ok None, mkRuntime (later h 2 0) c')).
Proof.
  intros c h.
  apply (autoSave_that_fails_still_counts c h Command.hero World.meadow).
  reflexivity.
Defined.

End SaveSetFacts.


(** ** Export and import *)

Module ExportFacts.
Import Js Memento SaveSets MementoFacts JsMapLaws SaveSetFacts.
Local Open Scope list_scope.

Lemma later_later (h : Host) (n : nat) : later (later h 1 0) n 0 = later h (S n) 0.
Proof. unfold later. simpl. f_equal. lia. Qed.

Lemma later_zero (h : Host) : later h 0 0 = h.
Proof. destruct h; reflexivity. Qed.

(** A valid memento's state is an object, and stays valid when rebuilt at
    a positive clock reading. *)
Lemma isValid_restamp (now : Z) (m : GameMemento) :
  isValid m = true -> 0 < now -> isValid (restamp now m) = true.
Proof.
  intros Hvalid Hnow. unfold isValid in Hvalid. rewrite !andb_true_iff in Hvalid.
  destruct Hvalid as [[[[[[[Hid _] Hv] Hst] Hmd] Hp] Hm] Hi].
  unfold isValid.
  cbn [restamp id timestamp version state metadata].
  apply Z.ltb_lt in Hnow. rewrite Hid, Hv, Hnow.
  destruct (state m) as [| | b | n | s | items | fields]; try discriminate Hp.
  unfold spread_with. cbn [spread truthy].
  rewrite !truthy_prop_set_other by discriminate.
  rewrite Hp, Hm, Hi. reflexivity.
Qed.

Section WithJson.
Variable JSON_parse : value -> option value.
Variable JSON_stringify : value -> string.

(** One exported entry, imported: the memento is rebuilt at the clock's
    reading and filed under its id. *)
Lemma import_exported_entry (m : GameMemento) (r : Runtime) :
  JSON_parse (VStr (toJSON JSON_stringify m)) = Some (payload m) ->
  isValid m = true ->
  0 < date_now (host r) (ticks (host r)) ->
  import_entry JSON_parse (VStr (toJSON JSON_stringify m)) r
  = (Ok tt,
     mkRuntime (later (host r) 1 0)
       (with_mementos (caretaker r)
          (JsMap.set (id m) (restamp (date_now (host r) (ticks (host r))) m)
             (mementos (caretaker r))))).
Proof.
  intros Hparse Hvalid Hnow.
  assert (Hfrom : fromJSON JSON_parse (VStr (toJSON JSON_stringify m)) (host r)
                  = (Ok (restamp (date_now (host r) (ticks (host r))) m),
                     later (host r) 1 0)).
  { unfold payload in Hparse.
    rewrite (JsonFacts.fromJSON_object JSON_parse _ _ (host r) Hparse).
    cbn [JsMap.get]. simpl. rewrite new_GameMemento_run.
    pose proof (JsonFacts.isValid_version m Hvalid) as Hv.
    unfold restamp. destruct (version m); try reflexivity. contradiction. }
  rewrite JsonFacts.import_entry_run, Hfrom.
  rewrite (isValid_restamp _ m Hvalid Hnow). reflexivity.
Qed.

Lemma ids_restamp_all (l : list GameMemento) :
  forall h, map id (restamp_all h l) = map id l.
Proof. induction l as [| m l IH]; intros h; simpl; [reflexivity | rewrite IH; reflexivity]. Qed.

Lemma length_restamp_all (l : list GameMemento) :
  forall h, length (restamp_all h l) = length l.
Proof. induction l as [| m l IH]; intros h; simpl; [reflexivity | rewrite IH; reflexivity]. Qed.

(** The exported entries of a run of valid mementos with ids of their
    own, imported in turn. *)
Lemma import_exported_entries (l : list GameMemento) :
  forall (r : Runtime) (done : list GameMemento),
    mementos (caretaker r) = entries done ->
    NoDup (map id (done ++ l)) ->
    (forall m, m ∈ l -> JSON_parse (VStr (toJSON JSON_stringify m)) = Some (payload m)) ->
    (forall m, m ∈ l -> isValid m = true) ->
    (forall n, 0 < date_now (host r) n) ->
    snd (for_each (import_entry JSON_parse)
           (map (fun m => VStr (toJSON JSON_stringify m)) l) r)
    = mkRuntime (later (host r) (length l) 0)
        (with_mementos (caretaker r) (entries (done ++ restamp_all (host r) l))).
Proof.
  induction l as [| m l IH]; intros r done Hdone Hnd Hparse Hvalid Hclock.
  - simpl. rewrite later_zero, app_nil_r, <- Hdone.
    destruct r as [h c]. destruct c. reflexivity.
  - cbn [map]. rewrite JsonFacts.for_each_import_cons.
    rewrite import_exported_entry;
      [| apply Hparse; left | apply Hvalid; left | apply Hclock].
    cbn [snd].
    set (m' := restamp (date_now (host r) (ticks (host r))) m).
    assert (Hfresh : id m ∉ JsMap.keys (entries done)).
    { rewrite EvictionFacts.keys_entries. rewrite map_app in Hnd.
      apply NoDup_app in Hnd as (_ & Hdisj & _).
      intros Hin. apply (Hdisj (id m) Hin). simpl. left. }
    rewrite Hdone, JsMapFacts.set_absent by exact Hfresh.
    change (entries done ++ [(id m, m')]) with (entries done ++ entries [m']).
    rewrite <- EvictionFacts.entries_app.
    rewrite (IH _ (done ++ [m'])).
    + cbn [host caretaker with_mementos originator maxSaves autoSaveInterval lastAutoSave
           mementos].
      rewrite later_later. cbn [length restamp_all].
      rewrite <- app_assoc. reflexivity.
    + reflexivity.
    + rewrite <- app_assoc. cbn [app]. rewrite !map_app in *. exact Hnd.
    + intros x Hx. apply Hparse. right. exact Hx.
    + intros x Hx. apply Hvalid. right. exact Hx.
    + intros n. apply Hclock.
Qed.

End WithJson.

(** X8.  What one caretaker exports, another with an empty save set and
    room for it imports completely, provided the JSON functions give back
    what was serialised, the saves are valid with ids of their own, and
    the clock reads positive times: the save set then holds the same ids
    in the same order, each with its memento rebuilt -- same id and
    version, same state and metadata except for the timestamp, which is
    the clock's reading when the entry was imported. *)
Theorem importSaves_of_exportAllSaves :
  forall (JSON_parse : value -> option value) (JSON_stringify : value -> string)
         (c target : GameCaretaker) (h : Host),
    let saves := JsMap.values (mementos c) in
    JSON_parse (VStr (exportAllSaves JSON_stringify c))
    = Some (VArr (map (fun m => VStr (toJSON JSON_stringify m)) saves)) ->
    (forall m, m ∈ saves -> JSON_parse (VStr (toJSON JSON_stringify m)) = Some (payload m)) ->
    (forall m, m ∈ saves -> isValid m = true) ->
    NoDup (map id saves) ->
    (forall n, 0 < date_now h n) ->
    mementos target = [] ->
    getSaveCount c <= maxSaves target ->
    importSaves JSON_parse (exportAllSaves JSON_stringify c) (mkRuntime h target)
    = (Ok tt,
       mkRuntime (later h (length saves) 0)
         (with_mementos target (entries (restamp_all h saves))))
    /\ map id (restamp_all h saves) = map id saves
    /\ getSaveCount (with_mementos target (entries (restamp_all h saves)))
       = getSaveCount c.
Proof.
  intros JSON_parse JSON_stringify c target h saves Hdoc Hparse Hvalid Hnd Hclock
    Hempty Hroom.
  assert (Hcount : Z.of_nat (length (entries (restamp_all h saves))) = getSaveCount c).
  { unfold entries, getSaveCount, JsMap.size, saves, JsMap.values.
    rewrite length_map, length_restamp_all, length_map. reflexivity. }
  split; [| split; [apply ids_restamp_all | exact Hcount]].
  rewrite JsonFacts.importSaves_run, Hdoc. cbv zeta.
  rewrite (import_exported_entries JSON_parse JSON_stringify saves (mkRuntime h target) []);
    [| exact Hempty | exact Hnd | exact Hparse | exact Hvalid | exact Hclock].
  cbn [host caretaker app].
  f_equal. f_equal.
  unfold cleanupOldSaves. cbn [mementos maxSaves with_mementos].
  unfold JsMap.size. rewrite Hcount.
  destruct (_ <=? _) eqn:E; [reflexivity |].
  apply Z.leb_gt in E. lia.
Qed.

(** The two saves of the small caretaker, exported with the reference
    codec and imported into a new caretaker when the clock reads 7000 and
    7001. *)
Lemma importSaves_of_exportAllSaves_witness :
  let saves := JsMap.values (mementos two_saves) in
  let target := new_GameCaretaker new_GameOriginator in
  importSaves parse (exportAllSaves stringify two_saves) (mkRuntime (ticking 7000 1) target)
  = (Ok tt,
     mkRuntime (later (ticking 7000 1) (length saves) 0)
       (with_mementos target (entries (restamp_all (ticking 7000 1) saves))))
  /\ map id (restamp_all (ticking 7000 1) saves) = map id saves
  /\ getSaveCount (with_mementos target (entries (restamp_all (ticking 7000 1) saves)))
     = getSaveCount two_saves.
Proof.
  intros saves target.
  assert (Hsaves : exists a b, saves = [a; b] /\ id a <> id b
                               /\ parse (VStr (toJSON stringify a)) = Some (payload a)
                               /\ parse (VStr (toJSON stringify b)) = Some (payload b)
                               /\ isValid a = true /\ isValid b = true).
  { eexists _, _. split; [vm_compute; reflexivity |].
    split; [discriminate |]. repeat split; vm_compute; reflexivity. }
  destruct Hsaves as (a & b & Heq & Hne & Hpa & Hpb & Hva & Hvb).
  apply (importSaves_of_exportAllSaves parse stringify two_saves target (ticking 7000 1)).
  - vm_compute. reflexivity.
  - fold saves. rewrite Heq. intros m Hm.
    apply elem_of_cons in Hm as [-> | Hm]; [exact Hpa |].
    apply list_elem_of_singleton in Hm as ->. exact Hpb.
  - fold saves. rewrite Heq. intros m Hm.
    apply elem_of_cons in Hm as [-> | Hm]; [exact Hva |].
    apply list_elem_of_singleton in Hm as ->. exact Hvb.
  - fold saves. rewrite Heq. simpl.
    apply NoDup_cons. split; [| apply NoDup_singleton].
    intros Hin. apply list_elem_of_singleton in Hin. contradiction.
  - intros n. simpl. lia.
  - reflexivity.
  - vm_compute. discriminate.
Defined.

(** The same import, evaluated: both ids are back, stamped 7000 and 7001
    instead of 1005 and 1008. *)
Lemma importSaves_of_exportAllSaves_example :
  let r' := snd (importSaves parse (exportAllSaves stringify two_saves)
                   (mkRuntime (ticking 7000 1) (new_GameCaretaker new_GameOriginator))) in
  JsMap.keys (mementos (caretaker r')) = JsMap.keys (mementos two_saves)
  /\ map timestamp (JsMap.values (mementos (caretaker r'))) = [7000; 7001]
  /\ map timestamp (JsMap.values (mementos two_saves)) = [1005; 1008].
Proof. vm_compute. repeat split; reflexivity. Qed.

End ExportFacts.


(** ** The inventory: capacity, stacks, the legacy items *)

Module InventoryLaws.
Import Inventory InventoryQueries.
Local Open Scope list_scope.

Lemma bool_decide_is_Some {A} (o : option A) :
  bool_decide (is_Some o) = match o with Some _ => true | None => false end.
Proof.
  destruct o.
  - apply bool_decide_eq_true. eauto.
  - apply bool_decide_eq_false. intros [x Hx]. discriminate Hx.
Qed.

Lemma length_delete_le {V} (k : string) (m : list (string * V)) :
  (length (JsMap.delete k m) <= length m)%nat.
Proof.
  induction m as [| [k' v'] m IH]; simpl; [lia |].
  destruct (decide (k = k')); simpl; lia.
Qed.

Lemma has_get {V} (k : string) (m : list (string * V)) (x : V) :
  JsMap.get k m = Some x -> JsMap.has k m = true.
Proof. unfold JsMap.has. intros ->. reflexivity. Qed.

(** *** Capacity *)

Lemma updateItemQuantity_capacity inv u q :
  currentCapacity (updateItemQuantity inv u q) <= currentCapacity inv
  /\ _maxCapacity (updateItemQuantity inv u q) = _maxCapacity inv.
Proof.
  unfold updateItemQuantity, currentCapacity, JsMap.size.
  destruct (JsMap.get u (_newItems inv)) as [i |] eqn:E; [| lia].
  destruct (q <=? 0); cbn [with_newItems _items _newItems _maxCapacity].
  - pose proof (length_delete_le u (_newItems inv)). lia.
  - rewrite JsMapLaws.length_set, (has_get _ _ _ E). lia.
Qed.

Lemma addItem_capacity inv item :
  currentCapacity inv <= _maxCapacity inv ->
  currentCapacity (snd (addItem inv item)) <= _maxCapacity inv
  /\ _maxCapacity (snd (addItem inv item)) = _maxCapacity inv.
Proof.
  intros Hcap. unfold addItem. rewrite bool_decide_is_Some.
  destruct (_items inv !! id item) as [existing |] eqn:El.
  - rewrite andb_false_r.
    destruct (_ <=? maxStack existing); [| auto].
    cbn [snd]. unfold currentCapacity. cbn [with_items _items _newItems _maxCapacity].
    rewrite map_size_insert_Some by eauto. auto.
  - rewrite andb_true_r.
    destruct (isFull inv) eqn:Ef; [auto |].
    cbn [snd]. unfold currentCapacity. cbn [with_items _items _newItems _maxCapacity].
    rewrite map_size_insert_None by exact El.
    unfold isFull, currentCapacity in Ef. apply Z.leb_gt in Ef. split; [lia | reflexivity].
Qed.

Lemma addItemInstance_capacity inv i :
  currentCapacity inv <= _maxCapacity inv ->
  currentCapacity (snd (addItemInstance inv i)) <= _maxCapacity inv
  /\ _maxCapacity (snd (addItemInstance inv i)) = _maxCapacity inv.
Proof.
  intros Hcap. unfold addItemInstance.
  destruct (isFull inv && negb (JsMap.has (Item.uniqueId i) (_newItems inv))) eqn:Eg.
  { cbn [snd]. auto. }
  assert (Hnew : currentCapacity
                   (with_newItems inv (JsMap.set (Item.uniqueId i) i (_newItems inv)))
                 <= _maxCapacity inv).
  { unfold currentCapacity, JsMap.size. cbn [with_newItems _items _newItems].
    rewrite JsMapLaws.length_set.
    destruct (JsMap.has (Item.uniqueId i) (_newItems inv)).
    - exact Hcap.
    - rewrite andb_true_r in Eg. unfold isFull in Eg. apply Z.leb_gt in Eg.
      unfold currentCapacity, JsMap.size in Eg. lia. }
  destruct (findItemByItemId inv (Item.id (Item.item i))) as [e |]; [| cbn [snd]; auto].
  destruct (Item.stackable (Item.item i)); [| cbn [snd]; auto].
  destruct (_ <=? Item.maxStack (Item.item i)); [| cbn [snd]; auto].
  cbn [snd].
  destruct (updateItemQuantity_capacity inv (Item.uniqueId e)
              (Item.quantity e + Item.quantity i)) as [Hle Hmax].
  split; [| exact Hmax].
  change (currentCapacity (updateItemQuantity inv (Item.uniqueId e)
                             (Item.quantity e + Item.quantity i)) <= _maxCapacity inv).
  lia.
Qed.

Lemma removeItem_capacity inv itemId q :
  currentCapacity (snd (removeItem inv itemId q)) <= currentCapacity inv
  /\ _maxCapacity (snd (removeItem inv itemId q)) = _maxCapacity inv.
Proof.
  unfold removeItem.
  destruct (_items inv !! itemId) as [item |] eqn:El; [| cbn [snd]; lia].
  destruct (quantity item <=? q); cbn [snd]; unfold currentCapacity;
    cbn [with_items _items _newItems _maxCapacity].
  - rewrite map_size_delete_Some by eauto. lia.
  - rewrite map_size_insert_Some by eauto. lia.
Qed.

Lemma removeItemInstance_capacity inv u q :
  currentCapacity (snd (removeItemInstance inv u q)) <= currentCapacity inv
  /\ _maxCapacity (snd (removeItemInstance inv u q)) = _maxCapacity inv.
Proof.
  unfold removeItemInstance.
  destruct (JsMap.get u (_newItems inv)) as [i |] eqn:E; [| cbn [snd]; lia].
  destruct (Item.quantity i <=? q); cbn [snd].
  - unfold currentCapacity, JsMap.size.
    cbn [emitInventoryEvent with_newItems _items _newItems _maxCapacity].
    pose proof (length_delete_le u (_newItems inv)). lia.
  - apply (updateItemQuantity_capacity inv u (Item.quantity i - q)).
Qed.

Lemma perform_capacity inv op :
  currentCapacity inv <= _maxCapacity inv ->
  currentCapacity (perform inv op) <= _maxCapacity inv
  /\ _maxCapacity (perform inv op) = _maxCapacity inv.
Proof.
  intros Hcap. destruct op; cbn [perform].
  - apply addItem_capacity, Hcap.
  - apply addItemInstance_capacity, Hcap.
  - unfold addItemById.
    destruct (Item.ItemFactory_createItemInstance itemId q stamp);
      [apply addItemInstance_capacity, Hcap | cbn [snd]; auto].
  - pose proof (removeItem_capacity inv itemId q). lia.
  - pose proof (removeItemInstance_capacity inv uniqueId q). lia.
  - unfold removeItemById.
    destruct (findItemByItemId inv itemId) as [i |]; [| cbn [snd]; auto].
    pose proof (removeItemInstance_capacity inv (Item.uniqueId i) q). lia.
  - auto.
  - unfold removeGold. destruct (amount <=? _gold inv); cbn [snd]; auto.
  - unfold clear, currentCapacity in *. cbn [with_gold with_items _items _newItems _maxCapacity].
    rewrite map_size_empty. split; [lia | reflexivity].
Qed.

(** X9.  The slots in use never exceed the capacity: an operation on an
    inventory within its capacity leaves it within its capacity, and the
    capacity itself is never changed; so after any sequence of operations
    on a new inventory of non-negative capacity, [currentCapacity] is at
    most [maxCapacity]. *)
Theorem capacity_is_never_exceeded :
  forall (maxCapacity : Z) (ops : list Operation),
    0 <= maxCapacity ->
    currentCapacity (perform_all ops (new_InventoryComponent maxCapacity)) <= maxCapacity
    /\ _maxCapacity (perform_all ops (new_InventoryComponent maxCapacity)) = maxCapacity
    /\ forall inv op,
         currentCapacity inv <= _maxCapacity inv ->
         currentCapacity (perform inv op) <= _maxCapacity (perform inv op).
Proof.
  intros maxCapacity ops Hmax.
  assert (Hall : forall inv,
            currentCapacity inv <= _maxCapacity inv ->
            currentCapacity (perform_all ops inv) <= _maxCapacity inv
            /\ _maxCapacity (perform_all ops inv) = _maxCapacity inv).
  { unfold perform_all. induction ops as [| op ops IH]; intros inv Hcap; simpl; [auto |].
    destruct (perform_capacity inv op Hcap) as [Hc Hm].
    destruct (IH (perform inv op)) as [Hc' Hm']; [lia |].
    split; congruence. }
  destruct (Hall (new_InventoryComponent maxCapacity)) as [Hc Hm].
  { unfold currentCapacity, JsMap.size, JsMap.empty. simpl. rewrite map_size_empty. simpl. lia. }
  split; [exact Hc |]. split; [exact Hm |].
  intros inv op Hcap. destruct (perform_capacity inv op Hcap) as [Hc' Hm']. lia.
Qed.

(** Six operations on a two-slot inventory. *)
Lemma capacity_is_never_exceeded_witness :
  currentCapacity (perform_all busy_day (new_InventoryComponent 2)) <= 2
  /\ _maxCapacity (perform_all busy_day (new_InventoryComponent 2)) = 2
  /\ forall inv op,
       currentCapacity inv <= _maxCapacity inv ->
       currentCapacity (perform inv op) <= _maxCapacity (perform inv op).
Proof. apply (capacity_is_never_exceeded 2 busy_day). lia. Defined.

(** *** An instance added, then removed *)

Lemma delete_appended {V} (k : string) (v : V) (m : list (string * V)) :
  k ∉ JsMap.keys m -> JsMap.delete k (m ++ [(k, v)]) = m.
Proof.
  intros Hk. induction m as [| [k' v'] m IH]; simpl.
  - destruct (decide (k = k)); [reflexivity | contradiction].
  - simpl in Hk. apply not_elem_of_cons in Hk as [Hne Hk].
    destruct (decide (k = k')); [contradiction |]. f_equal. apply IH, Hk.
Qed.

Lemma has_false_notin {V} (k : string) (m : list (string * V)) :
  JsMap.has k m = false -> k ∉ JsMap.keys m.
Proof.
  intros Hf Hin. apply JsMapLaws.has_true_in in Hin. congruence.
Qed.

(** X10.  An instance under a new unique id, added to an inventory with a
    free slot that holds no stack it could join (none of its item, or the
    item does not stack), takes one slot and is found under its unique id;
    removing its whole quantity again succeeds and leaves the instances,
    the legacy items and the gold exactly as they were before. *)
Theorem removeItemInstance_undoes_addItemInstance :
  forall (inv : InventoryComponent) (i : Item.ItemInstance),
    isFull inv = false ->
    JsMap.has (Item.uniqueId i) (_newItems inv) = false ->
    findItemByItemId inv (Item.id (Item.item i)) = None
      \/ Item.stackable (Item.item i) = false ->
    let inv1 := snd (addItemInstance inv i) in
    let inv2 := snd (removeItemInstance inv1 (Item.uniqueId i) (Item.quantity i)) in
    fst (addItemInstance inv i) = true
    /\ JsMap.get (Item.uniqueId i) (_newItems inv1) = Some i
    /\ currentCapacity inv1 = currentCapacity inv + 1
    /\ fst (removeItemInstance inv1 (Item.uniqueId i) (Item.quantity i)) = true
    /\ _newItems inv2 = _newItems inv
    /\ _items inv2 = _items inv
    /\ _gold inv2 = _gold inv.
Proof.
  intros inv i Hroom Hfresh Hnostack inv1 inv2.
  assert (Hadd : addItemInstance inv i
                 = (true,
                    emitInventoryEvent
                      (with_newItems inv (JsMap.set (Item.uniqueId i) i (_newItems inv)))
                      item_added
                      ("Added " ++ pretty (Item.quantity i) ++ " " ++ Item.name (Item.item i))%string
                      (Some i) (Some (Item.quantity i)) None)).
  { unfold addItemInstance. rewrite Hroom. cbn [andb].
    destruct Hnostack as [-> | Hns]; [reflexivity |].
    rewrite Hns. destruct (findItemByItemId inv _); reflexivity. }
  pose proof (has_false_notin _ _ Hfresh) as Hnotin.
  unfold inv2, inv1. rewrite Hadd. cbn [fst snd].
  cbn [emitInventoryEvent with_newItems _newItems _items _gold].
  rewrite JsMapFacts.get_set_eq.
  split; [reflexivity |]. split; [reflexivity |].
  split.
  { unfold currentCapacity, JsMap.size.
    cbn [emitInventoryEvent with_newItems _items _newItems].
    rewrite JsMapLaws.length_set, Hfresh. lia. }
  unfold removeItemInstance. cbn [emitInventoryEvent with_newItems _newItems].
  rewrite JsMapFacts.get_set_eq.
  rewrite Z.leb_refl. cbn [fst snd emitInventoryEvent with_newItems _newItems _items _gold].
  rewrite JsMapFacts.set_absent by exact Hnotin.
  rewrite delete_appended by exact Hnotin. auto.
Qed.

(** A sword into a new inventory and out again. *)
Lemma removeItemInstance_undoes_addItemInstance_witness :
  let inv := new_InventoryComponent 2 in
  let i := Item.createInstance Item.sword_iron 1 "1_a" in
  let inv1 := snd (addItemInstance inv i) in
  let inv2 := snd (removeItemInstance inv1 (Item.uniqueId i) (Item.quantity i)) in
  fst (addItemInstance inv i) = true
  /\ JsMap.get (Item.uniqueId i) (_newItems inv1) = Some i
  /\ currentCapacity inv1 = currentCapacity inv + 1
  /\ fst (removeItemInstance inv1 (Item.uniqueId i) (Item.quantity i)) = true
  /\ _newItems inv2 = _newItems inv
  /\ _items inv2 = _items inv
  /\ _gold inv2 = _gold inv.
Proof.
  intros inv i.
  apply (removeItemInstance_undoes_addItemInstance inv i).
  - reflexivity.
  - reflexivity.
  - left. reflexivity.
Defined.

(** *** Joining a stack *)

(** X11.  With a free slot, a stackable instance whose item already has a
    stack it fits into is merged into that stack: [addItemInstance]
    answers true, the stack found first for the item holds the sum of the
    two quantities, and no slot is taken -- the instances are filed under
    the same unique ids as before, the incoming one's not among them
    unless it was. *)
Theorem addItemInstance_joins_the_stack :
  forall (inv : InventoryComponent) (i e : Item.ItemInstance),
    isFull inv = false ->
    findItemByItemId inv (Item.id (Item.item i)) = Some e ->
    JsMap.get (Item.uniqueId e) (_newItems inv) = Some e ->
    Item.stackable (Item.item i) = true ->
    0 < Item.quantity e + Item.quantity i <= Item.maxStack (Item.item i) ->
    let inv1 := snd (addItemInstance inv i) in
    fst (addItemInstance inv i) = true
    /\ JsMap.get (Item.uniqueId e) (_newItems inv1)
       = Some (with_quantity e (Item.quantity e + Item.quantity i))
    /\ JsMap.keys (_newItems inv1) = JsMap.keys (_newItems inv)
    /\ currentCapacity inv1 = currentCapacity inv
    /\ _items inv1 = _items inv.
Proof.
  intros inv i e Hroom Hfind Hfiled Hstack [Hpos Hfit] inv1.
  unfold inv1, addItemInstance. rewrite Hroom, Hfind, Hstack. cbn [andb].
  apply Z.leb_le in Hfit. rewrite Hfit. cbn [fst snd].
  unfold updateItemQuantity. rewrite Hfiled.
  assert (Hq : (Item.quantity e + Item.quantity i <=? 0) = false) by (apply Z.leb_gt; lia).
  rewrite Hq. cbn [emitInventoryEvent with_newItems _newItems _items].
  rewrite JsMapFacts.get_set_eq.
  assert (Hin : Item.uniqueId e ∈ JsMap.keys (_newItems inv)).
  { apply JsMapLaws.has_true_in. eapply has_get, Hfiled. }
  split; [reflexivity |]. split; [reflexivity |].
  split; [apply JsMapFacts.keys_set_present, Hin |].
  split; [| reflexivity].
  unfold currentCapacity, JsMap.size.
  cbn [emitInventoryEvent with_newItems _items _newItems].
  rewrite JsMapLaws.length_set, (has_get _ _ _ Hfiled). reflexivity.
Qed.

(** Two potion instances into a two-slot inventory: one stack of two. *)
Lemma addItemInstance_joins_the_stack_witness :
  let inv := snd (addItemInstance (new_InventoryComponent 2) potion_a) in
  let inv1 := snd (addItemInstance inv potion_b) in
  fst (addItemInstance inv potion_b) = true
  /\ JsMap.get (Item.uniqueId potion_a) (_newItems inv1)
     = Some (with_quantity potion_a (Item.quantity potion_a + Item.quantity potion_b))
  /\ JsMap.keys (_newItems inv1) = JsMap.keys (_newItems inv)
  /\ currentCapacity inv1 = currentCapacity inv
  /\ _items inv1 = _items inv.
Proof.
  intros inv.
  apply (addItemInstance_joins_the_stack inv potion_b potion_a).
  - reflexivity.
  - reflexivity.
  - reflexivity.
  - reflexivity.
  - vm_compute. split; [reflexivity | discriminate].
Defined.

(** *** The legacy items *)

Lemma total_insert_new (m : gmap string InventoryItem) (k : string) (item : InventoryItem) :
  m !! k = None ->
  map_fold (fun _ item total => total + quantity item) 0 (<[k := item]> m)
  = map_fold (fun _ item total => total + quantity item) 0 m + quantity item.
Proof.
  intros Hk. rewrite map_fold_insert_L; [reflexivity | | exact Hk].
  intros. lia.
Qed.

Lemma total_delete (m : gmap string InventoryItem) (k : string) (item : InventoryItem) :
  m !! k = Some item ->
  map_fold (fun _ item total => total + quantity item) 0 m
  = map_fold (fun _ item total => total + quantity item) 0 (delete k m) + quantity item.
Proof.
  intros Hk. rewrite (map_fold_delete_L _ _ k item m); [reflexivity | | exact Hk].
  intros. lia.
Qed.

Lemma total_insert_over (m : gmap string InventoryItem) (k : string)
    (old item : InventoryItem) :
  m !! k = Some old ->
  map_fold (fun _ item total => total + quantity item) 0 (<[k := item]> m)
  = map_fold (fun _ item total => total + quantity item) 0 m
    - quantity old + quantity item.
Proof.
  intros Hk. rewrite <- insert_delete_eq.
  rewrite total_insert_new by apply lookup_delete_eq.
  rewrite (total_delete m k old Hk). lia.
Qed.

(** X12.  The legacy [addItem] either refuses and changes nothing, or
    succeeds; when it succeeds, the item id leads to an entry holding what
    was there of it plus what was added, [hasItem] answers true for
    exactly the quantities up to that, every other id leads where it led
    before, and [getTotalItemCount] has grown by the quantity added. *)
Theorem addItem_adds_the_quantity :
  forall (inv : InventoryComponent) (item : InventoryItem),
    let inv1 := snd (addItem inv item) in
    (fst (addItem inv item) = false -> inv1 = inv)
    /\ (fst (addItem inv item) = true ->
          (exists stored,
             getItem inv1 (id item) = Some stored
             /\ quantity stored
                = quantity item
                  + match getItem inv (id item) with Some e => quantity e | None => 0 end
             /\ forall q, hasItem inv1 (id item) q = (q <=? quantity stored))
          /\ (forall other, other <> id item -> getItem inv1 other = getItem inv other)
          /\ getTotalItemCount inv1 = getTotalItemCount inv + quantity item).
Proof.
  intros inv item inv1. unfold inv1, addItem, getItem, hasItem, getTotalItemCount.
  rewrite bool_decide_is_Some.
  destruct (_items inv !! id item) as [existing |] eqn:El.
  - rewrite andb_false_r.
    destruct (quantity existing + quantity item <=? maxStack existing).
    + cbn [fst snd with_items _items].
      split; [discriminate |]. intros _. split; [| split].
      * eexists. rewrite lookup_insert_eq. split; [reflexivity |].
        cbn [quantity]. split; [lia | reflexivity].
      * intros other Hne. apply lookup_insert_ne. congruence.
      * rewrite (total_insert_over _ _ existing) by exact El. cbn [quantity]. lia.
    + cbn [fst snd]. split; [reflexivity | discriminate].
  - rewrite andb_true_r.
    destruct (isFull inv).
    + cbn [fst snd negb]. split; [reflexivity | discriminate].
    + cbn [fst snd negb with_items _items].
      split; [discriminate |]. intros _. split; [| split].
      * exists item. rewrite lookup_insert_eq. split; [reflexivity |].
        split; [lia | reflexivity].
      * intros other Hne. apply lookup_insert_ne. congruence.
      * apply total_insert_new, El.
Qed.

(** The legacy potion added twice to a one-slot inventory. *)
Lemma addItem_adds_the_quantity_example :
  getTotalItemCount one_slot_with_legacy_potion = 1
  /\ fst (addItem one_slot_with_legacy_potion legacy_potion) = true
  /\ getTotalItemCount (snd (addItem one_slot_with_legacy_potion legacy_potion)) = 2
  /\ hasItem (snd (addItem one_slot_with_legacy_potion legacy_potion)) "potion_health" 2 = true
  /\ hasItem (snd (addItem one_slot_with_legacy_potion legacy_potion)) "potion_health" 3
     = false.
Proof. vm_compute. repeat split; reflexivity. Qed.

(** *** Items by id *)

Lemma find_appended {A} (f : A -> bool) (l : list A) (x : A) :
  List.find f l = None -> List.find f (l ++ [x]) = if f x then Some x else None.
Proof.
  induction l as [| y l IH]; simpl; [reflexivity |].
  destruct (f y); [discriminate | exact IH].
Qed.

Lemma getItem_id (itemId : string) (it : Item.Item) :
  Item.ItemFactory_getItem itemId = Some it -> Item.id it = itemId.
Proof.
  unfold Item.ItemFactory_getItem. intros Hf.
  apply find_some in Hf as [_ Heq]. apply String.eqb_eq in Heq. exact Heq.
Qed.

(** X13.  [addItemById] with an id the factory does not know answers
    false and stores nothing.  With an id it knows, the instance it makes
    is of the item of that id and holds the quantity asked for but at most
    the item's [maxStack]; added where a slot is free, no instance is
    filed under its unique id and no stack of the item exists, that
    instance is what the inventory then finds for the item id. *)
Theorem addItemById_takes_at_most_one_stack :
  forall (inv : InventoryComponent) (itemId : string) (q : Z) (stamp : string),
    let inv1 := snd (addItemById inv itemId q stamp) in
    (Item.ItemFactory_getItem itemId = None ->
       fst (addItemById inv itemId q stamp) = false
       /\ _newItems inv1 = _newItems inv /\ _items inv1 = _items inv)
    /\ (forall it, Item.ItemFactory_getItem itemId = Some it ->
          Item.id it = itemId
          /\ (isFull inv = false ->
              JsMap.has (itemId ++ "_" ++ stamp)%string (_newItems inv) = false ->
              findItemByItemId inv itemId = None ->
              fst (addItemById inv itemId q stamp) = true
              /\ findItemByItemId inv1 itemId
                 = Some {| Item.item := it; Item.quantity := Z.min q (Item.maxStack it);
                           Item.uniqueId := (itemId ++ "_" ++ stamp)%string |})).
Proof.
  intros inv itemId q stamp inv1. unfold inv1, addItemById, Item.ItemFactory_createItemInstance.
  split.
  - intros ->. cbn [fst snd]. auto.
  - intros it Hit. rewrite Hit. pose proof (getItem_id itemId it Hit) as Hid.
    split; [exact Hid |]. intros Hroom Hfresh Hnone.
    unfold Item.createInstance. rewrite Hid.
    unfold addItemInstance. cbn [Item.uniqueId Item.item Item.quantity].
    rewrite Hroom, Hid, Hnone. cbn [andb fst snd].
    split; [reflexivity |].
    unfold findItemByItemId in *. cbn [emitInventoryEvent with_newItems _newItems].
    rewrite JsMapFacts.set_absent by (apply has_false_notin, Hfresh).
    unfold JsMap.values in *. rewrite map_app. cbn [map snd].
    rewrite find_appended by exact Hnone.
    cbn [Item.item Item.id]. rewrite Hid, String.eqb_refl. reflexivity.
Qed.

(** Five iron swords asked for: one is stored. *)
Lemma addItemById_takes_at_most_one_stack_example :
  let inv1 := snd (addItemById (new_InventoryComponent 2) "sword_iron" 5 "1_a") in
  option_map Item.quantity (findItemByItemId inv1 "sword_iron") = Some 1
  /\ fst (addItemById (new_InventoryComponent 2) "sword_of_doom" 1 "1_a") = false.
Proof. vm_compute. split; reflexivity. Qed.

End InventoryLaws.


(** ** Durability and enchantment levels *)

Module DurableFacts.
Import Item Decorator Durable.
Local Open Scope list_scope.

Lemma wear_keeps_bounds (item : Item) (cur max : Z) (w : Wear) :
  0 <= cur <= max -> 0 <= amount_of w ->
  exists cur',
    wear (DurableItemDecorator item cur max) w = Some (DurableItemDecorator item cur' max)
    /\ 0 <= cur' <= max.
Proof.
  intros Hb Ha. destruct w; simpl in *; eexists; (split; [reflexivity | lia]).
Qed.

(** X14.  A durable item made with a non-negative maximum stays within
    0..maximum whatever is taken off and repaired, as long as the amounts
    are not negative: after any run of [reduceDurability], [repair] and
    [fullRepair] it is still a durable decorator of the same item and
    maximum, its durability lies between 0 and the maximum, it is broken
    exactly at 0 and damaged exactly below the maximum. *)
Theorem durability_stays_within_bounds :
  forall (item : Item) (maxDurability : Z) (ws : list Wear),
    0 <= maxDurability ->
    Forall (fun w => 0 <= amount_of w) ws ->
    exists current,
      wear_all ws (new_DurableItemDecorator item maxDurability)
      = Some (DurableItemDecorator item current maxDurability)
      /\ 0 <= current <= maxDurability
      /\ getDurability (DurableItemDecorator item current maxDurability) = Some current
      /\ getMaxDurability (DurableItemDecorator item current maxDurability)
         = Some maxDurability
      /\ (isBroken (DurableItemDecorator item current maxDurability) = Some true
          <-> current = 0)
      /\ (isDamaged (DurableItemDecorator item current maxDurability) = Some true
          <-> current < maxDurability).
Proof.
  intros item maxDurability ws Hmax Hws.
  assert (Hrun : forall cur, 0 <= cur <= maxDurability ->
            exists current,
              wear_all ws (DurableItemDecorator item cur maxDurability)
              = Some (DurableItemDecorator item current maxDurability)
              /\ 0 <= current <= maxDurability).
  { induction Hws as [| w ws Hw Hws IH]; intros cur Hcur; simpl.
    - exists cur. auto.
    - destruct (wear_keeps_bounds item cur maxDurability w Hcur Hw) as (cur' & -> & Hcur').
      apply IH, Hcur'. }
  destruct (Hrun maxDurability) as (current & Heq & Hb); [lia |].
  exists current. split; [exact Heq |]. split; [exact Hb |].
  split; [reflexivity |]. split; [reflexivity |]. simpl. split.
  - split.
    + intros H. injection H as H. apply Z.leb_le in H. lia.
    + intros ->. reflexivity.
  - split.
    + intros H. injection H as H. apply Z.ltb_lt in H. exact H.
    + intros H. apply Z.ltb_lt in H. rewrite H. reflexivity.
Qed.

(** A sword of durability 200: worn by 250, repaired by 30, worn by 10. *)
Lemma durability_stays_within_bounds_witness :
  exists current,
    wear_all [Reduce 250; Repair 30; Reduce 10] (new_DurableItemDecorator sword_iron 200)
    = Some (DurableItemDecorator sword_iron current 200)
    /\ 0 <= current <= 200
    /\ getDurability (DurableItemDecorator sword_iron current 200) = Some current
    /\ getMaxDurability (DurableItemDecorator sword_iron current 200) = Some 200
    /\ (isBroken (DurableItemDecorator sword_iron current 200) = Some true <-> current = 0)
    /\ (isDamaged (DurableItemDecorator sword_iron current 200) = Some true
        <-> current < 200).
Proof.
  apply (durability_stays_within_bounds sword_iron 200 [Reduce 250; Repair 30; Reduce 10]).
  - lia.
  - repeat constructor; simpl; lia.
Defined.

Lemma durability_example :
  wear_all [Reduce 250; Repair 30; Reduce 10] (new_DurableItemDecorator sword_iron 200)
  = Some (DurableItemDecorator sword_iron 20 200).
Proof. reflexivity. Qed.

Lemma bonus_monotone (m l1 l2 : Z) :
  10 <= m -> l1 <= l2 -> (l1 * 2 * m) / 10 <= (l2 * 2 * m) / 10.
Proof. intros Hm Hle. apply Z.div_le_mono; [lia | nia]. Qed.

(** X15.  The level an enchantment is asked for is clamped to 1..10:
    [getEnchantmentLevel] answers the level asked for where that lies in
    1..10, 1 below and 10 above, and the decorator made is the one of the
    clamped level.  For an enchantment type that is not the name of a
    member every object inherits, the value is a number, and a higher
    level asked for never gives a lower value. *)
Theorem enchantment_level_is_clamped :
  forall (item : Item) (ty : string) (l1 l2 : Z),
    l1 <= l2 ->
    inherited ty = false ->
    exists level1 level2 v1 v2,
      level1 = Z.max 1 (Z.min 10 l1)
      /\ level2 = Z.max 1 (Z.min 10 l2)
      /\ 1 <= level1 <= level2 /\ level2 <= 10
      /\ getEnchantmentLevel (new_EnchantedItemDecorator item ty l1) = Some level1
      /\ getEnchantmentLevel (new_EnchantedItemDecorator item ty l2) = Some level2
      /\ new_EnchantedItemDecorator item ty l1 = new_EnchantedItemDecorator item ty level1
      /\ new_EnchantedItemDecorator item ty l2 = new_EnchantedItemDecorator item ty level2
      /\ getValue (new_EnchantedItemDecorator item ty l1) = Some (Int v1)
      /\ getValue (new_EnchantedItemDecorator item ty l2) = Some (Int v2)
      /\ v1 <= v2.
Proof.
  intros item ty l1 l2 Hle Hty.
  destruct (DecoratorFacts.multiplier10_number ty Hty) as [m Hm].
  pose proof (DecoratorFacts.multiplier10_range ty m Hm) as Hr.
  set (level1 := Z.max 1 (Z.min 10 l1)). set (level2 := Z.max 1 (Z.min 10 l2)).
  exists level1, level2,
    (value item + (level1 * 2 * m) / 10 * 50), (value item + (level2 * 2 * m) / 10 * 50).
  split; [reflexivity |]. split; [reflexivity |].
  split; [unfold level1, level2; lia |]. split; [unfold level2; lia |].
  split; [reflexivity |]. split; [reflexivity |].
  assert (Hsame : forall l,
            new_EnchantedItemDecorator item ty l
            = new_EnchantedItemDecorator item ty (Z.max 1 (Z.min 10 l))).
  { intros l. unfold new_EnchantedItemDecorator.
    replace (Z.max 1 (Z.min 10 (Z.max 1 (Z.min 10 l)))) with (Z.max 1 (Z.min 10 l)) by lia.
    reflexivity. }
  split; [apply Hsame |]. split; [apply Hsame |].
  assert (Hval : forall l,
            getValue (new_EnchantedItemDecorator item ty l)
            = Some (Int (value item + (Z.max 1 (Z.min 10 l) * 2 * m) / 10 * 50))).
  { intros l. simpl. unfold calculateEnchantmentBonus. rewrite Hm. reflexivity. }
  split; [apply Hval |]. split; [apply Hval |].
  pose proof (bonus_monotone m level1 level2) as Hb.
  assert (level1 <= level2) by (unfold level1, level2; lia).
  lia.
Qed.

(** An ice enchantment of the iron sword, asked for at level -3 and at
    level 50: the levels are 1 and 10, the values 150 and 1350. *)
Lemma enchantment_level_is_clamped_witness :
  exists level1 level2 v1 v2,
    level1 = 1
    /\ level2 = 10
    /\ 1 <= level1 <= level2 /\ level2 <= 10
    /\ getEnchantmentLevel (new_EnchantedItemDecorator sword_iron "ice" (-3)) = Some level1
    /\ getEnchantmentLevel (new_EnchantedItemDecorator sword_iron "ice" 50) = Some level2
    /\ new_EnchantedItemDecorator sword_iron "ice" (-3)
       = new_EnchantedItemDecorator sword_iron "ice" level1
    /\ new_EnchantedItemDecorator sword_iron "ice" 50
       = new_EnchantedItemDecorator sword_iron "ice" level2
    /\ getValue (new_EnchantedItemDecorator sword_iron "ice" (-3)) = Some (Int v1)
    /\ getValue (new_EnchantedItemDecorator sword_iron "ice" 50) = Some (Int v2)
    /\ v1 <= v2.
Proof.
  apply (enchantment_level_is_clamped sword_iron "ice" (-3) 50); [lia | reflexivity].
Defined.

Lemma enchantment_level_example :
  getEnchantmentLevel (new_EnchantedItemDecorator sword_iron "ice" (-3)) = Some 1
  /\ getEnchantmentLevel (new_EnchantedItemDecorator sword_iron "ice" 50) = Some 10
  /\ getValue (new_EnchantedItemDecorator sword_iron "ice" (-3)) = Some (Int 150)
  /\ getValue (new_EnchantedItemDecorator sword_iron "ice" 50) = Some (Int 1350).
Proof. repeat split; reflexivity. Qed.

End DurableFacts.

(** ** Animation frames *)

Module AnimationFacts.
Import Entity Animation.
Local Open Scope list_scope.

Lemma update_frame_in_range (a : AnimationComponent) (t : Z) :
  frame_in_range a -> frame_in_range (update a t).
Proof.
  unfold frame_in_range, update. intros Hr.
  destruct (isPlaying (_currentState a)); cbn [negb]; [| exact Hr].
  destruct (frame_due _ _); [| exact Hr].
  cbn [_currentState with_currentFrame with_isPlaying totalFrames currentFrame isLooping].
  destruct (totalFrames (_currentState a) <=? currentFrame (_currentState a) + 1) eqn:E.
  - destruct (isLooping (_currentState a));
      cbn [with_currentFrame with_isPlaying totalFrames currentFrame]; lia.
  - apply Z.leb_gt in E. cbn [with_currentFrame totalFrames currentFrame]. lia.
Qed.

Lemma act_keeps_frames (a : AnimationComponent) (x : Action) :
  frame_in_range a -> configurations_have_frames a -> adds_frames x ->
  frame_in_range (act a x) /\ configurations_have_frames (act a x).
Proof.
  intros Hr Hc Hx. destruct x; cbn [act].
  - split; [apply update_frame_in_range, Hr |].
    unfold update. destruct (negb _); [exact Hc |]. destruct (frame_due _ _); exact Hc.
  - split; [exact Hr | exact Hc].
  - split; [exact Hr | exact Hc].
  - split; [| exact Hc]. unfold frame_in_range in *. simpl. lia.
  - split; [| exact Hc]. unfold frame_in_range in *. simpl. lia.
  - unfold setAnimation.
    destruct (_configurations a !! config_key t d) as [config |] eqn:E; [| auto].
    split; [| exact Hc].
    unfold frame_in_range. simpl. specialize (Hc _ _ E). simpl in Hc. lia.
  - split; [exact Hr |].
    unfold configurations_have_frames, addAnimation. simpl.
    apply map_Forall_insert_2; [exact Hx | exact Hc].
Qed.

(** X16.  The frame index always names a frame.  On a component whose
    current frame lies in 0..totalFrames-1 and whose configurations have
    at least one frame each, every run of [update], [play], [pause],
    [stop], [reset], [setAnimation] and [addAnimation] (of configurations
    with at least one frame) leaves the current frame in
    0..totalFrames-1; a newly constructed component is such a one. *)
Theorem currentFrame_stays_in_range :
  forall (a : AnimationComponent) (xs : list Action),
    frame_in_range a ->
    configurations_have_frames a ->
    Forall adds_frames xs ->
    frame_in_range (act_all xs a)
    /\ configurations_have_frames (act_all xs a)
    /\ frame_in_range new_AnimationComponent
    /\ configurations_have_frames new_AnimationComponent.
Proof.
  intros a xs Hr Hc Hxs.
  assert (Hrun : frame_in_range (act_all xs a) /\ configurations_have_frames (act_all xs a)).
  { unfold act_all. revert a Hr Hc.
    induction Hxs as [| x xs Hx Hxs IH]; intros a Hr Hc; simpl; [auto |].
    destruct (act_keeps_frames a x Hr Hc Hx) as [Hr' Hc']. apply IH; assumption. }
  destruct Hrun as [Hr' Hc']. split; [exact Hr' |]. split; [exact Hc' |].
  split; [unfold frame_in_range; simpl; lia |].
  unfold configurations_have_frames. simpl. apply map_Forall_empty.
Qed.

(** The attack animation of a player, updated past its end, paused, reset
    and switched to walking. *)
Lemma currentFrame_stays_in_range_witness :
  let xs := [Update 200; Update 400; Update 600; Update 800; Update 1000; Pause;
             Reset; SetAnimation walk north; Update 1200] in
  frame_in_range (act_all xs attacking)
  /\ configurations_have_frames (act_all xs attacking)
  /\ frame_in_range new_AnimationComponent
  /\ configurations_have_frames new_AnimationComponent.
Proof.
  intros xs.
  apply (currentFrame_stays_in_range attacking xs).
  - unfold frame_in_range. vm_compute. split; [discriminate | reflexivity].
  - unfold configurations_have_frames.
    apply (bool_decide_unpack _). vm_compute. exact I.
  - repeat constructor.
Defined.

Lemma currentFrame_stays_in_range_example :
  let xs := [Update 200; Update 400; Update 600; Update 800; Update 1000; Pause;
             Reset; SetAnimation walk north; Update 1200] in
  getTextureKey (act_all xs attacking) = "walk_north_1"
  /\ getTextureKey (act_all (take 5 xs) attacking) = "attack_east_3".
Proof. vm_compute. split; reflexivity. Qed.

(** One due update of a playing animation. *)
Lemma update_due (a : AnimationComponent) (t : Z) :
  isPlaying (_currentState a) = true ->
  frame_due (t - _lastFrameTime a) (frameRate (_currentState a)) = true ->
  frame_in_range a ->
  let s := _currentState a in
  let s' := _currentState (update a t) in
  _lastFrameTime (update a t) = t
  /\ type s' = type s /\ direction s' = direction s
  /\ totalFrames s' = totalFrames s /\ frameRate s' = frameRate s
  /\ isLooping s' = isLooping s
  /\ (isLooping s = true ->
        currentFrame s' = (currentFrame s + 1) mod totalFrames s /\ isPlaying s' = true)
  /\ (isLooping s = false ->
        currentFrame s' = Z.min (currentFrame s + 1) (totalFrames s - 1)
        /\ isPlaying s' = (currentFrame s + 1 <? totalFrames s)).
Proof.
  intros Hp Hd Hr s s'. unfold s', update. rewrite Hp, Hd. cbn [negb].
  unfold frame_in_range in Hr. fold s. fold s in Hr, Hp.
  cbn [_currentState _lastFrameTime with_currentFrame with_isPlaying totalFrames
       currentFrame isLooping].
  destruct (totalFrames s <=? currentFrame s + 1) eqn:E.
  - apply Z.leb_le in E.
    assert (Hlast : currentFrame s + 1 = totalFrames s) by lia.
    destruct (isLooping s) eqn:El;
      cbn [with_currentFrame with_isPlaying type direction totalFrames frameRate
           isLooping isPlaying currentFrame];
      repeat split; try discriminate; try reflexivity; try exact Hp; try exact El.
    + rewrite Hlast, Z_mod_same_full. reflexivity.
    + lia.
    + symmetry. apply Z.ltb_ge. lia.
  - apply Z.leb_gt in E.
    cbn [with_currentFrame type direction totalFrames frameRate isLooping isPlaying
         currentFrame].
    repeat split; try reflexivity; try exact Hp.
    + rewrite Z.mod_small by lia. reflexivity.
    + lia.
    + rewrite Hp. symmetry. apply Z.ltb_lt. lia.
Qed.

Lemma update_paused (a : AnimationComponent) (t : Z) :
  isPlaying (_currentState a) = false -> update a t = a.
Proof. intros Hp. unfold update. rewrite Hp. reflexivity. Qed.

(** X17.  A playing animation, updated each time a frame is due.  If it
    loops, the frame after [k] updates is the starting frame plus [k]
    modulo the number of frames, it is still playing, and it never counts
    as complete.  If it does not loop, the frame is the starting frame
    plus [k] but at most the last frame; it plays as long as that sum is
    below the number of frames and has stopped from then on; and it counts
    as complete as soon as the last frame is reached. *)
Theorem update_plays_the_frames_in_order :
  forall (a : AnimationComponent) (times : list Z),
    isPlaying (_currentState a) = true ->
    frame_in_range a ->
    all_due (frameRate (_currentState a)) (_lastFrameTime a) times ->
    let s := _currentState a in
    let s' := _currentState (update_all times a) in
    let k := Z.of_nat (length times) in
    (isLooping s = true ->
       currentFrame s' = (currentFrame s + k) mod totalFrames s
       /\ isPlaying s' = true
       /\ isComplete (update_all times a) = false)
    /\ (isLooping s = false ->
          currentFrame s' = Z.min (currentFrame s + k) (totalFrames s - 1)
          /\ isPlaying s' = (currentFrame s + k <? totalFrames s)
          /\ isComplete (update_all times a)
             = (totalFrames s - 1 <=? currentFrame s + k)).
Proof.
  intros a times. revert a.
  induction times as [| t times IH]; intros a Hp Hr Hdue; cbv zeta.
  - unfold update_all, isComplete. simpl.
    unfold frame_in_range in Hr. rewrite Z.add_0_r, Hp. split.
    + intros Hl. rewrite Z.mod_small by lia. rewrite Hl. auto.
    + intros Hl. rewrite Hl. cbn [negb andb].
      split; [lia |]. split; [| reflexivity].
      symmetry. apply Z.ltb_lt. lia.
  - destruct Hdue as [Hd Hrest].
    destruct (update_due a t Hp Hd Hr) as (Hlast & Hty & Hdir & Htot & Hrate & Hloop & HL & HN).
    pose proof (update_frame_in_range a t Hr) as Hr1.
    unfold frame_in_range in Hr.
    set (s := _currentState a) in *.
    assert (Hk : Z.of_nat (length (t :: times)) = 1 + Z.of_nat (length times))
      by (simpl length; lia).
    rewrite Hk.
    unfold update_all. cbn [fold_left]. fold (update_all times (update a t)).
    destruct (isLooping s) eqn:El.
    + destruct (HL eq_refl) as [Hf Hp1].
      split; [intros _ | discriminate].
      destruct (IH (update a t) Hp1 Hr1) as [IHl _].
      { rewrite Hrate, Hlast. exact Hrest. }
      destruct (IHl Hloop) as (Hf' & Hp' & Hc').
      split; [| split; [exact Hp' | exact Hc']].
      rewrite Hf', Hf, Htot.
      rewrite Zplus_mod_idemp_l. f_equal. lia.
    + destruct (HN eq_refl) as [Hf Hp1].
      split; [discriminate | intros _].
      destruct (currentFrame s + 1 <? totalFrames s) eqn:E.
      * apply Z.ltb_lt in E.
        destruct (IH (update a t) Hp1 Hr1) as [_ IHn].
        { rewrite Hrate, Hlast. exact Hrest. }
        destruct (IHn Hloop) as (Hf' & Hp' & Hc').
        rewrite Hf', Hp', Hc', Hf, Htot.
        replace (Z.min (currentFrame s + 1) (totalFrames s - 1)) with (currentFrame s + 1)
          by lia.
        replace (currentFrame s + 1 + Z.of_nat (length times))
          with (currentFrame s + (1 + Z.of_nat (length times))) by lia.
        auto.
      * apply Z.ltb_ge in E.
        assert (Hstay : update_all times (update a t) = update a t).
        { clear -Hp1. unfold update_all.
          induction times as [| t' times IH']; simpl; [reflexivity |].
          rewrite update_paused by exact Hp1. exact IH'. }
        rewrite Hstay. unfold isComplete. rewrite Hloop, Htot, Hf, Hp1.
        cbn [negb andb].
        split; [lia |]. split.
        -- symmetry. apply Z.ltb_ge. lia.
        -- transitivity true; [apply Z.leb_le; lia | symmetry; apply Z.leb_le; lia].
Qed.

(** The attack (four frames, eight a second, not looping) updated six
    times, 125 ms apart: it stops on frame 3. *)
Lemma update_plays_the_frames_in_order_witness :
  let times := [125; 250; 375; 500; 625; 750] in
  let s := _currentState attacking in
  let s' := _currentState (update_all times attacking) in
  let k := Z.of_nat (length times) in
  (isLooping s = true ->
     currentFrame s' = (currentFrame s + k) mod totalFrames s
     /\ isPlaying s' = true
     /\ isComplete (update_all times attacking) = false)
  /\ (isLooping s = false ->
        currentFrame s' = Z.min (currentFrame s + k) (totalFrames s - 1)
        /\ isPlaying s' = (currentFrame s + k <? totalFrames s)
        /\ isComplete (update_all times attacking)
           = (totalFrames s - 1 <=? currentFrame s + k)).
Proof.
  intros times.
  apply (update_plays_the_frames_in_order attacking times).
  - reflexivity.
  - unfold frame_in_range. vm_compute. split; [discriminate | reflexivity].
  - vm_compute. repeat split; reflexivity.
Defined.

Lemma update_plays_the_frames_in_order_example :
  map (fun ts => currentFrame (_currentState (update_all ts attacking)))
      [[125]; [125; 250]; [125; 250; 375]; [125; 250; 375; 500]] = [1; 2; 3; 3]
  /\ map (fun ts => currentFrame (_currentState (update_all ts walking)))
       [[125]; [125; 250]; [125; 250; 375]; [125; 250; 375; 500]] = [1; 2; 3; 0]
  /\ isPlaying (_currentState (update_all [125; 250; 375; 500] attacking)) = false
  /\ currentFrame (_currentState (update_all [125; 200] walking)) = 1.
Proof. vm_compute. repeat split; reflexivity. Qed.

End AnimationFacts.


(** ** The map composite: setting tiles, walkable cells, generated maps *)

Module CompositeFacts.
Import World Composite.
Local Open Scope list_scope.


Lemma getTile_composite bx by_ bw bh l x y :
  getTile (MapComposite bx by_ bw bh l) x y
  = if negb (isWithinBounds bx by_ bw bh x y) then None else getTile_first l x y.
Proof. reflexivity. Qed.

Lemma setTile_composite bx by_ bw bh l x y tile :
  setTile (MapComposite bx by_ bw bh l) x y tile
  = if negb (isWithinBounds bx by_ bw bh x y) then (false, MapComposite bx by_ bw bh l)
    else (fst (setTile_first l x y tile),
          MapComposite bx by_ bw bh (snd (setTile_first l x y tile))).
Proof.
  simpl. destruct (negb _); [reflexivity |].
  fold (setTile_first l x y tile). destruct (setTile_first l x y tile). reflexivity.
Qed.

Lemma getTile_first_cons child rest x y :
  getTile_first (child :: rest) x y
  = match getTile child x y with Some tile => Some tile | None => getTile_first rest x y end.
Proof. reflexivity. Qed.

Lemma setTile_first_cons child rest x y tile :
  setTile_first (child :: rest) x y tile
  = if fst (setTile child x y tile)
    then (true, snd (setTile child x y tile) :: rest)
    else (fst (setTile_first rest x y tile),
          snd (setTile child x y tile) :: snd (setTile_first rest x y tile)).
Proof.
  unfold setTile_first at 1. fold (setTile_first rest x y tile).
  destruct (setTile child x y tile) as [[|] child']; simpl; [reflexivity |].
  destruct (setTile_first rest x y tile). reflexivity.
Qed.

Lemma getTile_first_app l1 l2 x y :
  getTile_first (l1 ++ l2) x y
  = match getTile_first l1 x y with Some tile => Some tile | None => getTile_first l2 x y end.
Proof.
  induction l1 as [| child l1 IH]; [reflexivity |].
  rewrite <- app_comm_cons, !getTile_first_cons.
  destruct (getTile child x y); [reflexivity | exact IH].
Qed.

Lemma leaf_bounds bx by_ x y :
  isWithinBounds bx by_ 1 1 x y = true <-> x = bx /\ y = by_.
Proof. rewrite WorldFacts.isWithinBounds_spec. lia. Qed.

Lemma setTile_first_sets_what_it_finds (l : list MapComponent) :
  Forall sets_what_it_finds l ->
  forall (x y : Z) (tile : TileInstance),
    (fst (setTile_first l x y tile) = true <-> is_Some (getTile_first l x y))
    /\ (fst (setTile_first l x y tile) = true ->
          getTile_first (snd (setTile_first l x y tile)) x y = Some tile)
    /\ (fst (setTile_first l x y tile) = false -> snd (setTile_first l x y tile) = l)
    /\ (forall x' y', x' <> x \/ y' <> y ->
          getTile_first (snd (setTile_first l x y tile)) x' y' = getTile_first l x' y').
Proof.
  induction 1 as [| child rest Hchild Hrest IH]; intros x y tile.
  - simpl. repeat split; try discriminate; auto.
    intros [t Ht]. discriminate Ht.
  - destruct (Hchild x y tile) as (Hiff & Hset & Hfail & Hframe).
    destruct (IH x y tile) as (IHiff & IHset & IHfail & IHframe).
    rewrite setTile_first_cons, getTile_first_cons.
    destruct (fst (setTile child x y tile)) eqn:E; cbn [fst snd].
    + destruct (proj1 Hiff eq_refl) as [t Ht]. rewrite Ht.
      split; [split; eauto |]. split; [| split; [discriminate |]].
      * intros _. rewrite getTile_first_cons, (Hset eq_refl). reflexivity.
      * intros x' y' Hne. rewrite getTile_first_cons, (Hframe x' y' Hne). reflexivity.
    + rewrite (Hfail eq_refl).
      assert (Hnone : getTile child x y = None).
      { destruct (getTile child x y) eqn:Eg; [| reflexivity].
        assert (Ht : true = false) by (rewrite <- (proj2 Hiff); eauto). discriminate Ht. }
      rewrite Hnone. split; [exact IHiff |]. split; [| split].
      * intros Hok. rewrite getTile_first_cons, Hnone. apply IHset, Hok.
      * intros Hno. rewrite (IHfail Hno). reflexivity.
      * intros x' y' Hne. rewrite getTile_first_cons, (IHframe x' y' Hne). reflexivity.
Qed.

Lemma setTile_sets_what_it_finds (c : MapComponent) : sets_what_it_finds c.
Proof.
  induction c as [bx by_ old | bx by_ bw bh l IH] using MapComponent_ind_nested;
    intros x y tile.
  - cbn [setTile getTile].
    destruct (isWithinBounds bx by_ 1 1 x y) eqn:E; cbn [fst snd getTile].
    + rewrite E. split; [split; eauto |]. split; [reflexivity |]. split; [discriminate |].
      intros x' y' Hne.
      destruct (isWithinBounds bx by_ 1 1 x' y') eqn:E'; [| reflexivity].
      apply leaf_bounds in E, E'. lia.
    + rewrite E. split; [split; [discriminate | intros [t Ht]; discriminate Ht] |].
      split; [discriminate |]. split; reflexivity.
  - rewrite setTile_composite, getTile_composite.
    destruct (setTile_first_sets_what_it_finds l IH x y tile) as (Hiff & Hset & Hfail & Hframe).
    destruct (isWithinBounds bx by_ bw bh x y) eqn:E; cbn [negb fst snd].
    + split; [exact Hiff |]. split; [| split].
      * intros Hok. rewrite getTile_composite, E. apply Hset, Hok.
      * intros Hno. rewrite (Hfail Hno). reflexivity.
      * intros x' y' Hne. rewrite !getTile_composite.
        destruct (negb _); [reflexivity | apply Hframe, Hne].
    + split; [split; [discriminate | intros [t Ht]; discriminate Ht] |].
      split; [discriminate |]. split; reflexivity.
Qed.

Lemma Map_setTile_unfold (m : Map) (x y : Z) (tile : TileInstance) :
  let c := MapComposite 0 0 (width m) (height m) (children m) in
  exists children',
    setTile c x y tile
    = (fst (Map_setTile m x y tile), MapComposite 0 0 (width m) (height m) children')
    /\ snd (Map_setTile m x y tile)
       = {| name := name m; width := width m; height := height m; children := children' |}.
Proof.
  intros c. unfold Map_setTile. fold c. unfold c. rewrite setTile_composite.
  destruct (negb _); eexists; split; reflexivity.
Qed.

(** X18.  [setTile] replaces the tile [getTile] finds at the cell and
    nothing else.  It answers true exactly when [getTile] finds a tile
    there; then [getTile] finds the new tile at that cell afterwards.
    When it answers false the map is unchanged: it never creates a tile
    where there is none.  At every other cell [getTile] answers as
    before.  [setTileAt] puts a tile of the given type there, so the cell
    is then walkable exactly if the type is. *)
Theorem setTile_replaces_what_getTile_finds :
  forall (m : Map) (x y : Z) (tile : TileInstance) (t : TileType),
    let ok := fst (Map_setTile m x y tile) in
    let m' := snd (Map_setTile m x y tile) in
    (ok = true <-> is_Some (Map_getTile m x y))
    /\ (ok = true -> Map_getTile m' x y = Some tile)
    /\ (ok = false -> m' = m)
    /\ (forall x' y', x' <> x \/ y' <> y -> Map_getTile m' x' y' = Map_getTile m x' y')
    /\ (fst (setTileAt m x y t) = true ->
          isWalkable (snd (setTileAt m x y t)) x y = walkable (getProperties t)
          /\ getElevation (snd (setTileAt m x y t)) x y = elevation (getProperties t)).
Proof.
  intros m x y tile t ok m'.
  assert (Hgen : forall tile0,
            let ok0 := fst (Map_setTile m x y tile0) in
            let m0 := snd (Map_setTile m x y tile0) in
            (ok0 = true <-> is_Some (Map_getTile m x y))
            /\ (ok0 = true -> Map_getTile m0 x y = Some tile0)
            /\ (ok0 = false -> m0 = m)
            /\ (forall x' y', x' <> x \/ y' <> y ->
                  Map_getTile m0 x' y' = Map_getTile m x' y')).
  { intros tile0 ok0 m0.
    destruct (Map_setTile_unfold m x y tile0) as (children' & Hset & Hm0).
    destruct (setTile_sets_what_it_finds
                (MapComposite 0 0 (width m) (height m) (children m)) x y tile0)
      as (Hiff & Hfound & Hfail & Hframe).
    rewrite Hset in Hiff, Hfound, Hfail, Hframe. cbn [fst snd] in *.
    fold ok0 in Hiff, Hfound, Hfail. fold m0 in Hm0.
    unfold Map_getTile. rewrite Hm0. cbn [width height children].
    split; [exact Hiff |]. split; [exact Hfound |]. split; [| exact Hframe].
    intros Hno. specialize (Hfail Hno). injection Hfail as ->. destruct m; reflexivity. }
  destruct (Hgen tile) as (H1 & H2 & H3 & H4).
  split; [exact H1 |]. split; [exact H2 |]. split; [exact H3 |]. split; [exact H4 |].
  intros Hok. unfold setTileAt in *.
  destruct (Hgen (createTile t x y 0)) as (_ & Hfound & _).
  unfold isWalkable, getElevation. rewrite (Hfound Hok). split; reflexivity.
Qed.

Lemma setTile_example :
  fst (setTileAt meadow 0 0 WATER) = true
  /\ isWalkable (snd (setTileAt meadow 0 0 WATER)) 0 0 = false
  /\ isWalkable (snd (setTileAt meadow 0 0 WATER)) 0 1 = true
  /\ setTileAt (new_Map "empty" 10 10) 0 0 GRASS = (false, new_Map "empty" 10 10).
Proof. vm_compute. repeat split; reflexivity. Qed.

(** *** The cells of the map *)

Lemma elem_of_range (n z : Z) : z ∈ range n <-> 0 <= z < n.
Proof.
  unfold range. rewrite list_elem_of_fmap. split.
  - intros (k & -> & Hk). apply elem_of_seq in Hk. lia.
  - intros Hz. exists (Z.to_nat z). split; [lia |]. apply elem_of_seq. lia.
Qed.

Lemma elem_of_cells (w h x y : Z) : (x, y) ∈ cells w h <-> 0 <= x < w /\ 0 <= y < h.
Proof.
  unfold cells. rewrite list_elem_of_In, in_flat_map. split.
  - intros (x0 & Hx & Hin). apply list_elem_of_In in Hx, Hin.
    apply list_elem_of_fmap in Hin as (y0 & [= -> ->] & Hy).
    apply elem_of_range in Hx, Hy. auto.
  - intros [Hx Hy]. exists x. split; apply list_elem_of_In.
    + apply elem_of_range, Hx.
    + apply list_elem_of_fmap. exists y. split; [reflexivity | apply elem_of_range, Hy].
Qed.

Lemma elem_of_getWalkablePositions (m : Map) (x y : Z) :
  (x, y) ∈ getWalkablePositions m
  <-> 0 <= x < width m /\ 0 <= y < height m /\ isWalkable m x y = true.
Proof.
  unfold getWalkablePositions. rewrite list_elem_of_In, in_flat_map. split.
  - intros (x0 & Hx & Hin). apply in_flat_map in Hin as (y0 & Hy & Hin).
    apply list_elem_of_In in Hx, Hy. apply elem_of_range in Hx, Hy.
    destruct (isWalkable m x0 y0) eqn:E; [| destruct Hin].
    destruct Hin as [[= -> ->] | []]. auto.
  - intros (Hx & Hy & Hw). exists x. split; [apply list_elem_of_In, elem_of_range, Hx |].
    apply in_flat_map. exists y. split; [apply list_elem_of_In, elem_of_range, Hy |].
    rewrite Hw. left. reflexivity.
Qed.

Lemma at_index_Some {A} (l : list A) (i : Z) :
  0 <= i < Z.of_nat (length l) -> exists a, at_index l i = Some a /\ a ∈ l.
Proof.
  intros Hi. unfold at_index.
  destruct (i <? 0) eqn:E; [apply Z.ltb_lt in E; lia |].
  destruct (nth_error l (Z.to_nat i)) as [a |] eqn:En.
  - exists a. split; [reflexivity |]. apply list_elem_of_In. eapply nth_error_In, En.
  - apply nth_error_None in En. lia.
Qed.

(** X19.  [getWalkablePositions] lists exactly the cells of the map that
    are walkable: a position is in the list if and only if it lies within
    the map's width and height and [isWalkable] holds there.  With a
    random source that answers numbers from 0 up to but not including 1,
    [getRandomWalkablePosition] answers one of them whenever there is one,
    and null only when there is none. *)
Theorem getWalkablePositions_are_the_walkable_cells :
  forall (m : Map) (r : Random),
    in_unit_interval r ->
    (forall x y,
       (x, y) ∈ getWalkablePositions m
       <-> 0 <= x < width m /\ 0 <= y < height m /\ isWalkable m x y = true)
    /\ (getWalkablePositions m = [] ->
          fst (getRandomWalkablePosition m r) = None)
    /\ (getWalkablePositions m <> [] ->
          exists x y,
            fst (getRandomWalkablePosition m r) = Some (x, y)
            /\ 0 <= x < width m /\ 0 <= y < height m /\ isWalkable m x y = true).
Proof.
  intros m r Hr. split; [apply elem_of_getWalkablePositions |].
  unfold getRandomWalkablePosition. split.
  - intros ->. reflexivity.
  - intros Hne.
    destruct (getWalkablePositions m) as [| p l] eqn:E; [contradiction |].
    cbn [length Nat.eqb Math_floor_random fst].
    destruct (at_index_Some (p :: l) (floor_random r (drawn r) (Z.of_nat (S (length l)))))
      as ([x y] & Hat & Hin).
    { apply Hr. simpl length. lia. }
    cbn [length] in Hat. exists x, y. split; [exact Hat |].
    rewrite <- E in Hin. apply elem_of_getWalkablePositions, Hin.
Qed.

Lemma getWalkablePositions_are_the_walkable_cells_witness :
  (forall x y,
     (x, y) ∈ getWalkablePositions meadow
     <-> 0 <= x < width meadow /\ 0 <= y < height meadow /\ isWalkable meadow x y = true)
  /\ (getWalkablePositions meadow = [] ->
        fst (getRandomWalkablePosition meadow counting) = None)
  /\ (getWalkablePositions meadow <> [] ->
        exists x y,
          fst (getRandomWalkablePosition meadow counting) = Some (x, y)
          /\ 0 <= x < width meadow /\ 0 <= y < height meadow
          /\ isWalkable meadow x y = true).
Proof.
  apply (getWalkablePositions_are_the_walkable_cells meadow counting).
  intros n k Hk. simpl. apply Z.mod_pos_bound, Hk.
Defined.

Lemma getWalkablePositions_example :
  length (getWalkablePositions meadow) = 15%nat
  /\ (2, 1) ∉ getWalkablePositions meadow.
Proof.
  split; [vm_compute; reflexivity |].
  rewrite elem_of_getWalkablePositions. intros (_ & _ & Hw). vm_compute in Hw. discriminate Hw.
Qed.

(** *** Generated maps *)

Lemma createWalkableTile_run (theme : Theme) (x y : Z) (r : Random) :
  in_unit_interval r ->
  exists t,
    t ∈ walkableTypes theme
    /\ createWalkableTile theme x y r
       = (Some (mkTile t x y 0), mkRandom (S (drawn r)) (floor_random r)).
Proof.
  intros Hr. unfold createWalkableTile, Math_floor_random.
  destruct (at_index_Some (walkableTypes theme)
              (floor_random r (drawn r) (Z.of_nat (length (walkableTypes theme)))))
    as (t & Hat & Hin).
  { apply Hr. destruct theme; simpl; lia. }
  exists t. rewrite Hat. auto.
Qed.

Lemma base_tiles_run (theme : Theme) (cs : list (Z * Z)) :
  forall r, in_unit_interval r ->
    exists base r',
      base_tiles theme cs r = (Some base, r')
      /\ Forall2 (base_leaf (walkableTypes theme)) cs base
      /\ floor_random r' = floor_random r.
Proof.
  induction cs as [| [x y] cs IH]; intros r Hr; cbn [base_tiles].
  - exists [], r. repeat split. constructor.
  - destruct (createWalkableTile_run theme x y r Hr) as (t & Ht & ->).
    destruct (IH (mkRandom (S (drawn r)) (floor_random r))) as (base & r' & -> & Hbase & Hfr).
    { exact Hr. }
    eexists _, r'. split; [reflexivity |]. split; [| exact Hfr].
    constructor; [| exact Hbase]. exists t. auto.
Qed.

(** Among leaves laid cell by cell, the first that answers for a cell is
    that cell's own. *)
Lemma getTile_first_base (types : list TileType) (cs : list (Z * Z))
    (base : list MapComponent) (x y : Z) :
  Forall2 (base_leaf types) cs base ->
  (x, y) ∈ cs ->
  exists t, t ∈ types /\ getTile_first base x y = Some (mkTile t x y 0).
Proof.
  induction 1 as [| [cx cy] c cs base (t & Ht & ->) Hrest IH]; intros Hin.
  - apply elem_of_nil in Hin. contradiction.
  - rewrite getTile_first_cons. cbn [fst snd getTile].
    destruct (isWithinBounds cx cy 1 1 x y) eqn:E.
    + apply leaf_bounds in E as [-> ->]. exists t. auto.
    + apply elem_of_cons in Hin as [[= -> ->] | Hin]; [| apply IH, Hin].
      assert (Hb : isWithinBounds cx cy 1 1 cx cy = true) by (apply leaf_bounds; auto).
      congruence.
Qed.

Lemma walkableTypes_walkable (theme : Theme) (t : TileType) :
  t ∈ walkableTypes theme ->
  walkable (getProperties t) = true /\ t <> WATER /\ t <> MOUNTAIN.
Proof.
  intros Hin. destruct theme; simpl in Hin;
    repeat (apply elem_of_cons in Hin as [-> | Hin]; [repeat split; discriminate |]);
    apply elem_of_nil in Hin; contradiction.
Qed.

Lemma flat_map_nil {A B} (f : A -> list B) (l : list A) :
  (forall a, a ∈ l -> f a = []) -> flat_map f l = [].
Proof.
  induction l as [| a l IH]; intros Hf; simpl; [reflexivity |].
  rewrite Hf by left. apply IH. intros b Hb. apply Hf. right. exact Hb.
Qed.

(** X20.  [generateRandomMap] on a newly constructed map, with a random
    source that answers numbers from 0 up to but not including 1, returns
    a map on which every cell within the bounds holds a tile of one of the
    theme's walkable types: every cell is walkable.  The water and
    mountain tiles it adds afterwards go into the same layer behind the
    base tiles, where [getTile] never reaches them: [getTilesByType]
    finds no water and no mountain on the map. *)
Theorem generateRandomMap_every_cell_is_walkable :
  forall (theme : Theme) (name : string) (w h : Z) (r : Random),
    in_unit_interval r ->
    exists m' r',
      generateRandomMap theme (new_Map name w h) r = (Some m', r')
      /\ width m' = w /\ height m' = h
      /\ (forall x y, 0 <= x < w -> 0 <= y < h ->
            exists t, t ∈ walkableTypes theme
                      /\ Map_getTile m' x y = Some (mkTile t x y 0)
                      /\ isWalkable m' x y = true)
      /\ getTilesByType m' WATER = []
      /\ getTilesByType m' MOUNTAIN = [].
Proof.
  intros theme name w h r Hr.
  unfold generateRandomMap. cbn [new_Map width height].
  destruct (base_tiles_run theme (cells w h) r Hr) as (base & r1 & -> & Hbase & _).
  destruct (features WATER _ w h r1) as [water r2].
  destruct (features MOUNTAIN _ w h r2) as [mountains r3].
  eexists _, r3. split; [reflexivity |].
  unfold Map_add, new_Map.
  cbn [World.width World.height World.name World.children app].
  split; [reflexivity |]. split; [reflexivity |].
  assert (Hcell : forall x y, 0 <= x < w -> 0 <= y < h ->
            exists t, t ∈ walkableTypes theme
              /\ Map_getTile
                   {| name := name; width := w; height := h;
                      children := [MapComposite 0 0 w h (base ++ water ++ mountains)] |} x y
                 = Some (mkTile t x y 0)).
  { intros x y Hx Hy.
    destruct (getTile_first_base (walkableTypes theme) (cells w h) base x y Hbase)
      as (t & Ht & Hfirst).
    { apply elem_of_cells. auto. }
    exists t. split; [exact Ht |].
    unfold Map_getTile. cbn [width height children].
    assert (Hin : isWithinBounds 0 0 w h x y = true)
      by (apply WorldFacts.isWithinBounds_spec; lia).
    rewrite getTile_composite, Hin. cbn [negb].
    rewrite getTile_first_cons, getTile_composite, Hin. cbn [negb].
    rewrite getTile_first_app, Hfirst. reflexivity. }
  split; [| split].
  - intros x y Hx Hy. destruct (Hcell x y Hx Hy) as (t & Ht & Hget).
    exists t. split; [exact Ht |]. split; [exact Hget |].
    unfold isWalkable. rewrite Hget. apply (walkableTypes_walkable theme t Ht).
  - unfold getTilesByType. cbn [width height].
    apply flat_map_nil. intros x Hx. apply flat_map_nil. intros y Hy.
    apply elem_of_range in Hx, Hy.
    destruct (Hcell x y Hx Hy) as (t & Ht & ->). cbn [tile_type].
    destruct (decide (t = WATER)) as [-> |]; [| reflexivity].
    destruct (walkableTypes_walkable theme WATER Ht) as (_ & Hne & _). contradiction.
  - unfold getTilesByType. cbn [width height].
    apply flat_map_nil. intros x Hx. apply flat_map_nil. intros y Hy.
    apply elem_of_range in Hx, Hy.
    destruct (Hcell x y Hx Hy) as (t & Ht & ->). cbn [tile_type].
    destruct (decide (t = MOUNTAIN)) as [-> |]; [| reflexivity].
    destruct (walkableTypes_walkable theme MOUNTAIN Ht) as (_ & _ & Hne). contradiction.
Qed.

Lemma generateRandomMap_every_cell_is_walkable_witness :
  exists m' r',
    generateRandomMap forest (new_Map "woods" 5 4) counting = (Some m', r')
    /\ width m' = 5 /\ height m' = 4
    /\ (forall x y, 0 <= x < 5 -> 0 <= y < 4 ->
          exists t, t ∈ walkableTypes forest
                    /\ Map_getTile m' x y = Some (mkTile t x y 0)
                    /\ isWalkable m' x y = true)
    /\ getTilesByType m' WATER = []
    /\ getTilesByType m' MOUNTAIN = [].
Proof.
  apply (generateRandomMap_every_cell_is_walkable forest "woods" 5 4 counting).
  intros n k Hk. simpl. apply Z.mod_pos_bound, Hk.
Defined.

(** The same map, evaluated: the layer holds 20 base tiles followed by two
    water tiles and one mountain, and all 20 cells are walkable. *)
Lemma generateRandomMap_example :
  match generateRandomMap forest (new_Map "woods" 5 4) counting with
  | (Some m', _) =>
      match children m' with
      | [MapComposite _ _ _ _ tiles] =>
          length tiles = 23%nat
          /\ map (fun c => match c with
                           | TileComponent x y tile => (tile_type tile, x, y)
                           | _ => (GRASS, 0, 0)
                           end) (drop 20 tiles)
             = [(WATER, 0, 1); (WATER, 2, 3); (MOUNTAIN, 4, 1)]
      | _ => False
      end
      /\ length (getWalkablePositions m') = 20%nat
  | (None, _) => False
  end.
Proof. vm_compute. repeat split; reflexivity. Qed.

End CompositeFacts.


(** ** Keys, queued commands, and where they take the player *)

Module InputFacts.
Import Entity Command EntityFacts CommandFacts Input.
Local Open Scope list_scope.

(** *** A step and the step back *)

(** X21.  A step can be taken back.  A player with a position component,
    standing on a walkable cell of the map, for whom a movement command
    returns true, stands on a walkable cell afterwards; and the command of
    the opposite step finds its target valid: it writes back the very
    position the player had, and returns true unless the texture refresh
    throws, which it does not for a player without sprite component or
    without sprites loaded for its class. *)
Theorem opposite_step_leads_back :
  forall (sm sm' : Sprites.SpriteManager) (c c' c1 : MovementCommand)
         (player p1 : Player) (map : World.Map) (q : PositionComponent),
    position player = Some q ->
    stands_on_walkable player map ->
    opposite c c' ->
    execute sm c player map = (Returns true, c1, p1) ->
    stands_on_walkable p1 map
    /\ exists r p2,
         execute sm' c' p1 map = (r, remember c' (getX p1, getY p1, getZ p1), p2)
         /\ (r = Returns true \/ r = TypeError)
         /\ (no_texture_for sm' player -> r = Returns true)
         /\ position p2 = Some q
         /\ (getX p2, getY p2, getZ p2) = (getX player, getY player, getZ player).
Proof.
  intros sm sm' c c' c1 player p1 map q Hq (Hx & Hy & Hw) (Hdx & Hdy & Hdz) Hexec.
  destruct (canExecute c player map) eqn:Hcan;
    [| rewrite execute_unfold, Hcan in Hexec; discriminate].
  destruct (execute_accepted sm c player map Hcan)
    as (r0 & p0 & Hrun & _ & Hp1 & _ & _ & Hquiet & _).
  rewrite Hrun in Hexec. injection Hexec as -> _ ->.
  unfold target_of in Hp1. rewrite Hq in Hp1.
  unfold canExecute in Hcan. apply isValidPosition_spec in Hcan as (Hx1 & Hy1 & Hw1 & He1).
  assert (HX : getX p1 = getX player + deltaX c) by (unfold getX at 1; rewrite Hp1; reflexivity).
  assert (HY : getY p1 = getY player + deltaY c) by (unfold getY at 1; rewrite Hp1; reflexivity).
  assert (HZ : getZ p1 = getZ player + deltaZ c) by (unfold getZ at 1; rewrite Hp1; reflexivity).
  split.
  { unfold stands_on_walkable. rewrite HX, HY. auto. }
  assert (Hback : canExecute c' p1 map = true).
  { unfold canExecute. rewrite HX, HY, HZ, Hdx, Hdy, Hdz.
    replace (getX player + deltaX c + - deltaX c) with (getX player) by lia.
    replace (getY player + deltaY c + - deltaY c) with (getY player) by lia.
    apply isValidPosition_spec. rewrite HX, HY.
    split; [exact Hx |]. split; [exact Hy |]. split; [exact Hw |]. lia. }
  destruct (execute_accepted sm' c' p1 map Hback)
    as (r & p2 & Hrun2 & Hr & Hp2 & _ & Hno & _ & _).
  exists r, p2. split; [exact Hrun2 |]. split; [exact Hr |].
  split; [intros H; apply Hno, Hquiet, H |].
  assert (Hpos : position p2 = Some q).
  { rewrite Hp2. unfold target_of. rewrite Hp1, HX, HY, HZ, Hdx, Hdy, Hdz.
    unfold getX, getY, getZ. rewrite Hq. destruct q as [x y z]. simpl.
    f_equal. f_equal; lia. }
  split; [exact Hpos |].
  apply getXYZ_of_position. rewrite Hpos, Hq. reflexivity.
Qed.

(** The knight steps south on the meadow before any sprite is loaded, then
    north. *)
Lemma opposite_step_leads_back_witness :
  let p1 := snd (execute Sprites.new_SpriteManager MoveSouthCommand knight World.meadow) in
  stands_on_walkable p1 World.meadow
  /\ exists r p2,
       execute warrior_loaded MoveNorthCommand p1 World.meadow
       = (r, remember MoveNorthCommand (getX p1, getY p1, getZ p1), p2)
       /\ (r = Returns true \/ r = TypeError)
       /\ (no_texture_for warrior_loaded knight -> r = Returns true)
       /\ position p2 = Some (mkPosition 1 1 0)
       /\ (getX p2, getY p2, getZ p2) = (getX knight, getY knight, getZ knight).
Proof.
  apply (opposite_step_leads_back Sprites.new_SpriteManager warrior_loaded
           MoveSouthCommand MoveNorthCommand
           (snd (fst (execute Sprites.new_SpriteManager MoveSouthCommand knight
                        World.meadow)))
           knight
           (snd (execute Sprites.new_SpriteManager MoveSouthCommand knight World.meadow))
           World.meadow (mkPosition 1 1 0)).
  - reflexivity.
  - vm_compute. repeat split; (reflexivity || discriminate).
  - vm_compute. repeat split; reflexivity.
  - vm_compute. reflexivity.
Defined.

(** The same two steps, evaluated: with no sprites loaded the step back
    returns true; with the warrior's sprites loaded the knight is back at
    (1,1) all the same, but the call has thrown. *)
Lemma opposite_step_example :
  let p1 := snd (execute Sprites.new_SpriteManager MoveSouthCommand knight World.meadow) in
  fst (fst (execute Sprites.new_SpriteManager MoveNorthCommand p1 World.meadow))
  = Returns true
  /\ fst (fst (execute warrior_loaded MoveNorthCommand p1 World.meadow)) = TypeError
  /\ position (snd (execute warrior_loaded MoveNorthCommand p1 World.meadow))
     = Some (mkPosition 1 1 0).
Proof. vm_compute. repeat split; reflexivity. Qed.

(** *** What a command can change *)

Lemma kept_refl map player : kept map player player.
Proof. split; auto. Qed.

Lemma kept_trans map p1 p2 p3 : kept map p1 p2 -> kept map p2 p3 -> kept map p1 p3.
Proof.
  intros [H1 H1'] [H2 H2']. split; [auto |].
  intros other Hp Ha. rewrite H2', H1' by assumption. reflexivity.
Qed.

(** However [execute] ends, the player keeps a walkable cell under its
    feet and every component but position and animation; and it ends by
    returning where the refresh finds no texture. *)
Lemma execute_kept (sm : Sprites.SpriteManager) (c : MovementCommand) (player : Player)
    (map : World.Map) :
  kept map player (snd (execute sm c player map))
  /\ (forall sm', no_texture_for sm' player ->
        no_texture_for sm' (snd (execute sm c player map)))
  /\ (no_texture_for sm player ->
        exists ok, fst (fst (execute sm c player map)) = Returns ok).
Proof.
  destruct (canExecute c player map) eqn:Hcan.
  - destruct (execute_accepted sm c player map Hcan)
      as (r & p' & Hrun & _ & Hpos & Hother & Hno & Hquiet & _).
    rewrite Hrun. cbn [fst snd].
    split; [| split; [exact Hquiet | intros H; exists true; apply Hno, H]].
    split; [| exact Hother].
    intros Hs.
    unfold canExecute in Hcan. apply isValidPosition_spec in Hcan as (Hx1 & Hy1 & Hw1 & _).
    unfold stands_on_walkable. unfold target_of in Hpos.
    destruct (position player) as [q |] eqn:Eq.
    + assert (HX : getX p' = getX player + deltaX c)
        by (unfold getX at 1; rewrite Hpos; reflexivity).
      assert (HY : getY p' = getY player + deltaY c)
        by (unfold getY at 1; rewrite Hpos; reflexivity).
      rewrite HX, HY. auto.
    + assert (HX : getX p' = getX player)
        by (unfold getX; rewrite Hpos, Eq; reflexivity).
      assert (HY : getY p' = getY player)
        by (unfold getY; rewrite Hpos, Eq; reflexivity).
      rewrite HX, HY. exact Hs.
  - rewrite execute_unfold, Hcan. cbn [fst snd].
    split; [apply kept_refl |]. split; [auto |]. intros _. exists false. reflexivity.
Qed.

Lemma NoMovementCommand_execute_kept (sm : Sprites.SpriteManager) (c : MovementCommand)
    (player : Player) (map : World.Map) :
  kept map player (snd (NoMovementCommand_execute sm c player))
  /\ (forall sm', no_texture_for sm' player ->
        no_texture_for sm' (snd (NoMovementCommand_execute sm c player)))
  /\ (no_texture_for sm player ->
        exists ok, fst (fst (NoMovementCommand_execute sm c player)) = Returns ok).
Proof.
  unfold NoMovementCommand_execute.
  pose proof (position_setAnimationType sm player idle) as Hp.
  pose proof (fun other => untouched_setAnimationType sm player idle other) as Hu.
  pose proof (fun sm' => no_texture_setAnimationType sm sm' player idle) as Hn.
  pose proof (setAnimationType_quiet sm player idle) as Hq.
  destruct (setAnimationType sm player idle) as [r p]. cbn [fst snd] in *.
  assert (Hk : kept map player p).
  { split.
    - unfold stands_on_walkable, getX, getY. rewrite Hp. auto.
    - intros other _ Ha. apply Hu, Ha. }
  destruct r as [[] |]; cbn [fst snd].
  - split; [exact Hk |]. split; [exact Hn |]. intros _. exists true. reflexivity.
  - split; [exact Hk |]. split; [exact Hn |].
    intros H. destruct (Hq H) as [Hr _]. discriminate Hr.
Qed.

Lemma getResult_kept (sm : Sprites.SpriteManager) (c : ICommand) (player : Player)
    (map : World.Map) :
  kept map player (snd (getResult sm c player map))
  /\ (forall sm', no_texture_for sm' player ->
        no_texture_for sm' (snd (getResult sm c player map)))
  /\ (no_texture_for sm player ->
        exists result, fst (fst (getResult sm c player map)) = Returns result).
Proof.
  unfold getResult, ICommand_execute. destruct (class c).
  - pose proof (execute_kept sm (fields c) player map) as (Hk & Hn & Hr).
    destruct (execute sm (fields c) player map) as [[[ok |] f] p]; cbn [fst snd] in *.
    + split; [exact Hk |]. split; [exact Hn |]. intros _. eexists. reflexivity.
    + split; [exact Hk |]. split; [exact Hn |].
      intros H. destruct (Hr H) as [ok Hok]. discriminate Hok.
  - pose proof (NoMovementCommand_execute_kept sm (fields c) player map) as (Hk & Hn & Hr).
    destruct (NoMovementCommand_execute sm (fields c) player) as [[[ok |] f] p];
      cbn [fst snd] in *.
    + split; [exact Hk |]. split; [exact Hn |]. intros _. eexists. reflexivity.
    + split; [exact Hk |]. split; [exact Hn |].
      intros H. destruct (Hr H) as [ok Hok]. discriminate Hok.
Qed.

(** The loop: one result per command when it comes to its end, a shorter
    queue left behind when a command throws. *)
Lemma drain_kept (sm : Sprites.SpriteManager) (queue : list ICommand) (map : World.Map) :
  forall player,
    kept map player (snd (drain sm queue player map))
    /\ (forall results,
          fst (fst (drain sm queue player map)) = Returns results ->
          length results = length queue /\ snd (fst (drain sm queue player map)) = [])
    /\ (fst (fst (drain sm queue player map)) = TypeError ->
          (length (snd (fst (drain sm queue player map))) < length queue)%nat)
    /\ (no_texture_for sm player ->
          exists results, fst (fst (drain sm queue player map)) = Returns results).
Proof.
  induction queue as [| c queue IH]; intros player; cbn [drain].
  - split; [apply kept_refl |]. split; [intros results [= <-]; auto |].
    split; [discriminate |]. intros _. eexists. reflexivity.
  - pose proof (getResult_kept sm c player map) as (Hk & Hn & Hr).
    destruct (getResult sm c player map) as [[[result |] c'] p]; cbn [fst snd] in *.
    + destruct (IH p) as (Hk' & Hlen & Hthrow & Hquiet).
      destruct (drain sm queue p map) as [[[results |] queue'] p']; cbn [fst snd] in *.
      * split; [eapply kept_trans; eassumption |].
        split. { intros rs [= <-]. destruct (Hlen results eq_refl). simpl. auto. }
        split; [discriminate |]. intros _. eexists. reflexivity.
      * split; [eapply kept_trans; eassumption |].
        split; [discriminate |].
        split; [intros _; specialize (Hthrow eq_refl); simpl; lia |].
        intros H. destruct (Hquiet (Hn sm H)) as [rs Hrs]. discriminate Hrs.
    + split; [exact Hk |]. split; [discriminate |].
      split; [intros _; simpl; lia |].
      intros H. destruct (Hr H) as [rs Hrs]. discriminate Hrs.
Qed.

(** X22.  Whatever keys are pressed and however the run ends, executing
    the queued commands never takes the player off the walkable cells of
    the map and never touches a component other than position and
    animation.  While a run is in progress [executeCommands] answers
    nothing and changes nothing.  Otherwise, when it returns, it answers
    one result per queued command and leaves the queue empty; it does
    return where the texture refresh finds nothing to set for the player.
    When a command throws, nothing catches it: the manager is left in
    progress, and from then on [executeCommands] answers nothing and
    executes nothing. *)
Theorem queued_commands_keep_the_player_on_the_map :
  forall (sm : Sprites.SpriteManager) (keys : list string) (m : InputManager)
         (player : Player) (map : World.Map),
    stands_on_walkable player map ->
    let queued := press_all keys m in
    let r := fst (fst (executeCommands sm queued player map)) in
    let m' := snd (fst (executeCommands sm queued player map)) in
    let player' := snd (executeCommands sm queued player map) in
    stands_on_walkable player' map
    /\ (forall other, other <> "Position" -> other <> "Animation" ->
          components player' !! other = components player !! other)
    /\ (isProcessing queued = true ->
          r = Returns [] /\ m' = queued /\ player' = player)
    /\ (isProcessing queued = false ->
          (forall results,
             r = Returns results ->
             length results = length (commandQueue queued)
             /\ commandQueue m' = [] /\ isProcessing m' = false)
          /\ (no_texture_for sm player -> exists results, r = Returns results)
          /\ (r = TypeError ->
                isProcessing m' = true
                /\ (length (commandQueue m') < length (commandQueue queued))%nat
                /\ forall sm2 player2 map2,
                     executeCommands sm2 m' player2 map2 = (Returns [], m', player2))).
Proof.
  intros sm keys m player map Hs queued r m' player'.
  unfold r, m', player', executeCommands.
  destruct (isProcessing queued) eqn:E; cbn [fst snd].
  - split; [exact Hs |]. split; [auto |]. split; [auto | discriminate].
  - destruct (drain_kept sm (commandQueue queued) map player)
      as ([Hk Hk'] & Hlen & Hthrow & Hquiet).
    destruct (drain sm (commandQueue queued) player map) as [[[results |] queue'] p];
      cbn [fst snd] in *.
    + split; [apply Hk, Hs |]. split; [exact Hk' |]. split; [discriminate |].
      intros _. split; [| split; [| discriminate]].
      * intros rs [= <-]. destruct (Hlen results eq_refl) as [Hl ->]. auto.
      * intros _. eexists. reflexivity.
    + split; [apply Hk, Hs |]. split; [exact Hk' |]. split; [discriminate |].
      intros _. split; [discriminate |]. split.
      * intros H. destruct (Hquiet H) as [rs Hrs]. discriminate Hrs.
      * intros _. split; [reflexivity |]. split; [apply Hthrow; reflexivity |].
        reflexivity.
Qed.

(** The knight walks around the meadow, into the mountain and towards the
    edge, with the warrior's sprites loaded. *)
Lemma queued_commands_keep_the_player_on_the_map_witness :
  let keys := ["s"; "d"; "ArrowUp"; "x"; "D"; " "; "w"; "w"; "w"] in
  let queued := press_all keys new_InputManager in
  let r := fst (fst (executeCommands warrior_loaded queued knight World.meadow)) in
  let m' := snd (fst (executeCommands warrior_loaded queued knight World.meadow)) in
  let player' := snd (executeCommands warrior_loaded queued knight World.meadow) in
  stands_on_walkable player' World.meadow
  /\ (forall other, other <> "Position" -> other <> "Animation" ->
        components player' !! other = components knight !! other)
  /\ (isProcessing queued = true ->
        r = Returns [] /\ m' = queued /\ player' = knight)
  /\ (isProcessing queued = false ->
        (forall results,
           r = Returns results ->
           length results = length (commandQueue queued)
           /\ commandQueue m' = [] /\ isProcessing m' = false)
        /\ (no_texture_for warrior_loaded knight -> exists results, r = Returns results)
        /\ (r = TypeError ->
              isProcessing m' = true
              /\ (length (commandQueue m') < length (commandQueue queued))%nat
              /\ forall sm2 player2 map2,
                   executeCommands sm2 m' player2 map2 = (Returns [], m', player2))).
Proof.
  intros keys.
  apply (queued_commands_keep_the_player_on_the_map warrior_loaded keys new_InputManager
           knight World.meadow).
  vm_compute. repeat split; (reflexivity || discriminate).
Defined.

(** The same keys, evaluated.  The hero has no sprite: north of (2,2) lies
    the mountain; the space bar's command reports a move to the south
    although it moves nothing; the last step would leave the map.  The
    knight has one: the first command moves it to (1,2) and throws, seven
    commands stay queued and the manager stays in progress. *)
Lemma queued_commands_example :
  let keys := ["s"; "d"; "ArrowUp"; "x"; "D"; " "; "w"; "w"; "w"] in
  let queued := press_all keys new_InputManager in
  (exists results,
     fst (fst (executeCommands warrior_loaded queued hero World.meadow)) = Returns results
     /\ map success results = [true; true; false; true; true; true; true; false]
     /\ map message results
        = ["Moved south"; "Moved east"; "Cannot move north"; "Moved east"; "Moved south";
           "Moved north"; "Moved north"; "Cannot move north"])
  /\ (getX (snd (executeCommands warrior_loaded queued hero World.meadow)),
      getY (snd (executeCommands warrior_loaded queued hero World.meadow))) = (3, 0)
  /\ fst (fst (executeCommands warrior_loaded queued knight World.meadow)) = TypeError
  /\ (getX (snd (executeCommands warrior_loaded queued knight World.meadow)),
      getY (snd (executeCommands warrior_loaded queued knight World.meadow))) = (1, 2)
  /\ length (commandQueue
               (snd (fst (executeCommands warrior_loaded queued knight World.meadow))))
     = 7%nat
  /\ isProcessing (snd (fst (executeCommands warrior_loaded queued knight World.meadow)))
     = true.
Proof.
  intros keys queued. split.
  - eexists. split; [vm_compute; reflexivity |]. split; vm_compute; reflexivity.
  - vm_compute. repeat split; reflexivity.
Qed.

End InputFacts.


Module KeyFacts.
Import Entity Command Input.
Local Open Scope list_scope.

Ltac each_ascii c :=
  let b0 := fresh in let b1 := fresh in let b2 := fresh in let b3 := fresh in
  let b4 := fresh in let b5 := fresh in let b6 := fresh in let b7 := fresh in
  destruct c as [b0 b1 b2 b3 b4 b5 b6 b7];
  destruct b0, b1, b2, b3, b4, b5, b6, b7.

(** No character lowercases to a capital A. *)
Lemma lower_not_A (c : ascii) : lower c <> "A"%char.
Proof. each_ascii c; vm_compute; discriminate. Qed.

(** What the movement table holds for a lowercased key. *)
Lemma get_lowered (key : string) :
  JsMap.get (toLowerCase key) movementKeys
  = if bool_decide (key ∈ ["w"; "W"]) then Some (mkICommand Directional MoveNorthCommand)
    else if bool_decide (key ∈ ["a"; "A"]) then Some (mkICommand Directional MoveWestCommand)
    else if bool_decide (key ∈ ["s"; "S"]) then Some (mkICommand Directional MoveSouthCommand)
    else if bool_decide (key ∈ ["d"; "D"]) then Some (mkICommand Directional MoveEastCommand)
    else None.
Proof.
  destruct key as [| c1 [| c2 rest]].
  - vm_compute. reflexivity.
  - each_ascii c1; vm_compute; reflexivity.
  - assert (Hlong : forall k : string,
              k ∈ ["w"; "W"; "a"; "A"; "s"; "S"; "d"; "D"] -> String c1 (String c2 rest) <> k).
    { intros k Hk Heq. subst k.
      repeat (apply elem_of_cons in Hk as [Hk | Hk]; [discriminate Hk |]).
      apply elem_of_nil in Hk. exact Hk. }
    rewrite !bool_decide_eq_false_2.
    + cbn [toLowerCase]. unfold movementKeys. cbn [JsMap.get].
      repeat match goal with
             | |- context [decide (?a = ?b)] =>
                 destruct (decide (a = b)) as [E | _];
                 [exfalso; first [discriminate E
                                 | injection E as E _; exact (lower_not_A _ E)] |]
             end.
      reflexivity.
    + intros Hin. repeat (apply elem_of_cons in Hin as [Hin | Hin]; [discriminate Hin |]).
      apply elem_of_nil in Hin. exact Hin.
    + intros Hin. repeat (apply elem_of_cons in Hin as [Hin | Hin]; [discriminate Hin |]).
      apply elem_of_nil in Hin. exact Hin.
    + intros Hin. repeat (apply elem_of_cons in Hin as [Hin | Hin]; [discriminate Hin |]).
      apply elem_of_nil in Hin. exact Hin.
    + intros Hin. repeat (apply elem_of_cons in Hin as [Hin | Hin]; [discriminate Hin |]).
      apply elem_of_nil in Hin. exact Hin.
Qed.

Ltac is_key key k :=
  destruct (decide (key = k)) as [-> | ?]; [vm_compute; reflexivity |].

Ltac not_among :=
  let Hin := fresh in
  intros Hin;
  repeat (apply elem_of_cons in Hin as [Hin | Hin]; [contradiction |]);
  apply elem_of_nil in Hin; exact Hin.

(** X23.  The chain of the input manager binds exactly these keys: [w],
    [a], [s], [d] in either case and the four arrow keys to the steps
    north, west, south and east; the space bar, [Enter], [Escape] and
    [Tab] to the command that does not move.  Every other key -- an arrow
    key's name in another spelling, too -- is bound to nothing.  The
    queue of a new manager after any keys is, in order, what the keys
    pressed are bound to. *)
Theorem keys_are_bound_as_the_table_says :
  forall (key : string) (keys : list string),
    handle (handlerChain new_InputManager) key = key_binding key
    /\ (InputManager_processInput new_InputManager key).1 = key_binding key
    /\ commandQueue (press_all keys new_InputManager) = omap key_binding keys.
Proof.
  assert (Hhandle : forall key, handle (handlerChain new_InputManager) key = key_binding key).
  { intros key.
    cbn [new_InputManager handlerChain handle processInput].
    unfold JsMap.has at 1. rewrite get_lowered.
    is_key key "w". is_key key "W". is_key key "a". is_key key "A".
    is_key key "s". is_key key "S". is_key key "d". is_key key "D".
    is_key key "ArrowUp". is_key key "ArrowLeft". is_key key "ArrowDown".
    is_key key "ArrowRight". is_key key " ". is_key key "Enter".
    is_key key "Escape". is_key key "Tab".
    unfold key_binding.
    rewrite !bool_decide_eq_false_2 by not_among.
    unfold JsMap.has, movementKeys, actionKeys, systemKeys. cbn [JsMap.get].
    repeat match goal with
           | |- context [decide (key = ?k)] =>
               destruct (decide (key = k)); [contradiction |]
           end.
    reflexivity. }
  intros key keys. split; [apply Hhandle |]. split.
  - unfold InputManager_processInput. rewrite Hhandle.
    destruct (key_binding key); reflexivity.
  - assert (Hall : forall m, handlerChain m = handlerChain new_InputManager ->
              commandQueue (press_all keys m) = commandQueue m ++ omap key_binding keys).
    { unfold press_all. induction keys as [| k keys IH]; intros m Hm; simpl.
      - rewrite app_nil_r. reflexivity.
      - unfold InputManager_processInput at 2. rewrite Hm, Hhandle.
        destruct (key_binding k) as [c |]; cbn [snd].
        + rewrite IH by reflexivity. cbn [commandQueue]. rewrite <- app_assoc. reflexivity.
        + apply IH, Hm. }
    rewrite Hall by reflexivity. reflexivity.
Qed.

Lemma keys_example :
  omap key_binding ["W"; "arrowup"; "ArrowUp"; "Enter"; "enter"; "q"]
  = [ mkICommand Directional MoveNorthCommand; mkICommand Directional MoveNorthCommand;
      mkICommand NoMovement NoMovementCommand ].
Proof. vm_compute. reflexivity. Qed.

End KeyFacts.
